(** * Chuvita's Odyssey: the match-resolution and falling-block core

    A shallow embedding of the game logic of the three boards of the
    application:

    - [Pills]   the falling-capsule game (PillsGame component): grid, pill
                movement, run detection, clearing, gravity and the cascade;
    - [Match3]  the swap board of the game screen (refill in place);
    - [Mahjong] the pair-matching board (tile selectability, presses);
    - [Leaderboard] the store of the ten best scores.

    React state is passed explicitly, and a callback that runs in the
    closure of an earlier render than the state it acts on takes both
    states; [Math.random] is an infinite sequence of raw draws consumed
    front to back. *)

From Stdlib Require Import ZArith Lia Sorted.
From stdpp Require Import base option list strings pretty.

Set Default Proof Using "Type".

(** ** Randomness

    [Math.floor(Math.random() * n)] is an index below [n]; the generator is
    a sequence of raw draws and one call consumes its head. *)

Definition Rng := nat → nat.

Definition randomIndex (n : nat) (rng : Rng) : nat * Rng :=
  (rng 0 `mod` n, λ k, rng (S k)).

Definition constRng (v : nat) : Rng := λ _, v.

(** * The falling-capsule game *)

Module Pills.

Inductive BlockType :=
  EMPTY | RED | BLUE | YELLOW | GREEN | BROWN | BLACK | SKIN.

#[global] Instance BlockType_eq_dec : EqDecision BlockType.
Proof. solve_decision. Defined.

(** [Block]: the optional [id] field of the source is never written or read
    by the game logic and is left out. *)
Record Block := { type : BlockType; isVirus : bool }.

#[global] Instance Block_eq_dec : EqDecision Block.
Proof. solve_decision. Defined.

Definition emptyBlock : Block := {| type := EMPTY; isVirus := false |}.

#[global] Instance Block_inhabited : Inhabited Block := populate emptyBlock.

Record Position := { row : Z; col : Z }.

#[global] Instance Position_eq_dec : EqDecision Position.
Proof. solve_decision. Defined.

Inductive Orientation := horizontal | vertical.

Record Pill := {
  pos1 : Position;
  pos2 : Position;
  color1 : BlockType;
  color2 : BlockType;
  orientation : Orientation
}.

Abbreviation Grid := (list (list Block)).

(** [grid[r][c]].  Every read of the source happens inside the grid; on a
    well-formed grid ([wf] below) the lookup never leaves the lists. *)
Definition blockAt (g : Grid) (r c : nat) : Block := (g !!! r) !!! c.

(** [newGrid[r][c] = b] *)
Definition setCell (g : Grid) (r c : nat) (b : Block) : Grid :=
  <[r := <[c := b]> (g !!! r)]> g.

Definition posAt (r c : nat) : Position :=
  {| row := Z.of_nat r; col := Z.of_nat c |}.

Definition blockAtPos (g : Grid) (p : Position) : Block :=
  blockAt g (Z.to_nat (row p)) (Z.to_nat (col p)).

(** The cell a position designates, when the position lies in the grid. *)
Definition cellAt (g : Grid) (p : Position) : option Block :=
  if bool_decide (0 ≤ row p)%Z && bool_decide (0 ≤ col p)%Z
  then g !! Z.to_nat (row p) ≫= (.!! Z.to_nat (col p))
  else None.

Definition isEmpty (b : Block) : bool := bool_decide (type b = EMPTY).

(** The palette pills and viruses are drawn from. *)
Definition types : list BlockType := [RED; BLUE; YELLOW].

Definition getRandomColor (rng : Rng) : BlockType * Rng :=
  let '(i, rng) := randomIndex (length types) rng in
  (default EMPTY (types !! i), rng).

(** Component state. [nextPillColors] and [speed] exist only in the variant
    with the next-pill preview. *)
Record Game := {
  grid : Grid;
  activePill : option Pill;
  nextPillColors : option (BlockType * BlockType);
  score : nat;
  level : nat;
  gameOver : bool;
  speed : nat
}.

Definition GAME_SPEED : nat := 600.

Definition setGrid (g : Grid) (s : Game) : Game :=
  {| grid := g; activePill := activePill s; nextPillColors := nextPillColors s;
     score := score s; level := level s; gameOver := gameOver s;
     speed := speed s |}.

Definition setActivePill (p : option Pill) (s : Game) : Game :=
  {| grid := grid s; activePill := p; nextPillColors := nextPillColors s;
     score := score s; level := level s; gameOver := gameOver s;
     speed := speed s |}.

Definition setNextPillColors (n : option (BlockType * BlockType)) (s : Game) : Game :=
  {| grid := grid s; activePill := activePill s; nextPillColors := n;
     score := score s; level := level s; gameOver := gameOver s;
     speed := speed s |}.

Definition addScore (n : nat) (s : Game) : Game :=
  {| grid := grid s; activePill := activePill s; nextPillColors := nextPillColors s;
     score := score s + n; level := level s; gameOver := gameOver s;
     speed := speed s |}.

Definition setGameOver (b : bool) (s : Game) : Game :=
  {| grid := grid s; activePill := activePill s; nextPillColors := nextPillColors s;
     score := score s; level := level s; gameOver := b;
     speed := speed s |}.

Definition setSpeed (n : nat) (s : Game) : Game :=
  {| grid := grid s; activePill := activePill s; nextPillColors := nextPillColors s;
     score := score s; level := level s; gameOver := gameOver s;
     speed := n |}.

Definition spawnPosition1 : Position := posAt 0 3.
Definition spawnPosition2 : Position := posAt 0 4.

(** The spawn cells are occupied: [grid[0][3].type !== 'EMPTY' ||
    grid[0][4].type !== 'EMPTY']. *)
Definition spawnBlocked (g : Grid) : bool :=
  negb (isEmpty (blockAt g 0 3)) || negb (isEmpty (blockAt g 0 4)).

(** *** Closures

    A function of the component reads the state of the render that
    defined it, while the setters it calls act on the current state.
    Where the two can differ the functions below take both: [render],
    the state the closure reads, and [s], the current state. *)

(** [spawnPill] of the basic variant: [grid] and [gameOver] are read from
    the closure.  The alert shown on game over is presentation and is
    not part of the state. *)
Definition spawnPill (render s : Game) (rng : Rng) : Game * Rng :=
  if bool_decide (length (grid render) = 0) || gameOver render then (s, rng)
  else
  let '(c1, rng) := getRandomColor rng in
  let '(c2, rng) := getRandomColor rng in
  let newPill := {| pos1 := spawnPosition1; pos2 := spawnPosition2;
                    color1 := c1; color2 := c2; orientation := horizontal |} in
  if spawnBlocked (grid render) then (setGameOver true s, rng)
  else (setActivePill (Some newPill) s, rng).

(** [spawnPill] of the variant with the next-pill preview. *)
Module Preview.

Definition spawnPill (render s : Game) (rng : Rng) : Game * Rng :=
  if bool_decide (length (grid render) = 0) || gameOver render then (s, rng)
  else
  match nextPillColors render with
  | None =>
      let '(c1, rng) := getRandomColor rng in
      let '(c2, rng) := getRandomColor rng in
      (setNextPillColors (Some (c1, c2)) s, rng)
  | Some (c1, c2) =>
      let newPill := {| pos1 := spawnPosition1; pos2 := spawnPosition2;
                        color1 := c1; color2 := c2; orientation := horizontal |} in
      if spawnBlocked (grid render) then (setGameOver true s, rng) else
      let s := setSpeed GAME_SPEED (setActivePill (Some newPill) s) in
      let '(n1, rng) := getRandomColor rng in
      let '(n2, rng) := getRandomColor rng in
      (setNextPillColors (Some (n1, n2)) s, rng)
  end.

End Preview.

Section Board.

(** The board dimensions are constants of each variant of the component
    (20 by 10, 16 by 8). *)
Context (GRID_ROWS GRID_COLS : nat).

Definition wf (g : Grid) : Prop :=
  length g = GRID_ROWS ∧ Forall (λ r, length r = GRID_COLS) g.

Definition createEmptyGrid : Grid :=
  replicate GRID_ROWS (replicate GRID_COLS emptyBlock).

Definition isValidPos (pos : Position) : bool :=
  (0 <=? row pos)%Z && (row pos <? Z.of_nat GRID_ROWS)%Z &&
  (0 <=? col pos)%Z && (col pos <? Z.of_nat GRID_COLS)%Z.

Definition shift (p : Position) (dRow dCol : Z) : Position :=
  {| row := row p + dRow; col := col p + dCol |}.

(** The position lies within the grid bounds. *)
Definition inBounds (p : Position) : Prop :=
  (0 ≤ row p < Z.of_nat GRID_ROWS)%Z ∧ (0 ≤ col p < Z.of_nat GRID_COLS)%Z.

(** The grid holds an Empty cell at the position. *)
Definition emptyAt (g : Grid) (p : Position) : Prop :=
  ∃ b, cellAt g p = Some b ∧ type b = EMPTY.

Definition canMove (grid : Grid) (pill : Pill) (dRow dCol : Z) : bool :=
  let next1 := shift (pos1 pill) dRow dCol in
  let next2 := shift (pos2 pill) dRow dCol in
  if negb (isValidPos next1) || negb (isValidPos next2) then false
  else if negb (isEmpty (blockAtPos grid next1)) then false
  else if negb (isEmpty (blockAtPos grid next2)) then false
  else true.

(** [lockPill]: both halves are written into a copy of the grid. *)
Definition lockPill (grid : Grid) (pill : Pill) : Grid :=
  let g1 := setCell grid (Z.to_nat (row (pos1 pill))) (Z.to_nat (col (pos1 pill)))
              {| type := color1 pill; isVirus := false |} in
  setCell g1 (Z.to_nat (row (pos2 pill))) (Z.to_nat (col (pos2 pill)))
              {| type := color2 pill; isVirus := false |}.

(** *** Run detection

    The two loop nests of [checkMatches] (rows, then columns) run the same
    scan along a line of [n] cells: [ty i] is the type of the [i]-th cell of
    the line and [mk i] its position. *)

Record Scan := {
  count : nat;
  currentType : BlockType;
  toClear : list Position
}.

(** [for (let k = 1; k <= count; k++) toClear.push(mk (c - k))] *)
Definition pushRun (mk : nat → Position) (c count : nat)
    (toClear : list Position) : list Position :=
  toClear ++ ((λ k, mk (c - k)) <$> seq 1 count).

(** The body of the inner loop at cell [c]. *)
Definition scanCell (ty : nat → BlockType) (mk : nat → Position)
    (st : Scan) (c : nat) : Scan :=
  if bool_decide (ty c ≠ EMPTY) && bool_decide (ty c = currentType st) then
    {| count := S (count st); currentType := currentType st;
       toClear := toClear st |}
  else
    {| count := 1; currentType := ty c;
       toClear := if bool_decide (3 ≤ count st)
                  then pushRun mk c (count st) (toClear st)
                  else toClear st |}.

(** One line: the loop over its cells and the flush after the last cell. *)
Definition scanLine (n : nat) (ty : nat → BlockType) (mk : nat → Position)
    (toClear0 : list Position) : list Position :=
  let st := foldl (scanCell ty mk)
              {| count := 0; currentType := EMPTY; toClear := toClear0 |}
              (seq 0 n) in
  if bool_decide (3 ≤ count st) && bool_decide (currentType st ≠ EMPTY)
  then pushRun mk n (count st) (toClear st)
  else toClear st.

Definition scanHorizontal (g : Grid) (toClear0 : list Position) : list Position :=
  foldl (λ acc r, scanLine GRID_COLS (λ c, type (blockAt g r c))
                    (λ c, posAt r c) acc)
        toClear0 (seq 0 GRID_ROWS).

Definition scanVertical (g : Grid) (toClear0 : list Position) : list Position :=
  foldl (λ acc c, scanLine GRID_ROWS (λ r, type (blockAt g r c))
                    (λ r, posAt r c) acc)
        toClear0 (seq 0 GRID_COLS).

(** The [toClear] array of [checkMatches]. *)
Definition findMatches (g : Grid) : list Position :=
  scanVertical g (scanHorizontal g []).

(** [a.findIndex(P)]; [None] stands for the -1 of the source. *)
Fixpoint findIndex {A} (P : A → bool) (a : list A) : option nat :=
  match a with
  | [] => None
  | x :: a' => if P x then Some 0 else S <$> findIndex P a'
  end.

Definition samePos (t v : Position) : bool :=
  bool_decide (row t = row v) && bool_decide (col t = col v).

(** [a.filter((v, i, a) => keep v i a)], the elements of [l] carrying the
    indices [i], [i+1], ... of [a]. *)
Fixpoint filterFrom {A} (keep : A → nat → bool) (i : nat) (l : list A) : list A :=
  match l with
  | [] => []
  | v :: l' => if keep v i then v :: filterFrom keep (S i) l'
               else filterFrom keep (S i) l'
  end.

(** [toClear.filter((v, i, a) => a.findIndex(t => t.row === v.row &&
    t.col === v.col) === i)] *)
Definition uniqueClear (a : list Position) : list Position :=
  filterFrom (λ v i, bool_decide (findIndex (λ t, samePos t v) a = Some i)) 0 a.

(** [uniqueClear.forEach(p => newGrid[p.row][p.col] = EMPTY)] *)
Definition clearCells (g : Grid) (ps : list Position) : Grid :=
  foldl (λ g p, setCell g (Z.to_nat (row p)) (Z.to_nat (col p)) emptyBlock) g ps.

(** *** Gravity *)

(** [newGrid[r][c].type !== 'EMPTY' && !newGrid[r][c].isVirus &&
    newGrid[r + 1][c].type === 'EMPTY'] *)
Definition canFall (g : Grid) (r c : nat) : bool :=
  negb (isEmpty (blockAt g r c)) && negb (isVirus (blockAt g r c))
  && isEmpty (blockAt g (r + 1) c).

(** The body of the inner loop of [applyGravity] at cell [(r, c)]. *)
Definition gravityCell (c : nat) (st : Grid * bool) (r : nat) : Grid * bool :=
  let '(newGrid, moved) := st in
  if canFall newGrid r c
  then (setCell (setCell newGrid (r + 1) c (blockAt newGrid r c)) r c emptyBlock,
        true)
  else (newGrid, moved).

(** [for (let r = k - 1; r >= 0; r--)] *)
Fixpoint gravityColumn (c : nat) (k : nat) (st : Grid * bool) : Grid * bool :=
  match k with
  | 0 => st
  | S r => gravityColumn c r (gravityCell c st r)
  end.

(** One pass of [applyGravity]: the new grid and the [moved] flag. *)
Definition gravityPass (g : Grid) : Grid * bool :=
  foldl (λ st c, gravityColumn c (GRID_ROWS - 1) st) (g, false) (seq 0 GRID_COLS).

(** [n] passes of [applyGravity] in a row. *)
Definition gravityPasses (n : nat) (g : Grid) : Grid :=
  Nat.iter n (λ g, (gravityPass g).1) g.

(** *** What a run is

    Cell [i] of a line of [n] cells lies on three consecutive cells of one
    non-Empty type. *)
Definition lineTriple (ty : nat → BlockType) (n i : nat) : Prop :=
  ∃ j, j ≤ i ≤ j + 2 ∧ j + 2 < n ∧
       ty j ≠ EMPTY ∧ ty (j + 1) = ty j ∧ ty (j + 2) = ty j.

(** The position is a cell of the grid lying on three consecutive equal
    non-Empty cells of its row or of its column. *)
Definition matched (g : Grid) (p : Position) : Prop :=
  ∃ r c, p = posAt r c ∧
    ((r < GRID_ROWS ∧ lineTriple (λ c', type (blockAt g r c')) GRID_COLS c) ∨
     (c < GRID_COLS ∧ lineTriple (λ r', type (blockAt g r' c)) GRID_ROWS r)).

(** A row or a column holds [len ≥ 3] consecutive cells of one non-Empty
    type, starting at [(r, c)]. *)
Definition rowRun (g : Grid) (r c len : nat) (t : BlockType) : Prop :=
  3 ≤ len ∧ t ≠ EMPTY ∧ r < GRID_ROWS ∧ c + len ≤ GRID_COLS ∧
  ∀ i, i < len → type (blockAt g r (c + i)) = t.

Definition colRun (g : Grid) (r c len : nat) (t : BlockType) : Prop :=
  3 ≤ len ∧ t ≠ EMPTY ∧ c < GRID_COLS ∧ r + len ≤ GRID_ROWS ∧
  ∀ i, i < len → type (blockAt g (r + i) c) = t.

Definition hasRun (g : Grid) : Prop :=
  ∃ r c len t, rowRun g r c len t ∨ colRun g r c len t.

(** The cells of a horizontal or vertical run of [len] cells from [(r, c)]. *)
Definition rowCells (r c len : nat) : list Position :=
  (λ i, posAt r (c + i)) <$> seq 0 len.

Definition colCells (r c len : nat) : list Position :=
  (λ i, posAt (r + i) c) <$> seq 0 len.

(** [cells] is a run of the grid and no cell outside it is matched. *)
Definition isolatedRun (g : Grid) (cells : list Position) : Prop :=
  (∃ r c len t,
      (rowRun g r c len t ∧ cells = rowCells r c len) ∨
      (colRun g r c len t ∧ cells = colCells r c len)) ∧
  ∀ p, matched g p → p ∈ cells.

(** The state of the scan of a line before cell [c]: the open block is
    the last [count] cells, everything before it has been settled. *)
Definition scanInv (ty : nat → BlockType) (c : nat) (st : Scan)
    (idxs : list nat) : Prop :=
  count st ≤ c ∧
  (c = 0 → count st = 0 ∧ currentType st = EMPTY) ∧
  (0 < c → 1 ≤ count st ∧ currentType st = ty (c - 1)) ∧
  (∀ i, c - count st ≤ i < c → ty i = currentType st) ∧
  (currentType st ≠ EMPTY →
     c - count st = 0 ∨ ty (c - count st - 1) ≠ currentType st) ∧
  (currentType st = EMPTY → count st ≤ 1) ∧
  (∀ i, i ∈ idxs ↔ lineTriple ty (c - count st) i).

(** The clearing branch of [checkMatches]: the matched cells are emptied
    in a copy of the grid, the copy becomes the grid and every cleared
    cell scores 100. *)
Definition clearMatches (s : Game) (currentGrid : Grid)
    (toClear : list Position) : Game * Grid :=
  let unique := uniqueClear toClear in
  let newGrid := clearCells currentGrid unique in
  (addScore (length unique * 100) (setGrid newGrid s), newGrid).

(** *** The cascade

    [checkMatches] and [applyGravity] call each other, directly or through
    a timer; every call spends one unit of [fuel].  [steps] counts the
    calls of [checkMatches] that cleared cells.  The calls of one cascade
    are all closures of one render, the one whose [lockPill] started the
    first timer: its [gameOver] is the one the guards test and its
    [spawnPill] the one that ends the cascade, while the grids travel as
    arguments. *)

Record Cascade := {
  game : Game;
  rng' : Rng;
  steps : nat
}.

Fixpoint checkMatches (fuel : nat) (steps : nat) (render s : Game) (rng : Rng)
    (currentGrid : Grid) {struct fuel} : option Cascade :=
  match fuel with
  | 0 => None
  | S fuel =>
      if gameOver render
      then Some {| game := s; rng' := rng; steps := steps |} else
      let toClear := findMatches currentGrid in
      if bool_decide (0 < length toClear) then
        let '(s, newGrid) := clearMatches s currentGrid toClear in
        applyGravity fuel (S steps) render s rng newGrid
      else
        let '(s, rng) := spawnPill render s rng in
        Some {| game := s; rng' := rng; steps := steps |}
  end
with applyGravity (fuel : nat) (steps : nat) (render s : Game) (rng : Rng)
    (currentGrid : Grid) {struct fuel} : option Cascade :=
  match fuel with
  | 0 => None
  | S fuel =>
      if gameOver render
      then Some {| game := s; rng' := rng; steps := steps |} else
      let '(newGrid, moved) := gravityPass currentGrid in
      if moved then applyGravity fuel steps render (setGrid newGrid s) rng newGrid
      else checkMatches fuel steps render s rng newGrid
  end.

(** Every cell flagged as a virus has a colour: what the game builds,
    which places coloured viruses and clears to an unflagged Empty
    block. *)
Definition colouredViruses (g : Grid) : Prop :=
  ∀ r c, isVirus (blockAt g r c) = true → type (blockAt g r c) ≠ EMPTY.

(** *** Measures of a grid *)

Definition sumTo (n : nat) (F : nat → nat) : nat := sum_list_with F (seq 0 n).

Definition gridSum (f : nat → Block → nat) (g : Grid) : nat :=
  sumTo GRID_ROWS (λ r, sumTo GRID_COLS (λ c, f r (blockAt g r c))).

(** The number of occupied cells. *)
Definition occupied (g : Grid) : nat :=
  gridSum (λ _ b, if isEmpty b then 0 else 1) g.

(** The rows left below the occupied cells, summed over the grid. *)
Definition fallRoom (g : Grid) : nat :=
  gridSum (λ r b, if isEmpty b then 0 else GRID_ROWS - 1 - r) g.

(** Calls that always suffice for a cascade: at most one clearing call
    per occupied cell, each followed by the passes that settle the grid. *)
Definition cascadeFuel : nat :=
  GRID_ROWS * GRID_COLS * (GRID_ROWS * (GRID_COLS * GRID_ROWS) + 2) + 1.

(** What a finished cascade guarantees: at most [bound] clearing steps, a
    score that did not drop and, unless the game was already over in the
    render of its closures, a grid on which match detection finds
    nothing. *)
Definition cascadeOk (render s : Game) (bound : nat) (res : Cascade) : Prop :=
  steps res ≤ bound ∧ score s ≤ score (game res) ∧
  (gameOver render = false →
   wf (grid (game res)) ∧ findMatches (grid (game res)) = []).

(** The clearing branch of the variant on the smaller board, which clears
    and scores the whole list:
    [toClear.forEach(p => newGrid[p.row][p.col] = EMPTY);
     setScore(prev => prev + toClear.length * 100)]. *)
Definition clearMatchesAll (s : Game) (currentGrid : Grid)
    (toClear : list Position) : Game * Grid :=
  let newGrid := clearCells currentGrid toClear in
  (addScore (length toClear * 100) (setGrid newGrid s), newGrid).

(** *** Controls and the tick *)

(** [{...activePill, pos1: ..., pos2: ...}] with both cells moved. *)
Definition movePill (pill : Pill) (dRow dCol : Z) : Pill :=
  {| pos1 := shift (pos1 pill) dRow dCol; pos2 := shift (pos2 pill) dRow dCol;
     color1 := color1 pill; color2 := color2 pill;
     orientation := orientation pill |}.

(** [controls.left] and [controls.right] *)
Definition left (s : Game) : Game :=
  match activePill s with
  | Some pill =>
      if negb (gameOver s) && canMove (grid s) pill 0 (-1)
      then setActivePill (Some (movePill pill 0 (-1))) s else s
  | None => s
  end.

Definition right (s : Game) : Game :=
  match activePill s with
  | Some pill =>
      if negb (gameOver s) && canMove (grid s) pill 0 1
      then setActivePill (Some (movePill pill 0 1)) s else s
  | None => s
  end.

(** The cell the second half pivots to: above the first half when the
    pill lies flat, to its right when it stands. *)
Definition rotatedPos2 (pill : Pill) : Position :=
  match orientation pill with
  | horizontal => {| row := row (pos1 pill) - 1; col := col (pos1 pill) |}
  | vertical => {| row := row (pos1 pill); col := col (pos1 pill) + 1 |}
  end.

Definition toggle (o : Orientation) : Orientation :=
  match o with horizontal => vertical | vertical => horizontal end.

(** [controls.rotate] *)
Definition rotate (s : Game) : Game :=
  match activePill s with
  | None => s
  | Some pill =>
      if gameOver s then s else
      let newPos2 := rotatedPos2 pill in
      if isValidPos newPos2 && isEmpty (blockAtPos (grid s) newPos2) then
        setActivePill
          (Some {| pos1 := pos1 pill; pos2 := newPos2;
                   color1 := color1 pill; color2 := color2 pill;
                   orientation := toggle (orientation pill) |}) s
      else s
  end.

(** [lockPill] on the component state: the halves go into the grid, no
    pill stays active, and the new grid is handed to [checkMatches] by a
    timer. *)
Definition lockActivePill (s : Game) : Game * option Grid :=
  match activePill s with
  | None => (s, None)
  | Some pill =>
      let newGrid := lockPill (grid s) pill in
      (setActivePill None (setGrid newGrid s), Some newGrid)
  end.

(** [gameStep], the tick: the pill goes down one row or locks.  The
    second component is the grid [checkMatches] is scheduled on. *)
Definition gameStep (s : Game) : Game * option Grid :=
  match activePill s with
  | None => (s, None)
  | Some pill =>
      if gameOver s then (s, None)
      else if canMove (grid s) pill 1 0
      then (setActivePill (Some (movePill pill 1 0)) s, None)
      else lockActivePill s
  end.

(** A tick and the cascade it sets off.  The timer of [lockPill] runs
    the [checkMatches] of the render in which the pill was locked, so the
    cascade's closures read the state [s] the tick started from, with the
    grid as it was before the lock, and act on the state after it. *)
Definition tick (fuel : nat) (s : Game) (rng : Rng) : option Cascade :=
  match gameStep s with
  | (s', None) => Some {| game := s'; rng' := rng; steps := 0 |}
  | (s', Some newGrid) => checkMatches fuel 0 s s' rng newGrid
  end.

(** *** A new game *)

Definition virusCount (level : nat) : nat := level * 4 + 4.

(** [while (placed < virusCount)]: a row among the bottom rows (from row
    8) and a column are drawn; an Empty cell receives a virus of a drawn
    colour, an occupied one is drawn again.  [None] when [fuel] draws did
    not place all viruses. *)
Fixpoint placeViruses (fuel : nat) (virusCount placed : nat) (newGrid : Grid)
    (rng : Rng) : option (Grid * Rng) :=
  if bool_decide (placed < virusCount) then
    match fuel with
    | 0 => None
    | S fuel =>
        let '(i, rng) := randomIndex (GRID_ROWS - 8) rng in
        let r := i + 8 in
        let '(c, rng) := randomIndex GRID_COLS rng in
        if isEmpty (blockAt newGrid r c) then
          let '(t, rng) := getRandomColor rng in
          placeViruses fuel virusCount (S placed)
            (setCell newGrid r c {| type := t; isVirus := true |}) rng
        else placeViruses fuel virusCount placed newGrid rng
    end
  else Some (newGrid, rng).

(** [startNewGame] of the basic variant. *)
Definition startNewGame (fuel : nat) (s : Game) (rng : Rng)
    : option (Game * Rng) :=
  match placeViruses fuel (virusCount (level s)) 0 createEmptyGrid rng with
  | None => None
  | Some (newGrid, rng) =>
      let '(c1, rng) := getRandomColor rng in
      let '(c2, rng) := getRandomColor rng in
      Some ({| grid := newGrid;
               activePill :=
                 Some {| pos1 := spawnPosition1; pos2 := spawnPosition2;
                         color1 := c1; color2 := c2;
                         orientation := horizontal |};
               nextPillColors := nextPillColors s;
               score := 0; level := level s; gameOver := false;
               speed := speed s |}, rng)
  end.

(** *** The pill on the board *)

(** The halves are one step apart along the orientation: the second half
    is right of the first when the pill lies flat, above it when it
    stands. *)
Definition pillShape (pill : Pill) : Prop :=
  pos2 pill =
    match orientation pill with
    | horizontal => shift (pos1 pill) 0 1
    | vertical => shift (pos1 pill) (-1) 0
    end.

(** Both halves lie within the bounds on Empty cells of the grid. *)
Definition pillPlaced (g : Grid) (pill : Pill) : Prop :=
  inBounds (pos1 pill) ∧ inBounds (pos2 pill) ∧
  emptyAt g (pos1 pill) ∧ emptyAt g (pos2 pill).

(** The active pill, when there is one, has its shape and its place. *)
Definition pillOk (s : Game) : Prop :=
  ∀ pill, activePill s = Some pill → pillShape pill ∧ pillPlaced (grid s) pill.

End Board.

(** *** Example boards (20 rows, 10 columns) *)

Definition GRID_ROWS : nat := 20.
Definition GRID_COLS : nat := 10.

Definition gridOf (f : nat → nat → Block) : Grid :=
  (λ r, (λ c, f r c) <$> seq 0 GRID_COLS) <$> seq 0 GRID_ROWS.

Definition pillHalf (t : BlockType) : Block := {| type := t; isVirus := false |}.
Definition virus (t : BlockType) : Block := {| type := t; isVirus := true |}.

(** Three red halves on the floor (row 19, columns 0 to 2), a yellow
    virus at (19, 7) and a blue half resting on it. *)
Definition settledGrid : Grid :=
  gridOf (λ r c,
    if bool_decide (r = 19) && bool_decide (c < 3) then pillHalf RED
    else if bool_decide ((r, c) = (19, 7)) then virus YELLOW
    else if bool_decide ((r, c) = (18, 7)) then pillHalf BLUE
    else emptyBlock).

(** A red virus in mid-air at (10, 4), a blue half above it at (5, 4)
    and a yellow half below it at (12, 4). *)
Definition floatingGrid : Grid :=
  gridOf (λ r c,
    if bool_decide ((r, c) = (10, 4)) then virus RED
    else if bool_decide ((r, c) = (5, 4)) then pillHalf BLUE
    else if bool_decide ((r, c) = (12, 4)) then pillHalf YELLOW
    else emptyBlock).

(** A blue half occupying the spawn cell (0, 3). *)
Definition blockedGrid : Grid :=
  gridOf (λ r c, if bool_decide ((r, c) = (0, 3)) then pillHalf BLUE
                 else emptyBlock).

Definition gameWith (g : Grid) : Game :=
  {| grid := g; activePill := None; nextPillColors := Some (RED, BLUE);
     score := 0; level := 1; gameOver := false; speed := GAME_SPEED |}.

(** The pill as it spawns: row 0, columns 3 and 4. *)
Definition spawnedPill : Pill :=
  {| pos1 := spawnPosition1; pos2 := spawnPosition2;
     color1 := RED; color2 := BLUE; orientation := horizontal |}.

(** Red halves along the floor (row 19, columns 0 to 2) and up the left
    wall (rows 17 to 19 of column 0): a row run and a column run that
    share the corner cell. *)
Definition cornerGrid : Grid :=
  gridOf (λ r c,
    if bool_decide (r = 19) && bool_decide (c < 3) then pillHalf RED
    else if bool_decide (17 ≤ r) && bool_decide (c = 0) then pillHalf RED
    else emptyBlock).

(** Two yellow viruses right below the spawn cells, at (1, 3) and
    (1, 4). *)
Definition stackedGrid : Grid :=
  gridOf (λ r c,
    if bool_decide (r = 1) && (bool_decide (c = 3) || bool_decide (c = 4))
    then virus YELLOW else emptyBlock).

(** [stackedGrid] with the pill that has just spawned: it cannot go
    down. *)
Definition stuckGame : Game :=
  {| grid := stackedGrid; activePill := Some spawnedPill;
     nextPillColors := Some (RED, BLUE); score := 0; level := 1;
     gameOver := false; speed := GAME_SPEED |}.

(** A flat pill in mid-air: row 5, columns 3 and 4. *)
Definition midPill : Pill :=
  {| pos1 := posAt 5 3; pos2 := posAt 5 4;
     color1 := RED; color2 := BLUE; orientation := horizontal |}.

(** [settledGrid] with [midPill] falling. *)
Definition fallingGame : Game :=
  setActivePill (Some midPill) (gameWith settledGrid).

(** A game at a given level, before [startNewGame]. *)
Definition gameAtLevel (n : nat) : Game :=
  {| grid := []; activePill := None; nextPillColors := None;
     score := 0; level := n; gameOver := false; speed := GAME_SPEED |}.

(** The generator whose [k]-th raw draw is [k]. *)
Definition countingRng : Rng := λ k, k.

End Pills.

(** * The swap board (refill in place) *)

Module Match3.

Definition BOARD_SIZE : nat := 8.

Definition ALL_PIECES : list string :=
  ["🐶"; "🦴"; "🐾"; "🎾"; "🐕"; "🍖"; "🧸"; "🥣"; "🧶"; "🐈"].

Definition INITIAL_PIECE_COUNT : nat := 5.

(** [SPECIAL_PIECES.BOMB] and [SPECIAL_PIECES.RAINBOW] *)
Definition BOMB : string := "💣".
Definition RAINBOW : string := "🌈".

(** [isSpecial] is an optional field. *)
Record GamePiece := { type : string; isSpecial : option bool }.

#[global] Instance GamePiece_eq_dec : EqDecision GamePiece.
Proof. solve_decision. Defined.

(** What reading past the end of an array yields; no read of the game
    logic leaves a board of [BOARD_SIZE] rows and columns. *)
#[global] Instance GamePiece_inhabited : Inhabited GamePiece :=
  populate {| type := ""; isSpecial := None |}.

Record Position := { row : nat; col : nat }.

Abbreviation Board := (list (list GamePiece)).

Definition pieceAt (b : Board) (r c : nat) : GamePiece := (b !!! r) !!! c.

(** [newBoard[r][c] = p] *)
Definition setPiece (b : Board) (r c : nat) (p : GamePiece) : Board :=
  <[r := <[c := p]> (b !!! r)]> b.

Record Game := {
  board : Board;
  score : nat;
  difficulty : nat;
  explosions : list Position
}.

(** [ALL_PIECES.slice(0, Math.min(INITIAL_PIECE_COUNT + (level - 1),
    ALL_PIECES.length))] *)
Definition getPiecesForLevel (level : nat) : list string :=
  take ((INITIAL_PIECE_COUNT + level - 1) `min` length ALL_PIECES) ALL_PIECES.

(** [{ type: pieces[Math.floor(Math.random() * pieces.length)] }] *)
Definition randomPiece (pieces : list string) (rng : Rng) : GamePiece * Rng :=
  let '(i, rng) := randomIndex (length pieces) rng in
  ({| type := pieces !!! i; isSpecial := None |}, rng).

(** One row of [initializeBoard]: [newBoard[i][j] = ...] for [j] from 0. *)
Definition randomRow (pieces : list string) (rng : Rng) : list GamePiece * Rng :=
  foldl (λ '(r, rng) (_ : nat),
           let '(p, rng) := randomPiece pieces rng in (r ++ [p], rng))
        ([], rng) (seq 0 BOARD_SIZE).

Definition initializeBoard (level : nat) (s : Game) (rng : Rng) : Game * Rng :=
  let pieces := getPiecesForLevel level in
  let '(newBoard, rng) :=
    foldl (λ '(b, rng) (_ : nat),
             let '(r, rng) := randomRow pieces rng in (b ++ [r], rng))
          ([], rng) (seq 0 BOARD_SIZE) in
  ({| board := newBoard;
      score := if bool_decide (level = 1) then 0 else score s;
      difficulty := level;
      explosions := explosions s |}, rng).

Definition createSpecialPiece (difficulty : nat) (length : nat) (rng : Rng)
    : GamePiece * Rng :=
  if bool_decide (4 ≤ length) then
    ({| type := BOMB; isSpecial := Some true |}, rng)
  else if bool_decide (5 ≤ length) then
    ({| type := RAINBOW; isSpecial := Some true |}, rng)
  else randomPiece (getPiecesForLevel difficulty) rng.

(** The two loop nests of [checkMatches] differ only in the axis the
    inner index runs along. *)
Inductive Axis := Rows | Cols.

(** The cell at index [k] of the line [line]. *)
Definition cellOf (axis : Axis) (line k : nat) : Position :=
  match axis with
  | Rows => {| row := line; col := k |}
  | Cols => {| row := k; col := line |}
  end.

Definition pieceOn (b : Board) (axis : Axis) (line k : nat) : GamePiece :=
  pieceAt b (row (cellOf axis line k)) (col (cellOf axis line k)).

Definition setOn (b : Board) (axis : Axis) (line k : nat) (p : GamePiece) : Board :=
  setPiece b (row (cellOf axis line k)) (col (cellOf axis line k)) p.

(** [while (k + matchCount < BOARD_SIZE &&
            newBoard[..][k + matchCount].type === currentType) matchCount++];
    the loop leaves before [fuel = BOARD_SIZE] runs out. *)
Fixpoint extendRun (fuel : nat) (b : Board) (axis : Axis) (line k : nat)
    (currentType : string) (matchCount : nat) : nat :=
  match fuel with
  | 0 => matchCount
  | S fuel =>
      if bool_decide (k + matchCount < BOARD_SIZE) &&
         bool_decide (type (pieceOn b axis line (k + matchCount)) = currentType)
      then extendRun fuel b axis line k currentType (S matchCount)
      else matchCount
  end.

(** The state of one call of [checkMatches]. *)
Record Pass := {
  newBoard : Board;
  points : nat;
  matchFound : bool;
  matchLength : nat;
  exploded : list Position;
  gen : Rng
}.

(** The body of [if (matchCount >= 3)]: explosion, score, the special or
    random piece on the first cell, fresh random pieces on the others. *)
Definition resolveRun (difficulty : nat) (axis : Axis) (line k matchCount : nat)
    (st : Pass) : Pass :=
  let positions := (λ i, cellOf axis line (k + i)) <$> seq 0 matchCount in
  let '(specialPiece, rng) := createSpecialPiece difficulty matchCount (gen st) in
  let b := setOn (newBoard st) axis line k specialPiece in
  let '(b, rng) :=
    foldl (λ '(b, rng) i,
             let '(p, rng) := randomPiece (getPiecesForLevel difficulty) rng in
             (setOn b axis line (k + i) p, rng))
          (b, rng) (seq 1 (matchCount - 1)) in
  {| newBoard := b;
     points := points st + matchCount * 20;
     matchFound := true;
     matchLength := matchCount;
     exploded := positions;
     gen := rng |}.

(** [for (let k = k0; k < BOARD_SIZE - 2; k++)] along one line; a resolved
    run moves [k] past its cells, so [fuel = BOARD_SIZE] steps suffice. *)
Fixpoint scanLine (fuel : nat) (difficulty : nat) (axis : Axis) (line k : nat)
    (st : Pass) : Pass :=
  match fuel with
  | 0 => st
  | S fuel =>
      if bool_decide (k < BOARD_SIZE - 2) then
        let currentType := type (pieceOn (newBoard st) axis line k) in
        let matchCount :=
          extendRun BOARD_SIZE (newBoard st) axis line k currentType 1 in
        if bool_decide (3 ≤ matchCount) then
          let st := resolveRun difficulty axis line k matchCount st in
          scanLine fuel difficulty axis line (k + (matchCount - 1) + 1) st
        else scanLine fuel difficulty axis line (k + 1) st
      else st
  end.

Definition scanAxis (difficulty : nat) (axis : Axis) (st : Pass) : Pass :=
  foldl (λ st line, scanLine BOARD_SIZE difficulty axis line 0 st)
        st (seq 0 BOARD_SIZE).

(** One call of [checkMatches]: rows first, then columns of the board the
    row scan left; the result tells whether a further call is scheduled.
    [newBoard] copies the outer array only, so the source writes into the
    rows of [board] itself; when no match is found nothing was written
    and the board is the one the call started from. *)
Definition checkMatches (s : Game) (rng : Rng) : Game * bool * Rng :=
  let st := {| newBoard := board s; points := 0; matchFound := false;
               matchLength := 0; exploded := explosions s; gen := rng |} in
  let st := scanAxis (difficulty s) Cols (scanAxis (difficulty s) Rows st) in
  ({| board := if matchFound st then newBoard st else board s;
      score := score s + points st;
      difficulty := difficulty s;
      explosions := exploded st |},
   matchFound st, gen st).

(** The calls of [checkMatches] that one action sets off: each call that
    finds a match schedules the next; [None] when [fuel] calls did not
    reach a call without a match. *)
Fixpoint cascade (fuel : nat) (s : Game) (rng : Rng) : option (Game * Rng) :=
  match fuel with
  | 0 => None
  | S fuel =>
      let '(s, found, rng) := checkMatches s rng in
      if found then cascade fuel s rng else Some (s, rng)
  end.

(** [attemptSwap]: exchanges two adjacent cells of the board. *)
Definition isAdjacent (pos1 pos2 : Position) : bool :=
  (bool_decide ((row pos1 - row pos2) + (row pos2 - row pos1) = 1) &&
   bool_decide (col pos1 = col pos2)) ||
  (bool_decide ((col pos1 - col pos2) + (col pos2 - col pos1) = 1) &&
   bool_decide (row pos2 = row pos1)).

Definition attemptSwap (s : Game) (pos1 pos2 : Position) : Game * bool :=
  if isAdjacent pos1 pos2 then
    let temp := pieceAt (board s) (row pos1) (col pos1) in
    let b := setPiece (board s) (row pos1) (col pos1)
               (pieceAt (board s) (row pos2) (col pos2)) in
    let b := setPiece b (row pos2) (col pos2) temp in
    ({| board := b; score := score s; difficulty := difficulty s;
        explosions := explosions s |}, true)
  else (s, false).

(** *** Presses and swipes *)

(** [handlePiecePress]: the first press selects a piece; the second swaps
    it with the pressed piece when the two are adjacent, and otherwise
    moves the selection, or drops it when the selected piece itself was
    pressed. *)
Definition handlePiecePress (s : Game) (selectedPiece : option Position)
    (r c : nat) : Game * option Position :=
  match selectedPiece with
  | None => (s, Some {| row := r; col := c |})
  | Some sel =>
      let '(s, swapped) := attemptSwap s sel {| row := r; col := c |} in
      if swapped then (s, None)
      else if bool_decide (row sel ≠ r ∨ col sel ≠ c)
           then (s, Some {| row := r; col := c |})
           else (s, None)
  end.

Inductive Direction := LEFT | RIGHT | UP | DOWN.

(** The cell a swipe points at, when it lies on the board:
    [targetRow >= 0 && targetRow < BOARD_SIZE && targetCol >= 0 &&
     targetCol < BOARD_SIZE]. *)
Definition swipeTarget (r c : nat) (direction : Direction) : option Position :=
  let targetRow :=
    (Z.of_nat r + match direction with UP => -1 | DOWN => 1 | _ => 0 end)%Z in
  let targetCol :=
    (Z.of_nat c + match direction with LEFT => -1 | RIGHT => 1 | _ => 0 end)%Z in
  if bool_decide (0 ≤ targetRow)%Z &&
     bool_decide (targetRow < Z.of_nat BOARD_SIZE)%Z &&
     bool_decide (0 ≤ targetCol)%Z &&
     bool_decide (targetCol < Z.of_nat BOARD_SIZE)%Z
  then Some {| row := Z.to_nat targetRow; col := Z.to_nat targetCol |}
  else None.

(** [handleSwipe] *)
Definition handleSwipe (s : Game) (r c : nat) (direction : Direction) : Game :=
  match swipeTarget r c direction with
  | Some target => (attemptSwap s {| row := r; col := c |} target).1
  | None => s
  end.

(** *** Boards *)

(** Every symbol a cell can show. *)
Definition symbols : list string := ALL_PIECES ++ [BOMB; RAINBOW].

(** The board has [BOARD_SIZE] rows of [BOARD_SIZE] cells and every cell
    holds one of the symbols. *)
Definition full (b : Board) : Prop :=
  length b = BOARD_SIZE ∧
  Forall (λ r, length r = BOARD_SIZE ∧ Forall (λ p, type p ∈ symbols) r) b.

Definition piece (t : string) : GamePiece := {| type := t; isSpecial := None |}.

(** *** Runs on the swap board *)

Definition typeOn (b : Board) (axis : Axis) (line k : nat) : string :=
  type (pieceOn b axis line k).

(** The cells [k], [k+1], [k+2] of a line show one symbol. *)
Definition tripleAt (b : Board) (axis : Axis) (line k : nat) : bool :=
  bool_decide (typeOn b axis line (k + 1) = typeOn b axis line k) &&
  bool_decide (typeOn b axis line (k + 2) = typeOn b axis line k).

Definition lines : list nat := seq 0 BOARD_SIZE.
Definition starts : list nat := seq 0 (BOARD_SIZE - 2).

(** No three consecutive cells of a line along [axis] show one symbol. *)
Definition quiet (b : Board) (axis : Axis) : bool :=
  forallb (λ l, forallb (λ k, negb (tripleAt b axis l k)) starts) lines.

(** The cells [c .. c+len-1] of [line] show one symbol, and every triple
    along [axis] lies within them. *)
Definition soleRun (b : Board) (axis : Axis) (line c len : nat) : bool :=
  bool_decide (3 ≤ len) && bool_decide (c + len ≤ BOARD_SIZE) &&
  bool_decide (line < BOARD_SIZE) &&
  forallb (λ i, bool_decide (typeOn b axis line (c + i) = typeOn b axis line c))
          (seq 0 len) &&
  forallb (λ l, forallb (λ k,
             negb (tripleAt b axis l k) ||
             (bool_decide (l = line) && bool_decide (c ≤ k) &&
              bool_decide (k + 2 < c + len))) starts) lines.

(** Whatever symbols the cells [c .. c+len-1] of row [r] receive, column
    [c'] gets no triple at rows [k .. k+2]: a triple that avoids the row
    is not one now, and the two other cells of a triple that meets the
    row differ. *)
Definition refillSafe (b : Board) (r c len c' k : nat) : bool :=
  if bool_decide (c ≤ c' < c + len) && bool_decide (k ≤ r ≤ k + 2) then
    if bool_decide (r = k) then
      negb (bool_decide (typeOn b Cols c' (k + 1) = typeOn b Cols c' (k + 2)))
    else if bool_decide (r = k + 1) then
      negb (bool_decide (typeOn b Cols c' k = typeOn b Cols c' (k + 2)))
    else
      negb (bool_decide (typeOn b Cols c' k = typeOn b Cols c' (k + 1)))
  else negb (tripleAt b Cols c' k).

(** A single isolated run: the only run of its axis, with nothing for
    the same call to find on the other axis.  The rows are scanned first
    and refilled in place, so a row run asks that no refill can complete
    a column; a column run asks that the rows hold no run. *)
Definition isolatedRun (b : Board) (axis : Axis) (line c len : nat) : bool :=
  soleRun b axis line c len &&
  match axis with
  | Rows => forallb (λ c', forallb (refillSafe b line c len c') starts) lines
  | Cols => quiet b Rows
  end.

(** *** Example boards *)

(** A board without runs: cell [(r, c)] shows symbol [2r + c] modulo 5 of
    the first level's palette. *)
Definition patternPiece (r c : nat) : GamePiece :=
  piece (getPiecesForLevel 1 !!! ((2 * r + c) `mod` 5)).

Definition boardOf (f : nat → nat → GamePiece) : Board :=
  (λ r, (λ c, f r c) <$> seq 0 BOARD_SIZE) <$> seq 0 BOARD_SIZE.

(** The pattern with a run of [len] dogs in row [r0] from column 0. *)
Definition boardWithRun (r0 len : nat) : Board :=
  boardOf (λ r c, if bool_decide (r = r0) && bool_decide (c < len)
                  then piece "🐶" else patternPiece r c).

(** One horizontal run of five at row 2, columns 0 to 4. *)
Definition runOfFive : Board := boardWithRun 2 5.

(** One horizontal run of three at row 0, columns 0 to 2. *)
Definition runOfThree : Board := boardWithRun 0 3.


(** The component's first state: [useState([])], [useState(0)],
    [useState(1)], [useState([])]. *)
Definition initialGame : Game :=
  {| board := []; score := 0; difficulty := 1; explosions := [] |}.


Definition gameOn (b : Board) (sc : nat) (ex : list Position) : Game :=
  {| board := b; score := sc; difficulty := 1; explosions := ex |}.

End Match3.

(** * The pair-matching board *)

Module Mahjong.

Open Scope Z_scope.

Definition TILE_WIDTH : Z := 40.
Definition TILE_HEIGHT : Z := 50.

(** [z] is the layer index. *)
Record Tile := {
  id : string;
  type : string;
  x : Z;
  y : Z;
  z : Z;
  isVisible : bool
}.

(** The predicates handed to [tiles.find] by [isTileFree]. *)
Definition covers (tile t : Tile) : bool :=
  isVisible t &&
  bool_decide (z t = z tile + 1) &&
  bool_decide (Z.abs (x t - x tile) < TILE_WIDTH) &&
  bool_decide (Z.abs (y t - y tile) < TILE_HEIGHT).

Definition isLeftNeighbor (tile t : Tile) : bool :=
  isVisible t &&
  bool_decide (z t = z tile) &&
  bool_decide (id t ≠ id tile) &&
  bool_decide (Z.abs (y t - y tile) < TILE_HEIGHT / 2) &&
  bool_decide (x t < x tile) &&
  bool_decide (x tile - x t < TILE_WIDTH + 5).

Definition isRightNeighbor (tile t : Tile) : bool :=
  isVisible t &&
  bool_decide (z t = z tile) &&
  bool_decide (id t ≠ id tile) &&
  bool_decide (Z.abs (y t - y tile) < TILE_HEIGHT / 2) &&
  bool_decide (x t > x tile) &&
  bool_decide (x t - x tile < TILE_WIDTH + 5).

Definition isTileFree (tiles : list Tile) (tile : Tile) : bool :=
  let coveringTile := find (covers tile) tiles in
  if bool_decide (is_Some coveringTile) then false else
  let leftNeighbor := find (isLeftNeighbor tile) tiles in
  let rightNeighbor := find (isRightNeighbor tile) tiles in
  negb (bool_decide (is_Some leftNeighbor)) ||
  negb (bool_decide (is_Some rightNeighbor)).

(** *** The rule as the specification words it *)

(** Another visible tile on a strictly higher layer whose footprint
    overlaps: both offsets under the tile's width and height. *)
Definition coveredFromAbove (tiles : list Tile) (tile : Tile) : Prop :=
  ∃ t, t ∈ tiles ∧ id t ≠ id tile ∧ isVisible t = true ∧ z tile < z t ∧
       Z.abs (x t - x tile) < TILE_WIDTH ∧ Z.abs (y t - y tile) < TILE_HEIGHT.

(** Another visible tile of the same layer and row band that is adjacent
    within one tile width on the given side ([side] is -1 for left, 1
    for right): it lies on that side, and the gap between the facing
    edges of the two tiles, each [TILE_WIDTH] wide, is at most one tile
    width. *)
Definition adjacentWithinWidth (tiles : list Tile) (tile : Tile) (side : Z) : Prop :=
  ∃ t, t ∈ tiles ∧ id t ≠ id tile ∧ isVisible t = true ∧ z t = z tile ∧
       Z.abs (y t - y tile) < TILE_HEIGHT / 2 ∧
       0 < side * (x t - x tile) ∧
       side * (x t - x tile) - TILE_WIDTH ≤ TILE_WIDTH.

Definition selectableAsSpecified (tiles : list Tile) (tile : Tile) : Prop :=
  ¬ coveredFromAbove tiles tile ∧
  (¬ adjacentWithinWidth tiles tile (-1) ∨ ¬ adjacentWithinWidth tiles tile 1).

(** *** The rule the code implements *)

(** A visible tile on the layer directly above with overlapping
    footprint. *)
Definition coveredByNextLayer (tiles : list Tile) (tile : Tile) : Prop :=
  ∃ t, t ∈ tiles ∧ isVisible t = true ∧ z t = z tile + 1 ∧
       Z.abs (x t - x tile) < TILE_WIDTH ∧ Z.abs (y t - y tile) < TILE_HEIGHT.

(** Another visible tile of the same layer and row band less than a tile
    width plus five away on the given side. *)
Definition blockedOn (tiles : list Tile) (tile : Tile) (side : Z) : Prop :=
  ∃ t, t ∈ tiles ∧ id t ≠ id tile ∧ isVisible t = true ∧ z t = z tile ∧
       Z.abs (y t - y tile) < TILE_HEIGHT / 2 ∧
       0 < side * (x t - x tile) < TILE_WIDTH + 5.

(** *** Example layouts *)

Definition tileAt (name : string) (px py pz : Z) : Tile :=
  {| id := name; type := "🀄"; x := px; y := py; z := pz; isVisible := true |}.

(** *** A new game and the presses *)

(** Component state. *)
Record Game := {
  tiles : list Tile;
  selectedTileId : option string;
  score : nat
}.

(** The tiles [startNewGame] lays out, given the shuffled list of types
    it deals from ([availableTypes[typeIndex++]]): six rows of four on
    layer 0, four rows of two on layer 1. *)
Definition layer0 (availableTypes : list string) : list Tile :=
  row ← seq 0 6;
  (λ col, {| id := "l0-" +:+ pretty row +:+ "-" +:+ pretty col;
             type := availableTypes !!! (row * 4 + col)%nat;
             x := Z.of_nat col * (TILE_WIDTH + 2) + 50;
             y := Z.of_nat row * (TILE_HEIGHT + 2) + 50;
             z := 0;
             isVisible := true |}) <$> seq 0 4.

Definition layer1 (availableTypes : list string) : list Tile :=
  row ← seq 0 4;
  (λ col, {| id := "l1-" +:+ pretty row +:+ "-" +:+ pretty col;
             type := availableTypes !!! (24 + (row * 2 + col))%nat;
             x := (Z.of_nat col + 1) * (TILE_WIDTH + 2) + 50;
             y := (Z.of_nat row + 1) * (TILE_HEIGHT + 2) + 40;
             z := 1;
             isVisible := true |}) <$> seq 0 2.

Definition startNewGame (availableTypes : list string) : Game :=
  {| tiles := layer0 availableTypes ++ layer1 availableTypes;
     selectedTileId := None;
     score := 0 |}.

(** [{ ...t, isVisible: false }] *)
Definition hide (t : Tile) : Tile :=
  {| id := id t; type := type t; x := x t; y := y t; z := z t;
     isVisible := false |}.

(** [!selectedTileId]: [null] and the empty string are falsy. *)
Definition noSelection (sel : option string) : bool :=
  match sel with
  | None => true
  | Some i => bool_decide (i = EmptyString)
  end.

Definition setSelectedTileId (sel : option string) (s : Game) : Game :=
  {| tiles := tiles s; selectedTileId := sel; score := score s |}.

(** [handleTilePress]; the victory alert is presentation. *)
Definition handleTilePress (s : Game) (tile : Tile) : Game :=
  if negb (isTileFree (tiles s) tile) then s
  else if bool_decide (selectedTileId s = Some (id tile))
  then setSelectedTileId None s
  else if noSelection (selectedTileId s)
  then setSelectedTileId (Some (id tile)) s
  else
    let selectedTile :=
      find (λ t, bool_decide (Some (id t) = selectedTileId s)) (tiles s) in
    match selectedTile with
    | Some st =>
        if bool_decide (type st = type tile) then
          {| tiles :=
               (λ t, if bool_decide (id t = id tile) ||
                        bool_decide (Some (id t) = selectedTileId s)
                     then hide t else t) <$> tiles s;
             selectedTileId := None;
             score := (score s + 100)%nat |}
        else setSelectedTileId (Some (id tile)) s
    | None => setSelectedTileId (Some (id tile)) s
    end.

(** What a press may do to a tile: nothing, or take it off show. *)
Definition dimmed (t t' : Tile) : Prop :=
  id t' = id t ∧ type t' = type t ∧ x t' = x t ∧ y t' = y t ∧ z t' = z t ∧
  (isVisible t' = true → isVisible t = true).

(** [newTiles.every(t => !t.isVisible)] *)
Definition cleared (s : Game) : bool :=
  forallb (λ t, negb (isVisible t)) (tiles s).

(** The number of tiles on show. *)
Definition visibleCount (l : list Tile) : nat :=
  sum_list_with (λ t, if isVisible t then 1%nat else 0%nat) l.

(** The ids tell the tiles apart and the selection, when there is one,
    names a tile on show. *)
Definition consistent (s : Game) : Prop :=
  NoDup (id <$> tiles s) ∧
  ∀ i, selectedTileId s = Some i →
       ∃ t, t ∈ tiles s ∧ id t = i ∧ isVisible t = true.

(** The states of a game: a new game, then presses of tiles on show
    (only those are rendered). *)
Inductive played (availableTypes : list string) : Game → Prop :=
  | played_new : played availableTypes (startNewGame availableTypes)
  | played_press s tile :
      played availableTypes s → tile ∈ tiles s → isVisible tile = true →
      played availableTypes (handleTilePress s tile).

(** A deal in which all sixteen pairs drew the same type. *)
Definition oneTypeDeal : list string := replicate 32 "🀄".

(** The first tile of layer 0 as a new game lays it out. *)
Definition cornerTile : Tile := tileAt "l0-0-0" 50 50 0.

Close Scope Z_scope.

End Mahjong.

(** * The leaderboard store *)

Module Leaderboard.

Open Scope Z_scope.

Record LeaderboardEntry := {
  id : Z;
  name : string;
  score : Z;
  date : string
}.

(** [leaderboard.sort((a, b) => b.score - a.score)]: the sort is stable,
    so the result is the one arrangement by falling score in which
    entries of equal score keep their order; an entry is placed before
    the first later one that scores no more. *)
Fixpoint placeByScore (e : LeaderboardEntry) (l : list LeaderboardEntry)
    : list LeaderboardEntry :=
  match l with
  | [] => [e]
  | y :: l' => if bool_decide (score y ≤ score e) then e :: y :: l'
               else y :: placeByScore e l'
  end.

Definition sortByScore (l : list LeaderboardEntry) : list LeaderboardEntry :=
  foldr placeByScore [] l.

(** [saveScore]: the stored leaderboard with the new entry pushed,
    sorted, and cut to the first ten; the result is what is stored.
    [now] and [iso] are the clock readings [Date.now()] and
    [new Date().toISOString()]. *)
Definition saveScore (now : Z) (iso : string) (name : string) (score : Z)
    (stored : list LeaderboardEntry) : list LeaderboardEntry :=
  let leaderboard :=
    stored ++ [{| id := now; name := name; score := score; date := iso |}] in
  take 10 (sortByScore leaderboard).

(** By falling score. *)
Definition falling (a b : LeaderboardEntry) : Prop := score b ≤ score a.

(** The stored entries that score at least [sc]. *)
Definition atLeast (sc : Z) (l : list LeaderboardEntry) : nat :=
  length (filter (λ e, sc ≤ score e) l).

(** *** Example *)

Definition entry (n : string) (sc : Z) : LeaderboardEntry :=
  {| id := 0; name := n; score := sc; date := "2024-01-01T00:00:00.000Z" |}.

Definition twoScores : list LeaderboardEntry := [entry "ana" 300; entry "luis" 120].

Close Scope Z_scope.

End Leaderboard.

(** * Facts about the falling-capsule game *)

Module PillsFacts.
Import Pills.

Section Board.

Context (GRID_ROWS GRID_COLS : nat).

Local Abbreviation wf := (wf GRID_ROWS GRID_COLS).
Local Abbreviation isValidPos := (isValidPos GRID_ROWS GRID_COLS).
Local Abbreviation canMove := (canMove GRID_ROWS GRID_COLS).
Local Abbreviation gravityPass := (gravityPass GRID_ROWS GRID_COLS).
Local Abbreviation gravityPasses := (gravityPasses GRID_ROWS GRID_COLS).
Local Abbreviation findMatches := (findMatches GRID_ROWS GRID_COLS).
Local Abbreviation occupied := (occupied GRID_ROWS GRID_COLS).
Local Abbreviation fallRoom := (fallRoom GRID_ROWS GRID_COLS).
Local Abbreviation checkMatches := (checkMatches GRID_ROWS GRID_COLS).
Local Abbreviation applyGravity := (applyGravity GRID_ROWS GRID_COLS).
Local Abbreviation cascadeFuel := (cascadeFuel GRID_ROWS GRID_COLS).
Local Abbreviation pillPlaced := (pillPlaced GRID_ROWS GRID_COLS).
Local Abbreviation pillOk := (pillOk GRID_ROWS GRID_COLS).
Local Abbreviation left := (left GRID_ROWS GRID_COLS).
Local Abbreviation right := (right GRID_ROWS GRID_COLS).
Local Abbreviation rotate := (rotate GRID_ROWS GRID_COLS).
Local Abbreviation gameStep := (gameStep GRID_ROWS GRID_COLS).
Local Abbreviation startNewGame := (startNewGame GRID_ROWS GRID_COLS).
Local Abbreviation placeViruses := (placeViruses GRID_ROWS GRID_COLS).
Local Abbreviation tick := (tick GRID_ROWS GRID_COLS).

(** ** Reading and writing cells *)

Lemma wf_row (g : Grid) r :
  wf g → r < GRID_ROWS → length (g !!! r) = GRID_COLS.
Proof.
  intros [Hl Hall] Hr.
  rewrite Forall_lookup in Hall. apply (Hall r).
  apply list_lookup_lookup_total_lt. lia.
Qed.

Lemma wf_setCell (g : Grid) r c b : wf g → wf (setCell g r c b).
Proof.
  intros Hwf. pose proof Hwf as [Hl Hall]. unfold setCell. split.
  - by rewrite length_insert.
  - destruct (decide (r < GRID_ROWS)) as [Hr|Hr].
    + apply Forall_insert; [done|]. rewrite length_insert. by apply wf_row.
    + rewrite list_insert_ge; [done|lia].
Qed.

Lemma blockAt_setCell_eq (g : Grid) r c b :
  wf g → r < GRID_ROWS → c < GRID_COLS → blockAt (setCell g r c b) r c = b.
Proof.
  intros Hwf Hr Hc. unfold blockAt, setCell.
  rewrite list_lookup_total_insert_eq; [|destruct Hwf; lia].
  rewrite list_lookup_total_insert_eq; [done|]. rewrite wf_row; auto.
Qed.

Lemma blockAt_setCell_ne (g : Grid) r c b r' c' :
  (r', c') ≠ (r, c) → blockAt (setCell g r c b) r' c' = blockAt g r' c'.
Proof.
  intros Hne. unfold blockAt, setCell.
  destruct (decide (r' = r)) as [->|Hr].
  - destruct (decide (r < length g)) as [Hlt|Hge].
    + rewrite list_lookup_total_insert_eq; [|done].
      rewrite list_lookup_total_insert_ne; [done|]. congruence.
    + rewrite list_insert_ge; [done|lia].
  - rewrite list_lookup_total_insert_ne; [done|]. congruence.
Qed.

Lemma wf_createEmptyGrid : wf (createEmptyGrid GRID_ROWS GRID_COLS).
Proof.
  split; unfold createEmptyGrid.
  - by rewrite length_replicate.
  - apply Forall_replicate. by rewrite length_replicate.
Qed.

Lemma isValidPos_spec p :
  isValidPos p = true ↔
  (0 ≤ row p < Z.of_nat GRID_ROWS)%Z ∧ (0 ≤ col p < Z.of_nat GRID_COLS)%Z.
Proof. unfold Pills.isValidPos. rewrite !andb_true_iff. lia. Qed.

Lemma isEmpty_spec b : isEmpty b = true ↔ type b = EMPTY.
Proof. unfold isEmpty. by rewrite bool_decide_eq_true. Qed.

Lemma isEmpty_false b : isEmpty b = false ↔ type b ≠ EMPTY.
Proof. unfold isEmpty. by rewrite bool_decide_eq_false. Qed.

Lemma cellAt_blockAtPos (g : Grid) p :
  wf g → isValidPos p = true → cellAt g p = Some (blockAtPos g p).
Proof.
  intros Hwf Hv. apply isValidPos_spec in Hv as [Hr Hc].
  unfold cellAt, blockAtPos, blockAt.
  rewrite !bool_decide_eq_true_2 by lia. simpl.
  assert (Z.to_nat (row p) < GRID_ROWS) as Hr' by lia.
  assert (Z.to_nat (col p) < GRID_COLS) as Hc' by lia.
  rewrite (list_lookup_lookup_total_lt g) by (destruct Hwf; lia). simpl.
  apply list_lookup_lookup_total_lt. rewrite wf_row; auto.
Qed.

Lemma cellAt_valid (g : Grid) p b :
  wf g → cellAt g p = Some b → isValidPos p = true.
Proof.
  intros Hwf. unfold cellAt.
  destruct (bool_decide (0 ≤ row p)%Z) eqn:Hr; [|done].
  destruct (bool_decide (0 ≤ col p)%Z) eqn:Hc; [|done]. simpl.
  apply bool_decide_eq_true in Hr, Hc.
  destruct (g !! Z.to_nat (row p)) as [rw|] eqn:Hrow; [|done]. simpl.
  intros Hcol. apply lookup_lt_Some in Hcol.
  pose proof (lookup_lt_Some _ _ _ Hrow) as Hlt.
  destruct Hwf as [Hl Hall]. rewrite Forall_lookup in Hall.
  rewrite (Hall _ _ Hrow) in Hcol.
  apply isValidPos_spec. lia.
Qed.

(** ** Moving the pill *)

(** C7. [canMove] answers true exactly when both cells of the pill, moved
    by the delta, lie within the grid bounds and the grid holds an Empty
    cell at both target positions. *)
Theorem canMove_iff (g : Grid) (pill : Pill) (dRow dCol : Z) :
  wf g →
  canMove g pill dRow dCol = true ↔
  inBounds GRID_ROWS GRID_COLS (shift (pos1 pill) dRow dCol) ∧
  inBounds GRID_ROWS GRID_COLS (shift (pos2 pill) dRow dCol) ∧
  emptyAt g (shift (pos1 pill) dRow dCol) ∧
  emptyAt g (shift (pos2 pill) dRow dCol).
Proof.
  intros Hwf. unfold Pills.canMove, inBounds, emptyAt.
  rewrite <-!isValidPos_spec.
  destruct (isValidPos (shift (pos1 pill) dRow dCol)) eqn:H1; simpl;
    [|split; [done|]; intros (? & _); done].
  destruct (isValidPos (shift (pos2 pill) dRow dCol)) eqn:H2; simpl;
    [|split; [done|]; intros (_ & ? & _); done].
  rewrite !cellAt_blockAtPos by done.
  destruct (isEmpty (blockAtPos g (shift (pos1 pill) dRow dCol))) eqn:E1; simpl.
  - destruct (isEmpty (blockAtPos g (shift (pos2 pill) dRow dCol))) eqn:E2; simpl.
    + apply isEmpty_spec in E1, E2. split; [|done]. intros _. eauto 10.
    + apply isEmpty_false in E2. split; [done|].
      intros (_ & _ & _ & b2 & [= <-] & ?). done.
  - apply isEmpty_false in E1. split; [done|].
    intros (_ & _ & (b1 & [= <-] & ?) & _). done.
Qed.

(** ** Spawning *)

Lemma setGameOver_id s : gameOver s = true → setGameOver true s = s.
Proof. destruct s; simpl; intros ->; done. Qed.

Lemma spawnBlocked_occupied (g : Grid) b :
  (cellAt g spawnPosition1 = Some b ∨ cellAt g spawnPosition2 = Some b) →
  type b ≠ EMPTY →
  spawnBlocked g = true ∧ length g ≠ 0.
Proof.
  intros Hc Hb. unfold spawnBlocked, cellAt, blockAt in *. simpl in Hc.
  destruct g as [|r0 g]; [by destruct Hc|]. split; [|done].
  simpl in *. apply orb_true_iff.
  destruct Hc as [Hc|Hc]; [left|right];
    apply negb_true_iff, isEmpty_false;
    erewrite list_lookup_total_correct by exact Hc; done.
Qed.

(** When a spawn cell, (0,3) or (0,4), of the grid its closure holds is
    occupied, [spawnPill] only raises the game-over flag: no pill becomes
    active and the grid and the score stay as they were.  The variant
    with the next-pill preview does so once its preview is filled. *)
Lemma spawnPill_blocked (render s : Game) (rng : Rng) (b : Block) :
  (cellAt (grid render) spawnPosition1 = Some b ∨
   cellAt (grid render) spawnPosition2 = Some b) →
  type b ≠ EMPTY → gameOver render = false →
  (spawnPill render s rng).1 = setGameOver true s ∧
  (nextPillColors render ≠ None →
   (Preview.spawnPill render s rng).1 = setGameOver true s).
Proof.
  intros Hc Hb Hgo.
  destruct (spawnBlocked_occupied _ _ Hc Hb) as [Hblk Hlen].
  split.
  - unfold spawnPill.
    rewrite bool_decide_eq_false_2 by done. rewrite Hgo. simpl.
    unfold getRandomColor, randomIndex. simpl. by rewrite Hblk.
  - intros Hnext. unfold Preview.spawnPill.
    rewrite bool_decide_eq_false_2 by done. rewrite Hgo. simpl.
    destruct (nextPillColors render) as [[c1 c2]|]; [|done].
    by rewrite Hblk.
Qed.

(** ** Gravity *)

Lemma gravityPass_ind (P : Grid → bool → Prop) (g : Grid) :
  (∀ g' m r c, P g' m → r + 1 < GRID_ROWS → c < GRID_COLS →
     P (gravityCell c (g', m) r).1 (gravityCell c (g', m) r).2) →
  P g false →
  P (gravityPass g).1 (gravityPass g).2.
Proof.
  intros Hstep H0. unfold Pills.gravityPass.
  assert (∀ c k st, P st.1 st.2 → k ≤ GRID_ROWS - 1 → c < GRID_COLS →
            P (gravityColumn c k st).1 (gravityColumn c k st).2) as Hcol.
  { intros c k. induction k as [|k IH]; intros [g' m] HP Hk Hc; [done|].
    simpl gravityColumn. apply IH; [|lia|done].
    apply Hstep; [done|lia|done]. }
  assert (∀ n a st, P st.1 st.2 → a + n ≤ GRID_COLS →
            P (foldl (λ st c, gravityColumn c (GRID_ROWS - 1) st) st (seq a n)).1
              (foldl (λ st c, gravityColumn c (GRID_ROWS - 1) st) st (seq a n)).2)
    as Hfold.
  { induction n as [|n IH]; intros a st HP Ha; [done|].
    simpl. apply IH; [|lia]. apply Hcol; [done|lia|lia]. }
  apply Hfold; [done|lia].
Qed.

Lemma gravityCell_wf g m r c : wf g → wf (gravityCell c (g, m) r).1.
Proof.
  intros Hwf. unfold gravityCell. destruct (canFall g r c); [|done].
  simpl. by do 2 apply wf_setCell.
Qed.

Lemma gravityPass_wf g : wf g → wf (gravityPass g).1.
Proof.
  intros Hwf. apply (gravityPass_ind (λ g' _, wf g')); [|done].
  intros. by apply gravityCell_wf.
Qed.

Lemma canFall_spec g r c :
  canFall g r c = true ↔
  type (blockAt g r c) ≠ EMPTY ∧ isVirus (blockAt g r c) = false ∧
  type (blockAt g (r + 1) c) = EMPTY.
Proof.
  unfold canFall. rewrite !andb_true_iff, !negb_true_iff.
  rewrite isEmpty_false, isEmpty_spec. tauto.
Qed.

(** What one step of the inner loop does to the cell [(r0, c0)]. *)
Lemma gravityCell_blockAt g m r c r0 c0 :
  wf g → r + 1 < GRID_ROWS → c < GRID_COLS →
  blockAt (gravityCell c (g, m) r).1 r0 c0 =
    if canFall g r c then
      if bool_decide ((r0, c0) = (r, c)) then emptyBlock
      else if bool_decide ((r0, c0) = (r + 1, c)) then blockAt g r c
      else blockAt g r0 c0
    else blockAt g r0 c0.
Proof.
  intros Hwf Hr Hc. unfold gravityCell.
  destruct (canFall g r c); [|done]. simpl.
  case_bool_decide as H1.
  - injection H1 as -> ->. rewrite blockAt_setCell_eq; [done| |lia|done].
    by apply wf_setCell.
  - rewrite blockAt_setCell_ne by done.
    case_bool_decide as H2.
    + injection H2 as -> ->. by rewrite blockAt_setCell_eq.
    + by rewrite blockAt_setCell_ne.
Qed.

Lemma gravityCell_virus g m r c r0 c0 b :
  wf g → r + 1 < GRID_ROWS → c < GRID_COLS →
  isVirus b = true → type b ≠ EMPTY →
  blockAt (gravityCell c (g, m) r).1 r0 c0 = b ↔ blockAt g r0 c0 = b.
Proof.
  intros Hwf Hr Hc Hv Hb. rewrite gravityCell_blockAt by done.
  destruct (canFall g r c) eqn:Hf; [|done].
  apply canFall_spec in Hf as (Hne & Hnv & Hbelow).
  case_bool_decide as H1.
  - injection H1 as -> ->. split; intros <-; [done|congruence].
  - case_bool_decide as H2; [|done].
    injection H2 as -> ->. split; intros <-; congruence.
Qed.

Lemma gravityPass_virus g r0 c0 b :
  wf g → isVirus b = true → type b ≠ EMPTY →
  blockAt (gravityPass g).1 r0 c0 = b ↔ blockAt g r0 c0 = b.
Proof.
  intros Hwf Hv Hb.
  apply (gravityPass_ind
           (λ g' _, wf g' ∧ (blockAt g' r0 c0 = b ↔ blockAt g r0 c0 = b)));
    [|done].
  intros g' m r c [Hwf' Hiff] Hr Hc. split; [by apply gravityCell_wf|].
  rewrite <-Hiff. by apply gravityCell_virus.
Qed.

Lemma gravityPasses_wf n g : wf g → wf (gravityPasses n g).
Proof.
  intros Hwf. induction n as [|n IH]; [done|].
  simpl. by apply gravityPass_wf.
Qed.

(** C6. Gravity leaves the viruses alone: after any number of passes a
    cell holds a given virus exactly when it held that virus before, so
    no virus is moved, overwritten or cleared and nothing a pass writes
    is a virus. *)
Theorem gravity_keeps_viruses (g : Grid) (n r c : nat) (b : Block) :
  wf g → isVirus b = true → type b ≠ EMPTY →
  blockAt (gravityPasses n g) r c = b ↔ blockAt g r c = b.
Proof.
  intros Hwf Hv Hb. induction n as [|n IH]; [done|].
  simpl. rewrite <-IH.
  apply gravityPass_virus; [|done|done]. by apply gravityPasses_wf.
Qed.

Lemma gravityColumn_moved c k g : (gravityColumn c k (g, true)).2 = true.
Proof.
  revert g. induction k as [|k IH]; intros g; [done|].
  simpl. unfold gravityCell. destruct (canFall g k c); apply IH.
Qed.

Lemma gravityColumns_moved n a g :
  (foldl (λ st c, gravityColumn c (GRID_ROWS - 1) st) (g, true) (seq a n)).2
  = true.
Proof.
  revert a g. induction n as [|n IH]; intros a g; [done|].
  simpl. pose proof (gravityColumn_moved a (GRID_ROWS - 1) g) as Hm.
  destruct (gravityColumn a (GRID_ROWS - 1) (g, true)) as [g1 m1].
  simpl in Hm. subst. apply IH.
Qed.

Lemma gravityColumn_settled c k g m :
  (gravityColumn c k (g, m)).2 = false →
  gravityColumn c k (g, m) = (g, false) ∧ ∀ r, r < k → canFall g r c = false.
Proof.
  revert g m. induction k as [|k IH]; intros g m Hk.
  - simpl in *. subst. split; [done|lia].
  - simpl in Hk |- *. unfold gravityCell in Hk |- *.
    destruct (canFall g k c) eqn:Hf.
    + by rewrite gravityColumn_moved in Hk.
    + apply IH in Hk as [Hk Hr]. split; [done|].
      intros r Hlt. destruct (decide (r = k)) as [->|]; [done|].
      apply Hr. lia.
Qed.

Lemma gravityPass_settled g :
  (gravityPass g).2 = false →
  (gravityPass g).1 = g ∧
  ∀ r c, r + 1 < GRID_ROWS → c < GRID_COLS → canFall g r c = false.
Proof.
  unfold Pills.gravityPass.
  assert (∀ n a m,
    (foldl (λ st c, gravityColumn c (GRID_ROWS - 1) st) (g, m) (seq a n)).2
      = false →
    (foldl (λ st c, gravityColumn c (GRID_ROWS - 1) st) (g, m) (seq a n)).1 = g
    ∧ ∀ r c, r + 1 < GRID_ROWS → a ≤ c < a + n → canFall g r c = false)
    as Hfold.
  { induction n as [|n IH]; intros a m H; [split; [done|lia]|].
    simpl in H |- *.
    destruct (gravityColumn a (GRID_ROWS - 1) (g, m)) as [g1 m1] eqn:Hcol.
    destruct m1.
    - by rewrite gravityColumns_moved in H.
    - pose proof (gravityColumn_settled a (GRID_ROWS - 1) g m) as Hs.
      rewrite Hcol in Hs. destruct (Hs eq_refl) as [[= ->] Hr].
      apply IH in H as [H1 H2]. split; [done|].
      intros r c Hlt Hc. destruct (decide (c = a)) as [->|].
      + apply Hr. lia.
      + apply H2; [done|lia]. }
  intros H. apply Hfold in H as [H1 H2]. split; [done|].
  intros r c Hr Hc. apply H2; [done|lia].
Qed.

(** C5. Once a full pass of [applyGravity] moves nothing, the grid is the
    pass's fixed point and no occupied non-virus cell has an Empty cell
    directly below it. *)
Theorem gravity_settled (g : Grid) (r c : nat) :
  wf g →
  (gravityPass g).2 = false →
  r + 1 < GRID_ROWS → c < GRID_COLS →
  type (blockAt g r c) ≠ EMPTY → isVirus (blockAt g r c) = false →
  (gravityPass g).1 = g ∧ type (blockAt g (r + 1) c) ≠ EMPTY.
Proof.
  intros _ Hs Hr Hc Hocc Hnv.
  apply gravityPass_settled in Hs as [Hfix Hno]. split; [done|].
  specialize (Hno r c Hr Hc). intros Hbelow.
  assert (canFall g r c = true) by (apply canFall_spec; done).
  congruence.
Qed.

(** ** Viruses have a colour *)

Lemma blockAt_setCell_cases (g : Grid) r c b r' c' :
  blockAt (setCell g r c b) r' c' = b ∨
  blockAt (setCell g r c b) r' c' = blockAt g r' c'.
Proof.
  destruct (decide ((r', c') = (r, c))) as [[= -> ->]|Hne];
    [|right; by apply blockAt_setCell_ne].
  unfold blockAt, setCell.
  destruct (decide (r < length g)) as [Hr|Hr];
    [|right; rewrite list_insert_ge; [done|lia]].
  rewrite list_lookup_total_insert_eq by done.
  destruct (decide (c < length (g !!! r))) as [Hc|Hc].
  - left. by rewrite list_lookup_total_insert_eq.
  - right. rewrite list_insert_ge; [done|lia].
Qed.

Lemma colouredViruses_setCell g r c b :
  colouredViruses g → (isVirus b = true → type b ≠ EMPTY) →
  colouredViruses (setCell g r c b).
Proof.
  intros Hg Hb r' c'.
  destruct (blockAt_setCell_cases g r c b r' c') as [-> | ->]; auto.
Qed.

Lemma colouredViruses_createEmptyGrid :
  colouredViruses (createEmptyGrid GRID_ROWS GRID_COLS).
Proof.
  intros r c. unfold blockAt, createEmptyGrid.
  destruct (decide (r < GRID_ROWS)) as [Hr|Hr].
  - rewrite lookup_total_replicate_2 by done.
    destruct (decide (c < GRID_COLS)) as [Hc|Hc].
    + by rewrite lookup_total_replicate_2.
    + rewrite list_lookup_total_alt.
      assert (replicate GRID_COLS emptyBlock !! c = None) as ->; [|done].
      apply lookup_replicate_None. lia.
  - rewrite (list_lookup_total_alt (replicate _ _)).
    assert (replicate GRID_ROWS (replicate GRID_COLS emptyBlock) !! r = None)
      as ->; [|done].
    apply lookup_replicate_None. lia.
Qed.

Lemma colouredViruses_lockPill g pill :
  colouredViruses g → colouredViruses (lockPill g pill).
Proof.
  intros Hg. unfold lockPill.
  apply colouredViruses_setCell; [apply colouredViruses_setCell|]; done.
Qed.

Lemma colouredViruses_clearCells g ps :
  colouredViruses g → colouredViruses (clearCells g ps).
Proof.
  revert g. induction ps as [|p ps IH]; intros g Hg; [done|].
  simpl. apply IH. apply colouredViruses_setCell; done.
Qed.

Lemma colouredViruses_gravityPass g :
  colouredViruses g → colouredViruses (gravityPass g).1.
Proof.
  intros Hg. apply (gravityPass_ind (λ g' _, colouredViruses g')); [|done].
  intros g' m r c Hg' _ _. unfold gravityCell.
  destruct (canFall g' r c) eqn:Hf; [|done]. simpl.
  apply canFall_spec in Hf as (_ & Hnv & _).
  apply colouredViruses_setCell; [apply colouredViruses_setCell|]; [done| |done].
  congruence.
Qed.

(** ** Run detection *)

Lemma lineTriple_mono ty n m i : n ≤ m → lineTriple ty n i → lineTriple ty m i.
Proof. intros Hle (j & ? & ? & ?). exists j. split; [done|]. split; [lia|done]. Qed.

(** A triple never straddles the left end of a left-maximal block. *)
Lemma lineTriple_split ty c s cur i :
  s ≤ c →
  (∀ k, s ≤ k < c → ty k = cur) →
  (cur ≠ EMPTY → s = 0 ∨ ty (s - 1) ≠ cur) →
  lineTriple ty c i →
  lineTriple ty s i ∨ (s ≤ i < c ∧ 3 ≤ c - s ∧ cur ≠ EMPTY).
Proof.
  intros Hs Hblk Hmax (j & Hi & Hj & Hne & H1 & H2).
  destruct (decide (j + 2 < s)) as [Hlt|Hge].
  { left. exists j. done. }
  destruct (decide (s ≤ j)) as [Hle|Hgt].
  { right. split; [lia|]. split; [lia|]. rewrite <-(Hblk j) by lia. done. }
  exfalso.
  assert (ty s = cur) as Hcur by (apply Hblk; lia).
  assert (ty s = ty j) as Hsj.
  { destruct (decide (s = j + 1)) as [->|]; [done|].
    assert (s = j + 2) as -> by lia. done. }
  assert (ty (s - 1) = ty j) as Hpj.
  { destruct (decide (s = j + 1)) as [->|].
    - f_equal. lia.
    - assert (s - 1 = j + 1) as -> by lia. done. }
  destruct Hmax as [->|Hmax]; [congruence|lia|congruence].
Qed.

Lemma lineTriple_block ty c s cur i :
  (∀ k, s ≤ k < c → ty k = cur) → cur ≠ EMPTY → 3 ≤ c - s →
  s ≤ i < c → lineTriple ty c i.
Proof.
  intros Hblk Hne Hlen Hi. exists (i `min` (c - 3)).
  split; [lia|]. split; [lia|].
  rewrite !Hblk by lia. done.
Qed.

Lemma elem_of_pushed c cnt i :
  cnt ≤ c → i ∈ (λ k, c - k) <$> seq 1 cnt ↔ c - cnt ≤ i < c.
Proof.
  intros Hle. rewrite list_elem_of_fmap. split.
  - intros (k & -> & Hk). apply elem_of_seq in Hk. lia.
  - intros Hi. exists (c - i). split; [lia|]. apply elem_of_seq. lia.
Qed.

Lemma pushRun_fmap (mk : nat → Position) c cnt acc idxs :
  pushRun mk c cnt (acc ++ (mk <$> idxs)) =
  acc ++ (mk <$> (idxs ++ ((λ k, c - k) <$> seq 1 cnt))).
Proof.
  unfold pushRun. rewrite fmap_app, <-app_assoc. do 2 f_equal.
  by rewrite <-list_fmap_compose.
Qed.

(** One step of the scan keeps the invariant. *)
Lemma scanCell_inv ty mk acc c st idxs :
  scanInv ty c st idxs → toClear st = acc ++ (mk <$> idxs) →
  ∃ idxs', scanInv ty (S c) (scanCell ty mk st c) idxs' ∧
           toClear (scanCell ty mk st c) = acc ++ (mk <$> idxs').
Proof.
  intros (Hcnt & H0 & Hpos & Hblk & Hmax & Hemp & Hidx) Hacc.
  unfold scanCell.
  destruct (bool_decide (ty c ≠ EMPTY) && bool_decide (ty c = currentType st))
    eqn:Hcont.
  - (* the open block grows *)
    apply andb_true_iff in Hcont as [Hne Heq].
    apply bool_decide_eq_true in Hne, Heq.
    exists idxs. split; [|done].
    assert (0 < c) as Hc.
    { destruct c; [|lia]. destruct (H0 eq_refl) as [_ Htype]. congruence. }
    destruct (Hpos Hc) as [H1 Hty].
    unfold scanInv; simpl.
    replace (S c - S (count st)) with (c - count st) by lia.
    split_and!; [lia|done|..].
    + intros _. split; [lia|]. replace (c - 0) with c by lia. done.
    + intros i Hi. destruct (decide (i = c)) as [->|]; [done|]. apply Hblk. lia.
    + done.
    + intros He. congruence.
    + done.
  - (* the open block ends at [c] *)
    apply andb_false_iff in Hcont.
    assert (ty c = EMPTY ∨ ty c ≠ currentType st) as Hbreak.
    { destruct Hcont as [H|H]; apply bool_decide_eq_false in H; [left|right];
        [by destruct (decide (ty c = EMPTY))|done]. }
    assert (∀ i, lineTriple ty c i ↔
              lineTriple ty (c - count st) i ∨
              (c - count st ≤ i < c ∧ 3 ≤ count st)) as Hsplit.
    { intros i. split.
      - intros Ht. eapply lineTriple_split in Ht as [Ht|(? & ? & ?)]; eauto;
          [right; lia|lia].
      - intros [Ht|[Hi H3]]; [eapply lineTriple_mono; [|done]; lia|].
        eapply lineTriple_block; [exact Hblk| |lia|done].
        intros He. apply Hemp in He. lia. }
    assert (ty c ≠ EMPTY → c = 0 ∨ ty (c - 1) ≠ ty c) as Hmax'.
    { intros Hne. destruct (decide (c = 0)) as [->|Hc0]; [by left|right].
      destruct (Hpos ltac:(lia)) as [_ Hty].
      destruct Hbreak; congruence. }
    eexists (if bool_decide (3 ≤ count st)
             then idxs ++ ((λ k, c - k) <$> seq 1 (count st)) else idxs).
    split.
    + unfold scanInv; simpl. replace (c - 0) with c by lia.
      split_and!; [lia|lia|done| |done|done|].
      * intros i Hi. f_equal. lia.
      * intros i. rewrite Hsplit.
        destruct (bool_decide_reflect (3 ≤ count st)) as [H3|H3].
        -- rewrite elem_of_app, Hidx, elem_of_pushed by done.
           split; (intros [H|H]; [by left|right; lia]).
        -- rewrite Hidx. split; [by left|]. intros [H|H]; [done|lia].
    + simpl. destruct (bool_decide_reflect (3 ≤ count st)); [|done].
      rewrite Hacc. apply pushRun_fmap.
Qed.

Lemma scanLoop_inv ty mk acc n :
  ∃ idxs,
    let st := foldl (scanCell ty mk)
                {| count := 0; currentType := EMPTY; toClear := acc |}
                (seq 0 n) in
    scanInv ty n st idxs ∧ toClear st = acc ++ (mk <$> idxs).
Proof.
  induction n as [|n (idxs & Hinv & Hacc)].
  - exists []. simpl. split; [|by rewrite app_nil_r].
    unfold scanInv; simpl. split_and!; [lia|done|lia|lia|done|lia|].
    intros i. split.
    + intros H. by apply elem_of_nil in H.
    + intros (j & ? & ? & ?). lia.
  - rewrite seq_S, foldl_snoc. simpl. by eapply scanCell_inv.
Qed.

(** The cells a line contributes are those lying on a triple. *)
Lemma scanLine_spec n ty mk acc :
  ∃ idxs, scanLine n ty mk acc = acc ++ (mk <$> idxs) ∧
          ∀ i, i ∈ idxs ↔ lineTriple ty n i.
Proof.
  destruct (scanLoop_inv ty mk acc n) as (idxs & Hinv & Hacc).
  simpl in Hinv, Hacc. unfold scanLine.
  set (st := foldl _ _ _) in *.
  destruct Hinv as (Hcnt & H0 & Hpos & Hblk & Hmax & Hemp & Hidx).
  assert (∀ i, lineTriple ty n i ↔
            lineTriple ty (n - count st) i ∨
            (n - count st ≤ i < n ∧ 3 ≤ count st)) as Hsplit.
  { intros i. split.
    - intros Ht. eapply lineTriple_split in Ht as [Ht|(? & ? & ?)]; eauto;
        [right; lia|lia].
    - intros [Ht|[Hi H3]]; [eapply lineTriple_mono; [|done]; lia|].
      eapply lineTriple_block; [exact Hblk| |lia|done].
      intros He. apply Hemp in He. lia. }
  destruct (bool_decide (3 ≤ count st) && bool_decide (currentType st ≠ EMPTY))
    eqn:Hflush.
  - apply andb_true_iff in Hflush as [H3 Hne].
    apply bool_decide_eq_true in H3, Hne.
    exists (idxs ++ ((λ k, n - k) <$> seq 1 (count st))). split.
    + rewrite Hacc. apply pushRun_fmap.
    + intros i. rewrite elem_of_app, Hidx, elem_of_pushed by done.
      rewrite Hsplit. split; (intros [H|H]; [by left|right; lia]).
  - exists idxs. split; [done|].
    assert (count st < 3) as Hlt.
    { apply andb_false_iff in Hflush as [H|H]; apply bool_decide_eq_false in H;
        [lia|].
      assert (currentType st = EMPTY) as He
        by (by destruct (decide (currentType st = EMPTY))).
      apply Hemp in He. lia. }
    intros i. rewrite Hidx, Hsplit. split; [by left|]. intros [H|H]; [done|lia].
Qed.

Lemma scanLines_spec (n m : nat) (ty : nat → nat → BlockType)
    (mk : nat → nat → Position) acc :
  ∃ ps,
    foldl (λ acc a, scanLine m (ty a) (mk a) acc) acc (seq 0 n) = acc ++ ps ∧
    ∀ p, p ∈ ps ↔ ∃ a i, p = mk a i ∧ a < n ∧ lineTriple (ty a) m i.
Proof.
  induction n as [|n (ps & Hps & Hin)].
  - exists []. split; [by rewrite app_nil_r|].
    intros p. split; [by intros ?%elem_of_nil|]. intros (a & i & _ & ? & _). lia.
  - rewrite seq_S, foldl_snoc. simpl. rewrite Hps.
    destruct (scanLine_spec m (ty n) (mk n) (acc ++ ps)) as (idxs & -> & Hidx).
    exists (ps ++ (mk n <$> idxs)). split; [by rewrite app_assoc|].
    intros p. rewrite elem_of_app, Hin, list_elem_of_fmap. split.
    + intros [(a & i & -> & Ha & Ht)|(i & -> & Hi)].
      * exists a, i. split; [done|]. split; [lia|done].
      * exists n, i. split; [done|]. split; [lia|]. by apply Hidx.
    + intros (a & i & -> & Ha & Ht).
      destruct (decide (a = n)) as [->|Hne].
      * right. exists i. split; [done|]. by apply Hidx.
      * left. exists a, i. split; [done|]. split; [lia|done].
Qed.

(** The cells [checkMatches] collects are exactly the cells lying on three
    consecutive equal non-Empty cells of their row or column. *)
Lemma findMatches_spec (g : Grid) (p : Position) :
  p ∈ findMatches g ↔ matched GRID_ROWS GRID_COLS g p.
Proof.
  unfold Pills.findMatches, scanVertical, scanHorizontal, matched.
  destruct (scanLines_spec GRID_ROWS GRID_COLS
              (λ r c, type (blockAt g r c)) (λ r c, posAt r c) [])
    as (hs & -> & Hh).
  destruct (scanLines_spec GRID_COLS GRID_ROWS
              (λ c r, type (blockAt g r c)) (λ c r, posAt r c) ([] ++ hs))
    as (vs & -> & Hv).
  simpl. rewrite elem_of_app, Hh, Hv. split.
  - intros [(r & c & -> & Hr & Ht)|(c & r & -> & Hc & Ht)];
      exists r, c; (split; [done|]); [left|right]; done.
  - intros (r & c & -> & [[Hr Ht]|[Hc Ht]]); [left|right]; eauto.
Qed.

Lemma rowRun_triple g r c len t i :
  rowRun GRID_ROWS GRID_COLS g r c len t → i < len →
  lineTriple (λ c', type (blockAt g r c')) GRID_COLS (c + i).
Proof.
  intros (H3 & Hne & Hr & Hc & Hty) Hi.
  apply (lineTriple_mono _ (c + len)); [done|].
  apply (lineTriple_block _ (c + len) c t); [|done|lia|lia].
  intros k Hk. replace k with (c + (k - c)) by lia. apply Hty. lia.
Qed.

Lemma colRun_triple g r c len t i :
  colRun GRID_ROWS GRID_COLS g r c len t → i < len →
  lineTriple (λ r', type (blockAt g r' c)) GRID_ROWS (r + i).
Proof.
  intros (H3 & Hne & Hc & Hr & Hty) Hi.
  apply (lineTriple_mono _ (r + len)); [done|].
  apply (lineTriple_block _ (r + len) r t); [|done|lia|lia].
  intros k Hk. replace k with (r + (k - r)) by lia. apply Hty. lia.
Qed.

Lemma lineTriple_run ty n i :
  lineTriple ty n i →
  ∃ j, j + 3 ≤ n ∧ ty j ≠ EMPTY ∧ ∀ k, k < 3 → ty (j + k) = ty j.
Proof.
  intros (j & Hi & Hj & Hne & H1 & H2). exists j.
  split; [lia|]. split; [done|]. intros k Hk.
  destruct k as [|[|[|k]]]; [f_equal; lia|done|done|lia].
Qed.

(** C4. Match detection finds nothing exactly when no row and no column
    of the grid holds three or more consecutive cells of one non-Empty
    type. *)
Theorem findMatches_empty_iff (g : Grid) :
  wf g →
  findMatches g = [] ↔ ¬ hasRun GRID_ROWS GRID_COLS g.
Proof.
  intros _. split.
  - intros Hnil (r & c & len & t & [Hrun|Hrun]).
    + assert (posAt r (c + 0) ∈ findMatches g) as Hin.
      { apply findMatches_spec. exists r, (c + 0). split; [done|]. left.
        split; [apply Hrun|]. eapply rowRun_triple; [done|].
        destruct Hrun. lia. }
      rewrite Hnil in Hin. by apply elem_of_nil in Hin.
    + assert (posAt (r + 0) c ∈ findMatches g) as Hin.
      { apply findMatches_spec. exists (r + 0), c. split; [done|]. right.
        split; [apply Hrun|]. eapply colRun_triple; [done|].
        destruct Hrun. lia. }
      rewrite Hnil in Hin. by apply elem_of_nil in Hin.
  - intros Hno. apply elem_of_nil_inv. intros p Hin. apply Hno.
    apply findMatches_spec in Hin as (r & c & -> & [[Hr Ht]|[Hc Ht]]);
      apply lineTriple_run in Ht as (j & Hj & Hne & Hty).
    + exists r, j, 3, (type (blockAt g r j)). left.
      split; [lia|]. split; [done|]. split; [done|]. split; [lia|done].
    + exists j, c, 3, (type (blockAt g j c)). right.
      split; [lia|]. split; [done|]. split; [done|]. split; [lia|done].
Qed.

(** ** Clearing and scoring *)

Lemma samePos_spec t v : samePos t v = true ↔ t = v.
Proof.
  unfold samePos. rewrite andb_true_iff, !bool_decide_eq_true.
  destruct t, v; simpl. split; [intros [-> ->]; done|intros [= -> ->]; done].
Qed.

Lemma findIndex_first {A} (P : A → bool) pre v suf :
  findIndex P (pre ++ v :: suf) = Some (length pre) ↔
  (∀ x, x ∈ pre → P x = false) ∧ P v = true.
Proof.
  induction pre as [|y pre IH]; simpl.
  - destruct (P v) eqn:Hv.
    + split; [|done]. intros _. split; [|done]. by intros x ?%elem_of_nil.
    + split; [|intros [_ ?]; done].
      destruct (findIndex P suf); simpl; discriminate.
  - destruct (P y) eqn:Hy.
    + split; [done|]. intros [Hall _].
      rewrite Hall in Hy; [done|]. apply elem_of_cons. by left.
    + destruct (findIndex P (pre ++ v :: suf)) as [i|] eqn:Hi; simpl.
      * split.
        -- intros [= ->]. destruct IH as [IH _]. destruct (IH eq_refl) as [Hall Hv].
           split; [|done]. intros x [->|Hx]%elem_of_cons; auto.
        -- intros [Hall Hv]. f_equal. f_equal.
           destruct IH as [_ IH]. assert (Some i = Some (length pre)) as [= ->];
             [|done].
           apply IH. split; [|done]. intros x Hx. apply Hall.
           apply elem_of_cons. by right.
      * split; [done|]. intros [Hall Hv]. destruct IH as [_ IH].
        assert (None = Some (length pre)); [|done].
        apply IH. split; [|done]. intros x Hx. apply Hall.
        apply elem_of_cons. by right.
Qed.

Lemma filterFrom_firsts (pre suf : list Position) :
  let keep := λ v i,
    bool_decide (findIndex (λ t, samePos t v) (pre ++ suf) = Some i) in
  NoDup (filterFrom keep (length pre) suf) ∧
  ∀ x, x ∈ filterFrom keep (length pre) suf ↔ x ∈ suf ∧ x ∉ pre.
Proof.
  revert pre. induction suf as [|v suf IH]; intros pre keep.
  - simpl. split; [constructor|]. intros x. split; [by intros ?%elem_of_nil|].
    intros [?%elem_of_nil _]. done.
  - specialize (IH (pre ++ [v])). simpl in IH.
    rewrite <-app_assoc, length_app in IH. simpl in IH.
    replace (length pre + 1) with (S (length pre)) in IH by lia.
    destruct IH as [Hnd Hin]. simpl. fold keep in Hnd, Hin |- *.
    assert (keep v (length pre) = true ↔ v ∉ pre) as Hkeep.
    { unfold keep. rewrite bool_decide_eq_true, findIndex_first. split.
      - intros [Hall _] Hv. apply Hall in Hv.
        assert (samePos v v = true) by (by apply samePos_spec). congruence.
      - intros Hv. split; [|by apply samePos_spec].
        intros x Hx. destruct (samePos x v) eqn:E; [|done].
        apply samePos_spec in E. congruence. }
    destruct (keep v (length pre)) eqn:Hk.
    + assert (v ∉ pre) as Hv by (by apply Hkeep). split.
      * apply NoDup_cons. split; [|done]. rewrite Hin.
        intros [_ Hn]. apply Hn. apply elem_of_app. right. by apply list_elem_of_singleton.
      * intros x. rewrite !elem_of_cons, Hin, elem_of_app, list_elem_of_singleton.
        split.
        -- intros [->|[? ?]]; [by split; [left|]|]. split; [by right|tauto].
        -- intros [[->|?] ?]; [by left|].
           destruct (decide (x = v)) as [->|]; [by left|right]. tauto.
    + assert (v ∈ pre) as Hv.
      { destruct (decide (v ∈ pre)); [done|]. apply Hkeep in n. done. }
      split; [done|].
      intros x. rewrite Hin, elem_of_cons, elem_of_app, list_elem_of_singleton.
      split.
      * intros [? ?]. split; [by right|tauto].
      * intros [[->|?] ?]; [done|]. split; [done|].
        intros [?| ->]; done.
Qed.

(** The duplicate filter keeps every position once. *)
Lemma uniqueClear_spec (a : list Position) :
  NoDup (uniqueClear a) ∧ ∀ x, x ∈ uniqueClear a ↔ x ∈ a.
Proof.
  destruct (filterFrom_firsts [] a) as [Hnd Hin]. simpl in *.
  split; [done|]. intros x. rewrite (Hin x). split; [tauto|].
  intros Hx. split; [done|]. by intros ?%elem_of_nil.
Qed.

Lemma posAt_inj r c r' c' : posAt r c = posAt r' c' → r = r' ∧ c = c'.
Proof. unfold posAt. intros [= ? ?]. lia. Qed.





(** ** Measures *)

Lemma sumTo_S n F : sumTo (S n) F = sumTo n F + F n.
Proof. unfold sumTo. rewrite seq_S, sum_list_with_app. simpl. lia. Qed.

Lemma sumTo_ext n F F' : (∀ i, i < n → F i = F' i) → sumTo n F = sumTo n F'.
Proof.
  induction n as [|n IH]; intros H; [done|].
  rewrite !sumTo_S, IH, H; [done|lia|]. intros i Hi. apply H. lia.
Qed.

Lemma sumTo_le n F B : (∀ i, i < n → F i ≤ B) → sumTo n F ≤ n * B.
Proof.
  induction n as [|n IH]; intros H; [done|].
  rewrite sumTo_S. pose proof (H n ltac:(lia)).
  assert (sumTo n F ≤ n * B) by (apply IH; intros; apply H; lia). lia.
Qed.

Lemma sumTo_update n F F' i0 :
  i0 < n → (∀ i, i ≠ i0 → F' i = F i) →
  sumTo n F' + F i0 = sumTo n F + F' i0.
Proof.
  induction n as [|n IH]; intros Hi H; [lia|].
  rewrite !sumTo_S. destruct (decide (i0 = n)) as [->|Hne].
  - rewrite (sumTo_ext n F' F); [lia|]. intros i Hlt. apply H. lia.
  - rewrite (H n) by done. specialize (IH ltac:(lia) H). lia.
Qed.

Lemma gridSum_setCell f g r0 c0 b :
  wf g → r0 < GRID_ROWS → c0 < GRID_COLS →
  gridSum GRID_ROWS GRID_COLS f (setCell g r0 c0 b) + f r0 (blockAt g r0 c0) =
  gridSum GRID_ROWS GRID_COLS f g + f r0 b.
Proof.
  intros Hwf Hr Hc. unfold gridSum.
  pose proof (sumTo_update GRID_COLS
    (λ c, f r0 (blockAt g r0 c))
    (λ c, f r0 (blockAt (setCell g r0 c0 b) r0 c))
    c0 Hc) as Hin.
  simpl in Hin. rewrite blockAt_setCell_eq in Hin by done.
  assert (∀ i, i ≠ c0 →
    f r0 (blockAt (setCell g r0 c0 b) r0 i) = f r0 (blockAt g r0 i)) as H1.
  { intros i Hi. rewrite blockAt_setCell_ne; [done|congruence]. }
  assert (∀ i, i ≠ r0 →
    sumTo GRID_COLS (λ c, f i (blockAt (setCell g r0 c0 b) i c)) =
    sumTo GRID_COLS (λ c, f i (blockAt g i c))) as H2.
  { intros i Hi. apply sumTo_ext. intros c _.
    rewrite blockAt_setCell_ne; [done|congruence]. }
  specialize (Hin H1).
  pose proof (sumTo_update GRID_ROWS
    (λ r, sumTo GRID_COLS (λ c, f r (blockAt g r c)))
    (λ r, sumTo GRID_COLS (λ c, f r (blockAt (setCell g r0 c0 b) r c)))
    r0 Hr H2) as Hout'.
  simpl in Hout'. lia.
Qed.

Lemma occupied_le g : occupied g ≤ GRID_ROWS * GRID_COLS.
Proof.
  unfold Pills.occupied, gridSum.
  etrans; [apply sumTo_le|done].
  intros r _. etrans; [apply sumTo_le|].
  - intros c _. by destruct (isEmpty _); [apply Nat.le_0_l|].
  - lia.
Qed.

Lemma fallRoom_le g :
  fallRoom g ≤ GRID_ROWS * (GRID_COLS * GRID_ROWS).
Proof.
  unfold Pills.fallRoom, gridSum.
  apply sumTo_le. intros r _. apply sumTo_le.
  intros c _. destruct (isEmpty _); lia.
Qed.

(** A falling cell keeps the number of occupied cells and uses up one row
    of room. *)
Lemma gravityCell_measures g m r c :
  wf g → r + 1 < GRID_ROWS → c < GRID_COLS →
  let st := gravityCell c (g, m) r in
  occupied st.1 = occupied g ∧
  (if canFall g r c then st.2 = true ∧ fallRoom st.1 < fallRoom g
   else st = (g, m)).
Proof.
  intros Hwf Hr Hc. simpl. unfold gravityCell.
  destruct (canFall g r c) eqn:Hf; [|done]. simpl.
  apply canFall_spec in Hf as (Hne & _ & Hbelow).
  apply isEmpty_false in Hne. apply isEmpty_spec in Hbelow.
  set (a := blockAt g r c) in *.
  set (g1 := setCell g (r + 1) c a).
  assert (wf g1) as Hwf1 by (by apply wf_setCell).
  assert (blockAt g1 r c = a) as Ha.
  { unfold g1. rewrite blockAt_setCell_ne; [done|]. intros [= ?]. lia. }
  unfold Pills.occupied, Pills.fallRoom.
  pose proof (gridSum_setCell (λ _ b, if isEmpty b then 0 else 1)
                g (r + 1) c a Hwf Hr Hc) as O1.
  pose proof (gridSum_setCell (λ _ b, if isEmpty b then 0 else 1)
                g1 r c emptyBlock Hwf1 ltac:(lia) Hc) as O2.
  pose proof (gridSum_setCell (λ r b, if isEmpty b then 0 else GRID_ROWS - 1 - r)
                g (r + 1) c a Hwf Hr Hc) as R1.
  pose proof (gridSum_setCell (λ r b, if isEmpty b then 0 else GRID_ROWS - 1 - r)
                g1 r c emptyBlock Hwf1 ltac:(lia) Hc) as R2.
  simpl in O1, O2, R1, R2. fold g1 in O1, R1. rewrite Ha in O2, R2.
  rewrite Hne in O1, O2, R1, R2. rewrite Hbelow in O1, R1.
  change (isEmpty emptyBlock) with true in O2, R2. simpl in O2, R2.
  split; [lia|]. split; [done|lia].
Qed.

Lemma gravityPass_measures g :
  wf g →
  occupied (gravityPass g).1 = occupied g ∧
  fallRoom (gravityPass g).1 ≤ fallRoom g ∧
  ((gravityPass g).2 = true → fallRoom (gravityPass g).1 < fallRoom g).
Proof.
  intros Hwf.
  pose proof (gravityPass_ind
    (λ g' m, wf g' ∧ occupied g' = occupied g ∧ fallRoom g' ≤ fallRoom g ∧
             (m = true → fallRoom g' < fallRoom g)) g) as Hind.
  simpl in Hind. apply Hind; [|by split_and!].
  intros g' m r c (Hwf' & Ho & Hle & Hlt) Hr Hc.
  pose proof (gravityCell_measures g' m r c Hwf' Hr Hc) as [Ho' Hf].
  simpl in Ho', Hf. split; [by apply gravityCell_wf|].
  destruct (canFall g' r c).
  - destruct Hf as [Hm Hroom]. split_and!; [congruence|lia|intros _; lia].
  - simpl. by split_and!.
Qed.

(** Matched cells are occupied cells of the grid. *)
Lemma matched_occupied g p :
  matched GRID_ROWS GRID_COLS g p →
  ∃ r c, p = posAt r c ∧ r < GRID_ROWS ∧ c < GRID_COLS ∧
         isEmpty (blockAt g r c) = false.
Proof.
  intros (r & c & -> & [[Hr Ht]|[Hc Ht]]);
    destruct Ht as (j & Hi & Hj & Hne & H1 & H2); exists r, c;
    (split; [done|]); (split; [lia|]); (split; [lia|]);
    apply isEmpty_false.
  - destruct (decide (c = j)) as [->|]; [done|].
    destruct (decide (c = j + 1)) as [->|]; [congruence|].
    replace c with (j + 2) by lia. congruence.
  - destruct (decide (r = j)) as [->|]; [done|].
    destruct (decide (r = j + 1)) as [->|]; [congruence|].
    replace r with (j + 2) by lia. congruence.
Qed.

Lemma clearCells_measures g ps :
  wf g →
  Forall (λ p, ∃ r c, p = posAt r c ∧ r < GRID_ROWS ∧ c < GRID_COLS) ps →
  wf (clearCells g ps) ∧ occupied (clearCells g ps) ≤ occupied g.
Proof.
  intros Hwf Hps. revert g Hwf.
  induction Hps as [|p ps (r & c & -> & Hr & Hc) _ IH]; intros g Hwf; [done|].
  simpl. rewrite !Nat2Z.id.
  destruct (IH (setCell g r c emptyBlock)) as [Hwf' Hle];
    [by apply wf_setCell|].
  split; [done|]. etrans; [exact Hle|].
  pose proof (gridSum_setCell (λ _ b, if isEmpty b then 0 else 1)
                g r c emptyBlock Hwf Hr Hc) as O.
  simpl in O. change (isEmpty emptyBlock) with true in O.
  unfold Pills.occupied. lia.
Qed.

(** Clearing a non-empty set of matches removes at least one occupied
    cell. *)
Lemma clearMatches_measures g :
  wf g → 0 < length (findMatches g) →
  wf (clearCells g (uniqueClear (findMatches g))) ∧
  occupied (clearCells g (uniqueClear (findMatches g))) < occupied g.
Proof.
  intros Hwf Hlen.
  destruct (uniqueClear_spec (findMatches g)) as [_ Hin].
  assert (Forall (λ p, ∃ r c, p = posAt r c ∧ r < GRID_ROWS ∧ c < GRID_COLS ∧
                               isEmpty (blockAt g r c) = false)
            (uniqueClear (findMatches g))) as Hall.
  { apply Forall_forall. intros p Hp. apply matched_occupied.
    by apply findMatches_spec, Hin. }
  destruct (uniqueClear (findMatches g)) as [|p ps] eqn:Hu.
  { destruct (findMatches g) as [|q qs]; [simpl in Hlen; lia|].
    assert (q ∈ []) as Hq by (apply Hin, elem_of_cons; by left).
    by apply elem_of_nil in Hq. }
  apply Forall_cons in Hall as [(r & c & -> & Hr & Hc & Hocc) Hall].
  simpl. rewrite !Nat2Z.id.
  destruct (clearCells_measures (setCell g r c emptyBlock) ps) as [Hwf' Hle].
  { by apply wf_setCell. }
  { eapply Forall_impl; [exact Hall|]. intros p (r' & c' & ? & ? & ? & _).
    eauto. }
  split; [done|].
  pose proof (gridSum_setCell (λ _ b, if isEmpty b then 0 else 1)
                g r c emptyBlock Hwf Hr Hc) as O.
  simpl in O. change (isEmpty emptyBlock) with true in O. rewrite Hocc in O.
  unfold Pills.occupied in *. lia.
Qed.

(** ** Termination of the cascade *)

Lemma spawnPill_frame render s rng :
  grid (spawnPill render s rng).1 = grid s ∧
  score (spawnPill render s rng).1 = score s.
Proof.
  unfold spawnPill. destruct (_ || _); [done|].
  unfold getRandomColor, randomIndex. simpl.
  by destruct (spawnBlocked (grid render)).
Qed.

Local Abbreviation roomMax := (GRID_ROWS * (GRID_COLS * GRID_ROWS)).

(** A call of [checkMatches] ends, given that the gravity calls it may
    start end. *)
Lemma checkMatches_ends render o g s rng n fuel :
  (∀ g' s' fuel', wf g' → grid s' = g' → S (occupied g') ≤ o →
     gameOver s' = gameOver s → score s ≤ score s' → fuel = S fuel' →
     ∃ res, applyGravity fuel' (S n) render s' rng g' = Some res ∧
            cascadeOk GRID_ROWS GRID_COLS render s' (n + o) res) →
  wf g → grid s = g → occupied g ≤ o → 1 ≤ fuel →
  ∃ res, checkMatches fuel n render s rng g = Some res ∧
         cascadeOk GRID_ROWS GRID_COLS render s (n + o) res.
Proof.
  intros Hgrav Hwf Hgrid Ho Hfuel.
  destruct fuel as [|fuel]; [lia|]. simpl.
  destruct (gameOver render) eqn:Hgo.
  { eexists. split; [done|]. unfold cascadeOk. simpl.
    split_and!; [lia|done|congruence]. }
  case_bool_decide as Hlen.
  - destruct (clearMatches_measures g Hwf Hlen) as [Hwf' Hocc].
    unfold clearMatches.
    set (g1 := clearCells g (uniqueClear (findMatches g))) in *.
    set (s1 := addScore _ (setGrid g1 s)).
    destruct (Hgrav g1 s1 fuel) as (res & Hres & Hsteps & Hscore & Hfix);
      [done|done|lia|done|simpl; lia|done|].
    exists res. split; [exact Hres|]. simpl in *.
    split_and!; [done|lia|]. intros _. by apply Hfix.
  - pose proof (spawnPill_frame render s rng) as [Hg Hs].
    destruct (spawnPill render s rng) as [s' rng1]. simpl in *.
    eexists. split; [done|]. unfold cascadeOk. simpl.
    split_and!; [lia|lia|]. intros _. rewrite Hg, Hgrid. split; [done|].
    destruct (findMatches g); [done|]. simpl in Hlen. lia.
Qed.

(** A call of [applyGravity] ends, given that the [checkMatches] call
    that follows the last pass ends. *)
Lemma applyGravity_ends render o d : ∀ g s rng n fuel,
  (∀ g' s' fuel', wf g' → grid s' = g' → occupied g' ≤ o →
     gameOver s' = gameOver s → score s' = score s → fuel ≤ d + S fuel' →
     ∃ res, checkMatches fuel' n render s' rng g' = Some res ∧
            cascadeOk GRID_ROWS GRID_COLS render s' (n + o) res) →
  wf g → grid s = g → occupied g ≤ o → fallRoom g ≤ d → d + 1 ≤ fuel →
  ∃ res, applyGravity fuel n render s rng g = Some res ∧
         cascadeOk GRID_ROWS GRID_COLS render s (n + o) res.
Proof.
  induction d as [|d IH]; intros g s rng n fuel Hcm Hwf Hgrid Ho Hd Hfuel.
  all: destruct fuel as [|fuel]; [lia|]; simpl.
  all: destruct (gameOver render) eqn:Hgo;
    [eexists; split; [done|]; unfold cascadeOk; simpl;
     split_and!; [lia|done|congruence]|].
  all: pose proof (gravityPass_wf g Hwf) as Hwf'.
  all: pose proof (gravityPass_measures g Hwf) as (Hocc & Hle & Hlt).
  all: pose proof (gravityPass_settled g) as Hset.
  all: destruct (gravityPass g) as [g' moved]; simpl in *.
  all: destruct moved.
  - specialize (Hlt eq_refl). lia.
  - destruct (Hset eq_refl) as [-> _].
    apply Hcm; [done|done|done|done|done|lia].
  - specialize (Hlt eq_refl).
    destruct (IH g' (setGrid g' s) rng n fuel) as (res & Hres & Hok);
      [|done|done|lia|lia|lia|].
    + intros g'' s'' fuel'' Hwf'' Hg'' Ho'' Hgo'' Hsc'' Hf''. simpl in *.
      apply Hcm; [done|done|lia|congruence|done|lia].
    + exists res. split; [done|]. destruct Hok as (? & ? & Hfix).
      unfold cascadeOk. simpl in *. split_and!; [done|done|].
      intros _. by apply Hfix.
  - destruct (Hset eq_refl) as [-> _].
    apply Hcm; [done|done|done|done|done|lia].
Qed.

Lemma cascade_ends render o : ∀ g s rng n fuel,
  wf g → grid s = g → occupied g ≤ o → o * (roomMax + 2) + 1 ≤ fuel →
  ∃ res, checkMatches fuel n render s rng g = Some res ∧
         cascadeOk GRID_ROWS GRID_COLS render s (n + o) res.
Proof.
  induction o as [|o IH]; intros g s rng n fuel Hwf Hgrid Ho Hfuel.
  - apply checkMatches_ends; [|done|done|done|lia].
    intros; lia.
  - apply checkMatches_ends; [|done|done|done|lia].
    intros g' s' fuel' Hwf' Hgrid' Ho' Hgo' Hsc' ->.
    destruct (applyGravity_ends render o roomMax g' s' rng (S n) fuel')
      as (res & Hres & Hok);
      [|done|done|lia|apply fallRoom_le|lia|].
    + intros g'' s'' fuel'' Hwf'' Hgrid'' Ho'' Hgo'' Hsc'' Hf''.
      apply IH; [done|done|done|]. simpl in Hfuel. lia.
    + exists res. split; [done|]. destruct Hok as (? & ? & ?).
      unfold cascadeOk. split_and!; [lia|done|done].
Qed.

(** C2, for the board with gravity. A cascade always ends: with
    [cascadeFuel] calls or more, [checkMatches] returns; it took at most
    as many clearing steps as the grid has cells, the score did not drop
    and, unless the game was over in the render the cascade's closures
    read, match detection finds nothing on the final grid. *)
Theorem cascade_terminates (g : Grid) (render s : Game) (rng : Rng)
    (fuel : nat) :
  wf g → grid s = g → cascadeFuel ≤ fuel →
  ∃ res, checkMatches fuel 0 render s rng g = Some res ∧
         steps res ≤ GRID_ROWS * GRID_COLS ∧
         score s ≤ score (game res) ∧
         (gameOver render = false → findMatches (grid (game res)) = []).
Proof.
  intros Hwf Hgrid Hfuel.
  destruct (cascade_ends render (GRID_ROWS * GRID_COLS) g s rng 0 fuel)
    as (res & Hres & Hsteps & Hscore & Hfix);
    [done|done|apply occupied_le|exact Hfuel|].
  exists res. split_and!; [done|done|done|]. intros Hgo. by apply Hfix.
Qed.


(** ** The pill under the controls and the tick *)

Lemma inBounds_valid p : inBounds GRID_ROWS GRID_COLS p ↔ isValidPos p = true.
Proof. unfold Pills.inBounds. by rewrite isValidPos_spec. Qed.

Lemma emptyAt_checked (g : Grid) p :
  wf g → isValidPos p = true → isEmpty (blockAtPos g p) = true → emptyAt g p.
Proof.
  intros Hwf Hv He. exists (blockAtPos g p).
  split; [by apply cellAt_blockAtPos|by apply isEmpty_spec].
Qed.

Lemma canMove_placed (g : Grid) pill dRow dCol :
  wf g → canMove g pill dRow dCol = true →
  pillPlaced g (movePill pill dRow dCol).
Proof.
  intros Hwf. unfold Pills.canMove, Pills.pillPlaced, movePill. simpl.
  destruct (isValidPos (shift (pos1 pill) dRow dCol)) eqn:H1; [|done].
  destruct (isValidPos (shift (pos2 pill) dRow dCol)) eqn:H2; [|done]. simpl.
  destruct (isEmpty (blockAtPos g (shift (pos1 pill) dRow dCol))) eqn:E1;
    [|done].
  destruct (isEmpty (blockAtPos g (shift (pos2 pill) dRow dCol))) eqn:E2;
    [|done].
  intros _. rewrite !inBounds_valid. split_and!; auto using emptyAt_checked.
Qed.

Lemma movePill_shape pill dRow dCol :
  pillShape pill → pillShape (movePill pill dRow dCol).
Proof.
  unfold pillShape, movePill. simpl. intros ->.
  destruct (orientation pill); unfold shift; simpl; f_equal; lia.
Qed.

Lemma pillOk_moved (s : Game) pill dRow dCol :
  wf (grid s) → pillShape pill → canMove (grid s) pill dRow dCol = true →
  pillOk (setActivePill (Some (movePill pill dRow dCol)) s).
Proof.
  intros Hwf Hshape Hmove p' [= <-]. split.
  - by apply movePill_shape.
  - by apply canMove_placed.
Qed.

Lemma left_keeps_pill s : wf (grid s) → pillOk s → pillOk (left s).
Proof.
  intros Hwf Hok. unfold Pills.left.
  destruct (activePill s) as [pill|] eqn:Hp; [|done].
  destruct (negb (gameOver s) && _) eqn:Hc; [|done].
  apply andb_true_iff in Hc as [_ Hc].
  apply pillOk_moved; [done| |done]. by apply Hok.
Qed.

Lemma right_keeps_pill s : wf (grid s) → pillOk s → pillOk (right s).
Proof.
  intros Hwf Hok. unfold Pills.right.
  destruct (activePill s) as [pill|] eqn:Hp; [|done].
  destruct (negb (gameOver s) && _) eqn:Hc; [|done].
  apply andb_true_iff in Hc as [_ Hc].
  apply pillOk_moved; [done| |done]. by apply Hok.
Qed.

Lemma rotate_keeps_pill s : wf (grid s) → pillOk s → pillOk (rotate s).
Proof.
  intros Hwf Hok. unfold Pills.rotate.
  destruct (activePill s) as [pill|] eqn:Hp; [|done].
  destruct (gameOver s); [done|].
  destruct (isValidPos (rotatedPos2 pill) && _) eqn:Hc; [|done].
  apply andb_true_iff in Hc as [Hv He].
  destruct (Hok pill Hp) as [Hshape (H1 & _ & E1 & _)].
  intros p' [= <-]. split.
  - unfold pillShape, rotatedPos2. simpl.
    destruct (orientation pill); unfold shift; simpl; f_equal; lia.
  - unfold Pills.pillPlaced. simpl.
    split_and!; [done|by apply inBounds_valid|done|by apply emptyAt_checked].
Qed.

Lemma gameStep_keeps_pill s : wf (grid s) → pillOk s → pillOk (gameStep s).1.
Proof.
  intros Hwf Hok. unfold Pills.gameStep.
  destruct (activePill s) as [pill|] eqn:Hp; [|done].
  destruct (gameOver s); [done|].
  destruct (canMove (grid s) pill 1 0) eqn:Hc.
  - apply pillOk_moved; [done| |done]. by apply Hok.
  - unfold lockActivePill. rewrite Hp. by intros p'.
Qed.

(** X1. Whatever the player does, the active pill keeps its shape (two cells
    one step apart along its orientation) and stays within the bounds on
    Empty cells of the grid. *)
Theorem controls_keep_pill (s : Game) :
  wf (grid s) → pillOk s →
  pillOk (left s) ∧ pillOk (right s) ∧ pillOk (rotate s) ∧
  pillOk (gameStep s).1.
Proof.
  intros Hwf Hok.
  split_and!; auto using left_keeps_pill, right_keeps_pill,
    rotate_keeps_pill, gameStep_keeps_pill.
Qed.

Lemma shift_back p dRow dCol :
  shift (shift p dRow dCol) (- dRow) (- dCol) = p.
Proof. destruct p. unfold shift. simpl. f_equal; lia. Qed.

(** X2. Rotating twice brings a flat pill back: when the first rotation
    stood the pill up, the second lays it down where it was. *)
Theorem rotate_twice (s : Game) (pill : Pill) :
  wf (grid s) → pillOk s → activePill s = Some pill →
  orientation pill = horizontal →
  rotate s ≠ s →
  rotate (rotate s) = s.
Proof.
  intros Hwf Hok Hp Hor Hrot.
  destruct (Hok pill Hp) as [Hshape (H1 & H2 & E1 & E2)].
  apply inBounds_valid in H2.
  destruct E2 as (b & Hb & Hty).
  rewrite cellAt_blockAtPos in Hb by done. injection Hb as <-.
  apply isEmpty_spec in Hty.
  unfold pillShape in Hshape. rewrite Hor in Hshape.
  destruct s as [g ap np sc lv go sp], pill as [p1 p2 c1 c2 o].
  simpl in *. subst.
  unfold Pills.rotate in Hrot |- *. simpl in *.
  destruct go; [done|].
  destruct (isValidPos (rotatedPos2 _) && _) eqn:Hc; [|done].
  unfold setActivePill. simpl.
  replace (rotatedPos2 _) with (shift p1 0 1).
  - by rewrite H2, Hty.
  - unfold rotatedPos2, shift. simpl. f_equal. lia.
Qed.

(** ** Spawning *)

Lemma getRandomColor_in rng :
  (getRandomColor rng).1 ∈ types ∧ (getRandomColor rng).1 ≠ EMPTY.
Proof.
  unfold getRandomColor, randomIndex. cbn [fst length types].
  pose proof (Nat.mod_upper_bound (rng 0) 3) as Hlt.
  destruct (rng 0 `mod` 3) as [|[|[|k]]]; cbn; [| | |lia];
    (split; [unfold types; rewrite !elem_of_cons; auto|done]).
Qed.

Lemma spawn_placed (g : Grid) c1 c2 :
  wf g → 0 < GRID_ROWS → 4 < GRID_COLS → spawnBlocked g = false →
  pillPlaced g {| pos1 := spawnPosition1; pos2 := spawnPosition2;
                  color1 := c1; color2 := c2; orientation := horizontal |}.
Proof.
  intros Hwf Hr Hc Hb. unfold spawnBlocked in Hb.
  apply orb_false_iff in Hb as [E1 E2].
  apply negb_false_iff in E1, E2.
  assert (isValidPos spawnPosition1 = true) as V1.
  { apply isValidPos_spec. unfold spawnPosition1, posAt. simpl. lia. }
  assert (isValidPos spawnPosition2 = true) as V2.
  { apply isValidPos_spec. unfold spawnPosition2, posAt. simpl. lia. }
  unfold Pills.pillPlaced. cbn [pos1 pos2]. rewrite !inBounds_valid.
  split_and!; [done|done| |]; by apply emptyAt_checked.
Qed.

(** X3. [spawnPill] in a closure whose grid has free spawn cells and
    whose game is not over: the current state changes only in its active
    pill, which becomes a flat pill of two palette colours at (0, 3) and
    (0, 4), within the bounds and on Empty cells of the grid the closure
    holds.  When that grid is the current one the pill is well placed in
    the new state. *)
Theorem spawnPill_free (render s : Game) (rng : Rng) :
  wf (grid render) → 0 < GRID_ROWS → 4 < GRID_COLS →
  gameOver render = false → spawnBlocked (grid render) = false →
  let s' := (spawnPill render s rng).1 in
  ∃ c1 c2,
    let pill := {| pos1 := spawnPosition1; pos2 := spawnPosition2;
                   color1 := c1; color2 := c2; orientation := horizontal |} in
    c1 ∈ types ∧ c2 ∈ types ∧
    s' = setActivePill (Some pill) s ∧
    pillShape pill ∧ pillPlaced (grid render) pill ∧
    (grid s = grid render → pillOk s').
Proof.
  intros Hwf Hr Hc Hgo Hb. unfold spawnPill.
  assert (bool_decide (length (grid render) = 0) = false) as ->.
  { apply bool_decide_eq_false. destruct Hwf as [-> _]. lia. }
  rewrite Hgo, Hb. cbn [orb].
  destruct (getRandomColor rng) as [c1 rng1] eqn:E1.
  destruct (getRandomColor rng1) as [c2 rng2] eqn:E2.
  cbn [fst]. exists c1, c2. cbn zeta. split_and!.
  - pose proof (getRandomColor_in rng) as [H _]. by rewrite E1 in H.
  - pose proof (getRandomColor_in rng1) as [H _]. by rewrite E2 in H.
  - done.
  - done.
  - by apply spawn_placed.
  - intros Hsame pill [= <-]. split; [done|]. cbn [grid setActivePill].
    rewrite Hsame. by apply spawn_placed.
Qed.

(** X4. [spawnPill] of the preview variant in a closure whose grid has
    free spawn cells, whose game is not over and which holds the
    previewed colours: the active pill takes the previewed colours, the
    speed goes back to [GAME_SPEED], a new pair of palette colours is
    previewed, and grid, score and game-over flag of the current state
    stay.  When the closure's grid is the current one the pill is well
    placed in the new state. *)
Theorem preview_spawnPill_free (render s : Game) (rng : Rng)
    (c1 c2 : BlockType) :
  wf (grid render) → 0 < GRID_ROWS → 4 < GRID_COLS →
  gameOver render = false → spawnBlocked (grid render) = false →
  nextPillColors render = Some (c1, c2) →
  let s' := (Preview.spawnPill render s rng).1 in
  activePill s' =
    Some {| pos1 := spawnPosition1; pos2 := spawnPosition2;
            color1 := c1; color2 := c2; orientation := horizontal |} ∧
  (grid s = grid render → pillOk s') ∧
  speed s' = GAME_SPEED ∧ grid s' = grid s ∧ score s' = score s ∧
  gameOver s' = gameOver s ∧
  ∃ n1 n2, nextPillColors s' = Some (n1, n2) ∧ n1 ∈ types ∧ n2 ∈ types.
Proof.
  intros Hwf Hr Hc Hgo Hb Hnext. unfold Preview.spawnPill.
  assert (bool_decide (length (grid render) = 0) = false) as ->.
  { apply bool_decide_eq_false. destruct Hwf as [-> _]. lia. }
  rewrite Hgo, Hb, Hnext. cbn [orb].
  destruct (getRandomColor rng) as [n1 rng1] eqn:E1.
  destruct (getRandomColor rng1) as [n2 rng2] eqn:E2.
  cbn. split_and!; try done.
  - intros Hsame pill [= <-]. split; [done|].
    cbn [grid setNextPillColors setSpeed setActivePill]. rewrite Hsame.
    by apply spawn_placed.
  - exists n1, n2. split_and!; [done| |].
    + pose proof (getRandomColor_in rng) as [H _]. by rewrite E1 in H.
    + pose proof (getRandomColor_in rng1) as [H _]. by rewrite E2 in H.
Qed.

(** ** Locking *)

Lemma occupied_setCell (g : Grid) r c b :
  wf g → r < GRID_ROWS → c < GRID_COLS →
  occupied (setCell g r c b) + (if isEmpty (blockAt g r c) then 0 else 1) =
  occupied g + (if isEmpty b then 0 else 1).
Proof.
  intros Hwf Hr Hc. unfold Pills.occupied.
  apply (gridSum_setCell (λ _ b, if isEmpty b then 0 else 1)); done.
Qed.

Lemma inBounds_cell p :
  inBounds GRID_ROWS GRID_COLS p →
  Z.to_nat (row p) < GRID_ROWS ∧ Z.to_nat (col p) < GRID_COLS ∧
  posAt (Z.to_nat (row p)) (Z.to_nat (col p)) = p.
Proof.
  intros [Hr Hc]. split_and!; [lia|lia|].
  destruct p as [r c]. unfold posAt. simpl in *. f_equal; lia.
Qed.

Lemma emptyAt_blockAtPos (g : Grid) p :
  wf g → emptyAt g p → isEmpty (blockAtPos g p) = true.
Proof.
  intros Hwf (b & Hb & Hty).
  rewrite cellAt_blockAtPos in Hb by eauto using cellAt_valid.
  injection Hb as <-. by apply isEmpty_spec.
Qed.

Lemma pillShape_apart pill : pillShape pill → pos1 pill ≠ pos2 pill.
Proof.
  unfold pillShape. intros -> Heq.
  destruct (pos1 pill) as [r c], (orientation pill);
    unfold shift in Heq; simpl in Heq; injection Heq; lia.
Qed.

Lemma lockPill_writes_frame (g : Grid) (pill : Pill) :
  wf g → pillShape pill → pillPlaced g pill →
  color1 pill ≠ EMPTY → color2 pill ≠ EMPTY →
  wf (lockPill g pill) ∧
  blockAtPos (lockPill g pill) (pos1 pill) =
    {| type := color1 pill; isVirus := false |} ∧
  blockAtPos (lockPill g pill) (pos2 pill) =
    {| type := color2 pill; isVirus := false |} ∧
  (∀ r c, posAt r c ≠ pos1 pill → posAt r c ≠ pos2 pill →
     blockAt (lockPill g pill) r c = blockAt g r c) ∧
  occupied (lockPill g pill) = occupied g + 2.
Proof.
  intros Hwf Hshape (B1 & B2 & E1 & E2) Hc1 Hc2.
  apply pillShape_apart in Hshape.
  apply emptyAt_blockAtPos in E1, E2; [|done..].
  apply inBounds_cell in B1 as (Hr1 & Hk1 & P1).
  apply inBounds_cell in B2 as (Hr2 & Hk2 & P2).
  unfold blockAtPos in *. unfold lockPill.
  set (r1 := Z.to_nat (row (pos1 pill))) in *.
  set (k1 := Z.to_nat (col (pos1 pill))) in *.
  set (r2 := Z.to_nat (row (pos2 pill))) in *.
  set (k2 := Z.to_nat (col (pos2 pill))) in *.
  assert ((r1, k1) ≠ (r2, k2)) as Hne.
  { intros [= Hr Hk]. apply Hshape. rewrite <-P1, <-P2. by rewrite Hr, Hk. }
  set (g1 := setCell g r1 k1 {| type := color1 pill; isVirus := false |}).
  assert (wf g1) as Hwf1 by by apply wf_setCell.
  split_and!.
  - by apply wf_setCell.
  - rewrite blockAt_setCell_ne by done. by apply blockAt_setCell_eq.
  - by apply blockAt_setCell_eq.
  - intros r c N1 N2.
    rewrite blockAt_setCell_ne by (intros [= -> ->]; by apply N2).
    unfold g1.
    rewrite blockAt_setCell_ne by (intros [= -> ->]; by apply N1). done.
  - pose proof (occupied_setCell g r1 k1
      {| type := color1 pill; isVirus := false |} Hwf Hr1 Hk1) as O1.
    pose proof (occupied_setCell g1 r2 k2
      {| type := color2 pill; isVirus := false |} Hwf1 Hr2 Hk2) as O2.
    fold g1 in O1. unfold g1 in O2 at 2.
    rewrite blockAt_setCell_ne in O2 by (intros [= Hr Hk]; apply Hne; congruence).
    rewrite E1 in O1. rewrite E2 in O2.
    assert (isEmpty {| type := color1 pill; isVirus := false |} = false) as F1
      by by apply isEmpty_false.
    assert (isEmpty {| type := color2 pill; isVirus := false |} = false) as F2
      by by apply isEmpty_false.
    rewrite F1 in O1. rewrite F2 in O2. lia.
Qed.

(** X5. Locking a pill that has its shape and lies within the bounds on Empty
    cells writes exactly its two cells: each receives a half of the
    pill's colour that is no virus, every other cell is as before, and
    the grid has two more occupied cells. *)
Theorem lockPill_writes (g : Grid) (pill : Pill) :
  wf g → pillShape pill → pillPlaced g pill →
  color1 pill ≠ EMPTY → color2 pill ≠ EMPTY →
  wf (lockPill g pill) ∧
  blockAtPos (lockPill g pill) (pos1 pill) =
    {| type := color1 pill; isVirus := false |} ∧
  blockAtPos (lockPill g pill) (pos2 pill) =
    {| type := color2 pill; isVirus := false |} ∧
  (∀ r c, posAt r c ≠ pos1 pill → posAt r c ≠ pos2 pill →
     blockAt (lockPill g pill) r c = blockAt g r c) ∧
  occupied (lockPill g pill) = occupied g + 2.
Proof. apply lockPill_writes_frame. Qed.

(** X6. The tick on an active pill of two colours: either the pill goes down
    one row and the grid stays, or the pill is locked: no pill stays
    active, the grid has two more occupied cells and is the grid handed
    to match detection.  The score never changes. *)
Theorem gameStep_tick (s : Game) (pill : Pill) :
  wf (grid s) → pillOk s → activePill s = Some pill → gameOver s = false →
  color1 pill ≠ EMPTY → color2 pill ≠ EMPTY →
  let s' := (gameStep s).1 in
  score s' = score s ∧ wf (grid s') ∧
  ((canMove (grid s) pill 1 0 = true ∧ grid s' = grid s ∧
    activePill s' = Some (movePill pill 1 0) ∧ (gameStep s).2 = None) ∨
   (canMove (grid s) pill 1 0 = false ∧ activePill s' = None ∧
    (gameStep s).2 = Some (grid s') ∧
    occupied (grid s') = occupied (grid s) + 2)).
Proof.
  intros Hwf Hok Hp Hgo Hc1 Hc2. destruct (Hok pill Hp) as [Hshape Hplaced].
  pose proof (lockPill_writes_frame (grid s) pill Hwf Hshape Hplaced Hc1 Hc2)
    as (Hwf' & _ & _ & _ & Hocc).
  unfold Pills.gameStep, lockActivePill. rewrite Hp, Hgo.
  destruct (canMove (grid s) pill 1 0); cbn.
  - split_and!; [done|done|]. by left.
  - split_and!; [done|done|]. by right.
Qed.

(** ** The spawn after a lock *)

Lemma spawnBlocked_placed (g : Grid) (pill : Pill) :
  wf g → pos1 pill = spawnPosition1 → pos2 pill = spawnPosition2 →
  pillPlaced g pill → spawnBlocked g = false.
Proof.
  intros Hwf H1 H2 (_ & _ & E1 & E2). rewrite H1 in E1. rewrite H2 in E2.
  apply emptyAt_blockAtPos in E1, E2; [|done..].
  change (isEmpty (blockAt g 0 3) = true) in E1.
  change (isEmpty (blockAt g 0 4) = true) in E2.
  unfold spawnBlocked. by rewrite E1, E2.
Qed.

Lemma spawnBlocked_locked (g : Grid) (pill : Pill) :
  wf g → pos1 pill = spawnPosition1 →
  pillShape pill → pillPlaced g pill →
  color1 pill ≠ EMPTY → color2 pill ≠ EMPTY →
  cellAt (lockPill g pill) spawnPosition1 =
    Some {| type := color1 pill; isVirus := false |} ∧
  spawnBlocked (lockPill g pill) = true.
Proof.
  intros Hwf H1 Hshape Hplaced Hc1 Hc2.
  destruct (lockPill_writes_frame g pill Hwf Hshape Hplaced Hc1 Hc2)
    as (Hwf' & Hb1 & _).
  destruct Hplaced as (B1 & _). rewrite H1 in Hb1, B1.
  split.
  - rewrite cellAt_blockAtPos; [by rewrite Hb1|done|].
    by apply inBounds_valid.
  - change (blockAt (lockPill g pill) 0 3 =
            {| type := color1 pill; isVirus := false |}) in Hb1.
    unfold spawnBlocked. rewrite Hb1.
    by rewrite (proj2 (isEmpty_false _)).
Qed.

(** C8, on the code. The blocked-spawn test reads the grid of the render
    in which the pill was locked.  When a pill on the spawn cells cannot
    go down and its lock completes no run, the cascade the tick sets off
    ends with the spawn cells occupied by the locked halves, and yet
    with the game not over and a new pill active on those very cells; a
    [spawnPill] reading the grid after the lock would have raised game
    over instead. *)
Theorem spawn_tests_grid_before_lock (s : Game) (pill : Pill) (rng : Rng)
    (fuel : nat) :
  wf (grid s) → 0 < GRID_ROWS → 4 < GRID_COLS →
  activePill s = Some pill → gameOver s = false →
  pos1 pill = spawnPosition1 → pos2 pill = spawnPosition2 →
  pillOk s → color1 pill ≠ EMPTY → color2 pill ≠ EMPTY →
  canMove (grid s) pill 1 0 = false →
  findMatches (lockPill (grid s) pill) = [] →
  ∃ res,
    tick (S fuel) s rng = Some res ∧
    grid (game res) = lockPill (grid s) pill ∧
    spawnBlocked (grid (game res)) = true ∧
    gameOver (game res) = false ∧
    (∃ p, activePill (game res) = Some p ∧
          pos1 p = spawnPosition1 ∧ pos2 p = spawnPosition2) ∧
    (spawnPill (gameStep s).1 (gameStep s).1 rng).1 =
      setGameOver true (gameStep s).1.
Proof.
  intros Hwf Hr Hc Hp Hgo H1 H2 Hok Hc1 Hc2 Hmove Hnone.
  destruct (Hok pill Hp) as [Hshape Hplaced].
  pose proof (spawnBlocked_placed _ _ Hwf H1 H2 Hplaced) as Hfree.
  destruct (spawnBlocked_locked _ _ Hwf H1 Hshape Hplaced Hc1 Hc2)
    as [Hcell Hblocked].
  assert (gameStep s =
          (setActivePill None (setGrid (lockPill (grid s) pill) s),
           Some (lockPill (grid s) pill))) as Hstep.
  { unfold Pills.gameStep, lockActivePill. by rewrite Hp, Hgo, Hmove. }
  set (s1 := setActivePill None (setGrid (lockPill (grid s) pill) s)) in *.
  destruct (spawnPill_free s s1 rng Hwf Hr Hc Hgo Hfree)
    as (c1 & c2 & _ & _ & Hspawn & _).
  cbn zeta in Hspawn.
  unfold Pills.tick. rewrite Hstep. cbn [Pills.checkMatches].
  rewrite Hgo, Hnone. cbn [length]. rewrite bool_decide_eq_false_2 by lia.
  destruct (spawnPill s s1 rng) as [s2 rng2]. cbn [fst] in Hspawn.
  subst s2. eexists. split; [done|]. cbn [game].
  split_and!; [done|done|done| |].
  - eexists. split; [done|]. done.
  - cbn [fst].
    apply (spawnPill_blocked s1 s1 rng
             {| type := color1 pill; isVirus := false |}); [by left|done|done].
Qed.

(** ** A new game *)

Lemma blockAt_createEmptyGrid r c :
  blockAt (createEmptyGrid GRID_ROWS GRID_COLS) r c = emptyBlock.
Proof.
  unfold blockAt, createEmptyGrid.
  destruct (decide (r < GRID_ROWS)) as [Hr|Hr].
  - rewrite lookup_total_replicate_2 by done.
    destruct (decide (c < GRID_COLS)) as [Hc|Hc].
    + by rewrite lookup_total_replicate_2.
    + rewrite list_lookup_total_alt.
      assert (replicate GRID_COLS emptyBlock !! c = None) as ->; [|done].
      apply lookup_replicate_None. lia.
  - rewrite (list_lookup_total_alt (replicate _ _)).
    assert (replicate GRID_ROWS (replicate GRID_COLS emptyBlock) !! r = None)
      as ->; [|done].
    apply lookup_replicate_None. lia.
Qed.

Lemma sumTo_zero n F : (∀ i, i < n → F i = 0) → sumTo n F = 0.
Proof.
  induction n as [|n IH]; intros HF; [done|].
  rewrite sumTo_S, IH by (intros; apply HF; lia).
  rewrite HF by lia. done.
Qed.

Lemma sumTo_from k n F B :
  (∀ i, i < k → F i = 0) → (∀ i, i < n → F i ≤ B) → sumTo n F ≤ (n - k) * B.
Proof.
  intros H0 HB. induction n as [|n IH]; [done|].
  rewrite sumTo_S. destruct (decide (n < k)) as [Hlt|Hge].
  - rewrite sumTo_zero by (intros; apply H0; lia).
    rewrite H0 by lia. lia.
  - specialize (IH ltac:(intros; apply HB; lia)).
    specialize (HB n ltac:(lia)).
    replace (S n - k) with (S (n - k)) by lia. lia.
Qed.

Lemma occupied_createEmptyGrid :
  occupied (createEmptyGrid GRID_ROWS GRID_COLS) = 0.
Proof.
  unfold Pills.occupied, gridSum.
  apply sumTo_zero. intros r _. apply sumTo_zero. intros c _.
  by rewrite blockAt_createEmptyGrid.
Qed.

(** With its top [k] rows Empty a grid holds at most as many occupied
    cells as the rows below have cells. *)
Lemma occupied_below k g :
  (∀ r c, r < k → blockAt g r c = emptyBlock) →
  occupied g ≤ (GRID_ROWS - k) * GRID_COLS.
Proof.
  intros Htop. unfold Pills.occupied, gridSum. apply sumTo_from.
  - intros r Hr. apply sumTo_zero. intros c _. by rewrite Htop.
  - intros r _. etrans; [apply (sumTo_le _ _ 1)|lia].
    intros c _. destruct (isEmpty _); lia.
Qed.

(** The loop of [startNewGame]: [placed] counts the occupied cells, the
    top eight rows stay Empty and every occupied cell is a virus of a
    palette colour. *)
Lemma placeViruses_inv vc fuel : ∀ placed g rng g' rng',
  8 < GRID_ROWS → 0 < GRID_COLS →
  placeViruses fuel vc placed g rng = Some (g', rng') →
  placed ≤ vc → wf g → occupied g = placed →
  (∀ r c, r < 8 → blockAt g r c = emptyBlock) →
  (∀ r c, type (blockAt g r c) ≠ EMPTY →
     isVirus (blockAt g r c) = true ∧ type (blockAt g r c) ∈ types) →
  wf g' ∧ occupied g' = vc ∧
  (∀ r c, r < 8 → blockAt g' r c = emptyBlock) ∧
  (∀ r c, type (blockAt g' r c) ≠ EMPTY →
     isVirus (blockAt g' r c) = true ∧ type (blockAt g' r c) ∈ types).
Proof.
  induction fuel as [|fuel IH]; intros placed g rng g' rng' HR HC Hrun Hle
    Hwf Hocc Htop Hvir; cbn [Pills.placeViruses] in Hrun;
    destruct (bool_decide_reflect (placed < vc)) as [Hlt|Hge];
    try (injection Hrun as <- <-; split_and!; [done|lia|done|done]);
    [done|].
  unfold randomIndex in Hrun. cbn [fst snd] in Hrun.
  set (r := rng 0 `mod` (GRID_ROWS - 8) + 8) in *.
  set (c := rng 1 `mod` GRID_COLS) in *.
  assert (r < GRID_ROWS) as Hr.
  { pose proof (Nat.mod_upper_bound (rng 0) (GRID_ROWS - 8)). lia. }
  assert (c < GRID_COLS) as Hc.
  { apply Nat.mod_upper_bound. lia. }
  destruct (isEmpty (blockAt g r c)) eqn:He.
  - destruct (getRandomColor _) as [t rng3] eqn:Et.
    pose proof (getRandomColor_in (λ k, rng (S (S k)))) as [Hin Hne].
    rewrite Et in Hin, Hne. cbn [fst] in Hin, Hne.
    apply IH in Hrun; [done|done|done|lia|by apply wf_setCell|..].
    + pose proof (occupied_setCell g r c {| type := t; isVirus := true |}
        Hwf Hr Hc) as Ho.
      rewrite He in Ho.
      assert (isEmpty {| type := t; isVirus := true |} = false) as F
        by by apply isEmpty_false.
      rewrite F in Ho. lia.
    + intros r0 c0 Hr0. rewrite blockAt_setCell_ne; [by apply Htop|].
      intros [= -> _]. lia.
    + intros r0 c0.
      destruct (blockAt_setCell_cases g r c {| type := t; isVirus := true |}
        r0 c0) as [-> | ->]; [done|apply Hvir].
  - by apply IH in Hrun.
Qed.

(** X7. A new game, when the virus loop ends: the grid has its dimensions
    and holds exactly [level * 4 + 4] occupied cells, all of them viruses
    of a palette colour below the top eight rows; the score is 0, the
    game is not over, and a flat pill is active on the free spawn
    cells. *)
Theorem startNewGame_fresh (fuel : nat) (s s' : Game) (rng rng2 : Rng) :
  8 < GRID_ROWS → 4 < GRID_COLS →
  startNewGame fuel s rng = Some (s', rng2) →
  wf (grid s') ∧
  occupied (grid s') = level s * 4 + 4 ∧
  (∀ r c, r < 8 → blockAt (grid s') r c = emptyBlock) ∧
  (∀ r c, type (blockAt (grid s') r c) ≠ EMPTY →
     isVirus (blockAt (grid s') r c) = true ∧
     type (blockAt (grid s') r c) ∈ types) ∧
  score s' = 0 ∧ gameOver s' = false ∧ level s' = level s ∧
  (∃ pill, activePill s' = Some pill ∧
     pos1 pill = spawnPosition1 ∧ pos2 pill = spawnPosition2 ∧
     orientation pill = horizontal ∧
     color1 pill ∈ types ∧ color2 pill ∈ types) ∧
  pillOk s'.
Proof.
  intros HR HC Hrun. unfold Pills.startNewGame in Hrun.
  destruct (placeViruses _ _ _ _ _) as [[g' rng1]|] eqn:Hloop; [|done].
  apply placeViruses_inv in Hloop as (Hwf & Hocc & Htop & Hvir);
    [|lia|lia|lia|apply wf_createEmptyGrid|apply occupied_createEmptyGrid
     |intros; apply blockAt_createEmptyGrid
     |intros r c; by rewrite blockAt_createEmptyGrid].
  destruct (getRandomColor rng1) as [c1 rng3] eqn:E1.
  destruct (getRandomColor rng3) as [c2 rng4] eqn:E2.
  injection Hrun as <- <-. cbn.
  pose proof (getRandomColor_in rng1) as [H1 _]. rewrite E1 in H1.
  pose proof (getRandomColor_in rng3) as [H2 _]. rewrite E2 in H2.
  split_and!; try done.
  - eexists. split; [done|]. by cbn.
  - intros pill [= <-]. split; [done|]. apply spawn_placed; [done|lia|lia|].
    unfold spawnBlocked. by rewrite !Htop by lia.
Qed.

(** X8. The virus loop cannot end when the level asks for more viruses than
    the rows from row 8 down have cells: whatever the draws and however
    many of them, [startNewGame] does not return. *)
Theorem startNewGame_overfull (fuel : nat) (s : Game) (rng : Rng) :
  8 < GRID_ROWS → 0 < GRID_COLS →
  (GRID_ROWS - 8) * GRID_COLS < level s * 4 + 4 →
  startNewGame fuel s rng = None.
Proof.
  intros HR HC Hfull. unfold Pills.startNewGame.
  destruct (placeViruses _ _ _ _ _) as [[g' rng1]|] eqn:Hloop; [|done].
  apply placeViruses_inv in Hloop as (Hwf & Hocc & Htop & _);
    [|lia|lia|lia|apply wf_createEmptyGrid|apply occupied_createEmptyGrid
     |intros; apply blockAt_createEmptyGrid
     |intros r c; by rewrite blockAt_createEmptyGrid].
  pose proof (occupied_below 8 g' Htop). unfold virusCount in Hocc. lia.
Qed.

(** ** Clearing, cell by cell *)

Lemma clearCells_blockAt ps : ∀ g r c,
  Forall (λ p, ∃ r c, p = posAt r c ∧ r < GRID_ROWS ∧ c < GRID_COLS) ps →
  wf g → r < GRID_ROWS → c < GRID_COLS →
  (posAt r c ∈ ps → blockAt (clearCells g ps) r c = emptyBlock) ∧
  (posAt r c ∉ ps → blockAt (clearCells g ps) r c = blockAt g r c).
Proof.
  induction ps as [|p ps IH]; intros g r c Hps Hwf Hr Hc.
  { split; [by intros ?%elem_of_nil|done]. }
  apply Forall_cons in Hps as [(r0 & c0 & -> & Hr0 & Hc0) Hps].
  cbn [clearCells foldl]. cbn [row col posAt]. rewrite !Nat2Z.id.
  destruct (IH (setCell g r0 c0 emptyBlock) r c Hps) as [Hin Hout];
    [by apply wf_setCell|done|done|].
  fold (clearCells (setCell g r0 c0 emptyBlock) ps).
  destruct (decide (posAt r c ∈ ps)) as [Hmem|Hmem].
  - split; [intros _; by apply Hin|].
    intros Hno. exfalso. apply Hno, elem_of_cons. by right.
  - rewrite Hout by done. split.
    + intros [Heq|?]%elem_of_cons; [|done].
      apply posAt_inj in Heq as [-> ->]. by apply blockAt_setCell_eq.
    + intros Hno. apply blockAt_setCell_ne. intros [= -> ->].
      apply Hno, elem_of_cons. by left.
Qed.

Lemma clearCells_occupied ps : ∀ g,
  wf g → NoDup ps →
  Forall (λ p, ∃ r c, p = posAt r c ∧ r < GRID_ROWS ∧ c < GRID_COLS ∧
                       isEmpty (blockAt g r c) = false) ps →
  occupied (clearCells g ps) + length ps = occupied g.
Proof.
  induction ps as [|p ps IH]; intros g Hwf Hnd Hps; [cbn; lia|].
  apply NoDup_cons in Hnd as [Hp Hnd].
  apply Forall_cons in Hps as [(r0 & c0 & -> & Hr0 & Hc0 & Hocc) Hps].
  cbn [clearCells foldl length]. cbn [row col posAt]. rewrite !Nat2Z.id.
  fold (clearCells (setCell g r0 c0 emptyBlock) ps).
  pose proof (occupied_setCell g r0 c0 emptyBlock Hwf Hr0 Hc0) as O.
  rewrite Hocc in O. change (isEmpty emptyBlock) with true in O.
  cbv iota in O.
  assert (occupied (clearCells (setCell g r0 c0 emptyBlock) ps) + length ps =
          occupied (setCell g r0 c0 emptyBlock)) as IH'; [|lia].
  apply IH; [by apply wf_setCell|done|].
  apply Forall_forall. intros q Hq.
  rewrite Forall_forall in Hps.
  destruct (Hps q Hq) as (r & c & -> & Hr & Hc & Ho).
  exists r, c. split_and!; [done..|].
  rewrite blockAt_setCell_ne; [done|]. by intros [= -> ->].
Qed.

Lemma clearMatches_frame (s : Game) (g : Grid) :
  wf g →
  let res := clearMatches s g (findMatches g) in
  grid res.1 = res.2 ∧ wf res.2 ∧ gameOver res.1 = gameOver s ∧
  score res.1 + 100 * occupied res.2 = score s + 100 * occupied g ∧
  ∀ r c, r < GRID_ROWS → c < GRID_COLS →
    (matched GRID_ROWS GRID_COLS g (posAt r c) →
       blockAt res.2 r c = emptyBlock) ∧
    (¬ matched GRID_ROWS GRID_COLS g (posAt r c) →
       blockAt res.2 r c = blockAt g r c).
Proof.
  intros Hwf. cbn zeta. unfold clearMatches. cbn [fst snd grid score gameOver].
  destruct (uniqueClear_spec (findMatches g)) as [Hnd Hin].
  assert (Forall (λ p, ∃ r c, p = posAt r c ∧ r < GRID_ROWS ∧ c < GRID_COLS ∧
                               isEmpty (blockAt g r c) = false)
            (uniqueClear (findMatches g))) as Hall.
  { apply Forall_forall. intros p Hp. apply matched_occupied.
    by apply findMatches_spec, Hin. }
  assert (Forall (λ p, ∃ r c, p = posAt r c ∧ r < GRID_ROWS ∧ c < GRID_COLS)
            (uniqueClear (findMatches g))) as Hvalid.
  { eapply Forall_impl; [exact Hall|]. intros p (r & c & ? & ? & ? & _).
    eauto. }
  pose proof (clearCells_occupied _ g Hwf Hnd Hall) as Hocc.
  split_and!; [done|by apply clearCells_measures|done|simpl; lia|].
  intros r c Hr Hc.
  destruct (clearCells_blockAt _ g r c Hvalid Hwf Hr Hc) as [Hi Ho].
  split; intros Hm.
  - by apply Hi, Hin, findMatches_spec.
  - apply Ho. intros Hmem. by apply Hm, findMatches_spec, Hin.
Qed.

(** X9. The clearing branch of [checkMatches]: exactly the cells lying on
    three equal non-Empty cells in a row or a column become Empty cells,
    every other cell keeps its block, and the score grows by 100 for
    each occupied cell the grid loses. *)
Theorem clearMatches_exact (s : Game) (g : Grid) (r c : nat) :
  wf g → r < GRID_ROWS → c < GRID_COLS →
  let res := clearMatches s g (findMatches g) in
  score res.1 + 100 * occupied res.2 = score s + 100 * occupied g ∧
  (matched GRID_ROWS GRID_COLS g (posAt r c) →
     blockAt res.2 r c = emptyBlock) ∧
  (¬ matched GRID_ROWS GRID_COLS g (posAt r c) →
     blockAt res.2 r c = blockAt g r c).
Proof.
  intros Hwf Hr Hc.
  destruct (clearMatches_frame s g Hwf) as (_ & _ & _ & Hscore & Hcells).
  split; [done|]. by apply Hcells.
Qed.

(** ** Gravity settles *)

Lemma gravityPasses_S n g :
  gravityPasses (S n) g = (gravityPass (gravityPasses n g)).1.
Proof. done. Qed.

Lemma gravityPasses_measures n g :
  wf g →
  occupied (gravityPasses n g) = occupied g ∧
  fallRoom (gravityPasses n g) ≤ fallRoom g.
Proof.
  intros Hwf. induction n as [|n [IHo IHf]]; [done|].
  rewrite gravityPasses_S.
  destruct (gravityPass_measures (gravityPasses n g)) as (Ho & Hf & _);
    [by apply gravityPasses_wf|].
  split; [congruence|lia].
Qed.

Lemma gravityPasses_progress n g :
  wf g →
  (gravityPass (gravityPasses n g)).2 = false ∨
  fallRoom (gravityPass (gravityPasses n g)).1 + n + 1 ≤ fallRoom g.
Proof.
  intros Hwf. induction n as [|n IH].
  - change (gravityPasses 0 g) with g.
    destruct (gravityPass_measures g Hwf) as (_ & _ & Hm).
    destruct (gravityPass g).2; [right|by left].
    specialize (Hm eq_refl). lia.
  - rewrite gravityPasses_S. destruct IH as [Hset|Hroom].
    + left. pose proof (gravityPass_settled _ Hset) as [Heq _].
      by rewrite Heq.
    + destruct (gravityPass_measures (gravityPass (gravityPasses n g)).1)
        as (_ & _ & Hm); [by apply gravityPass_wf, gravityPasses_wf|].
      destruct (gravityPass (gravityPass (gravityPasses n g)).1).2;
        [right|by left].
      specialize (Hm eq_refl). lia.
Qed.

(** X10. Repeated gravity passes keep the number of occupied cells and come
    to rest: after as many passes as the occupied cells have rows left
    below them, one more pass moves nothing and returns the grid as it
    is. *)
Theorem gravity_settles (g : Grid) (n : nat) :
  wf g → fallRoom g ≤ n →
  occupied (gravityPasses n g) = occupied g ∧
  gravityPass (gravityPasses n g) = (gravityPasses n g, false).
Proof.
  intros Hwf Hn. split; [by apply gravityPasses_measures|].
  destruct (gravityPasses_progress n g Hwf) as [Hset|Hroom]; [|lia].
  pose proof (gravityPass_settled _ Hset) as [Heq _].
  destruct (gravityPass (gravityPasses n g)) as [g' m]. simpl in *.
  by subst.
Qed.

(** ** The score of a cascade *)

Lemma cascade_conserves render fuel : ∀ n s rng g res,
  wf g → grid s = g →
  (checkMatches fuel n render s rng g = Some res →
   score (game res) + 100 * occupied (grid (game res)) =
   score s + 100 * occupied g) ∧
  (applyGravity fuel n render s rng g = Some res →
   score (game res) + 100 * occupied (grid (game res)) =
   score s + 100 * occupied g).
Proof.
  induction fuel as [|fuel IH]; intros n s rng g res Hwf Hgrid; [done|].
  split.
  - cbn [Pills.checkMatches]. destruct (gameOver render).
    { intros [= <-]. cbn. by rewrite Hgrid. }
    destruct (bool_decide _).
    + destruct (clearMatches_frame s g Hwf) as (Hg & Hwf' & _ & Hsc & _).
      destruct (clearMatches s g (findMatches g)) as [s1 g1].
      cbn [fst snd] in *. intros Hrun.
      destruct (IH (S n) s1 rng g1 res Hwf' Hg) as [_ Hgr].
      specialize (Hgr Hrun). lia.
    + destruct (spawnPill_frame render s rng) as [Hg Hsc].
      destruct (spawnPill render s rng) as [s2 rng2]. cbn [fst] in *.
      intros [= <-]. cbn. rewrite Hg, Hsc, Hgrid. done.
  - cbn [Pills.applyGravity]. destruct (gameOver render).
    { intros [= <-]. cbn. by rewrite Hgrid. }
    destruct (gravityPass_measures g Hwf) as (Hocc & _ & _).
    pose proof (gravityPass_wf g Hwf) as Hwf'.
    pose proof (gravityPass_settled g) as Hset.
    destruct (gravityPass g) as [g1 moved]. cbn [fst snd] in *.
    destruct moved.
    + intros Hrun.
      destruct (IH n (setGrid g1 s) rng g1 res Hwf' eq_refl) as [_ Hg].
      specialize (Hg Hrun). cbn in Hg. lia.
    + destruct (Hset eq_refl) as [-> _]. intros Hrun.
      destruct (IH n s rng g res Hwf Hgrid) as [Hc _]. by apply Hc.
Qed.

(** X11. Over a whole cascade, however many clearing steps and gravity passes
    it takes, the score grows by exactly 100 for each occupied cell the
    grid has lost when the cascade ends. *)
Theorem cascade_score (g : Grid) (render s : Game) (rng : Rng)
    (fuel : nat) :
  wf g → grid s = g → cascadeFuel ≤ fuel →
  ∃ res, checkMatches fuel 0 render s rng g = Some res ∧
         occupied (grid (game res)) ≤ occupied g ∧
         score (game res) =
           score s + 100 * (occupied g - occupied (grid (game res))).
Proof.
  intros Hwf Hgrid Hfuel.
  destruct (cascade_ends render (GRID_ROWS * GRID_COLS) g s rng 0 fuel)
    as (res & Hres & _ & Hscore & _);
    [done|done|apply occupied_le|exact Hfuel|].
  exists res. split; [done|].
  destruct (cascade_conserves render fuel 0 s rng g res Hwf Hgrid) as [Hc _].
  specialize (Hc Hres). lia.
Qed.

(** ** Clearing without the filter *)

Lemma grid_ext (g g' : Grid) :
  wf g → wf g' →
  (∀ r c, r < GRID_ROWS → c < GRID_COLS → blockAt g r c = blockAt g' r c) →
  g = g'.
Proof.
  intros [Hl Hr] [Hl' Hr'] Hcells.
  apply (list_eq_same_length _ _ GRID_ROWS); [done|done|].
  intros i x y Hi Hx Hy.
  pose proof (Forall_lookup_1 _ _ _ _ Hr Hx) as Hlx.
  pose proof (Forall_lookup_1 _ _ _ _ Hr' Hy) as Hly.
  apply (list_eq_same_length _ _ GRID_COLS); [done|done|].
  intros j p q Hj Hp Hq.
  specialize (Hcells i j Hi Hj). unfold blockAt in Hcells.
  rewrite (list_lookup_total_correct _ _ _ Hx) in Hcells.
  rewrite (list_lookup_total_correct _ _ _ Hy) in Hcells.
  rewrite (list_lookup_total_correct _ _ _ Hp) in Hcells.
  by rewrite (list_lookup_total_correct _ _ _ Hq) in Hcells.
Qed.

Lemma clearCells_unique (g : Grid) (l : list Position) :
  wf g →
  Forall (λ p, ∃ r c, p = posAt r c ∧ r < GRID_ROWS ∧ c < GRID_COLS) l →
  clearCells g (uniqueClear l) = clearCells g l.
Proof.
  intros Hwf Hl. destruct (uniqueClear_spec l) as [_ Hin].
  assert (Forall (λ p, ∃ r c, p = posAt r c ∧ r < GRID_ROWS ∧ c < GRID_COLS)
            (uniqueClear l)) as Hu.
  { rewrite Forall_forall in *. intros p Hp. by apply Hl, Hin. }
  apply grid_ext; [by apply clearCells_measures..|].
  intros r c Hr Hc.
  destruct (clearCells_blockAt _ g r c Hu Hwf Hr Hc) as [U1 U2].
  destruct (clearCells_blockAt _ g r c Hl Hwf Hr Hc) as [L1 L2].
  destruct (decide (posAt r c ∈ l)) as [Hmem|Hmem].
  - rewrite L1 by done. apply U1. by apply Hin.
  - rewrite L2 by done. apply U2. intros Hm. by apply Hmem, Hin.
Qed.

Lemma length_unique (l' l : list Position) :
  NoDup l' → (∀ x, x ∈ l' ↔ x ∈ l) →
  length l' ≤ length l ∧ (length l = length l' ↔ NoDup l).
Proof.
  intros Hnd Hin.
  assert (l' ⊆+ l) as Hsub.
  { apply NoDup_submseteq; [done|]. intros x. apply Hin. }
  split; [by apply submseteq_length|]. split.
  - intros Hlen. rewrite <-(submseteq_length_Permutation l' l); [done|done|lia].
  - intros Hnd'. symmetry. apply Permutation_length.
    by apply NoDup_Permutation.
Qed.

(** X25. The variant that clears without the duplicate filter empties
    the same cells as the variant with it, but scores every entry of
    the list: its gain is at least the filtered gain, and the two agree
    exactly when match detection lists no cell twice, that is when no
    cell lies on both a row run and a column run. *)
Theorem clearMatchesAll_overcounts (s : Game) (g : Grid) :
  wf g →
  let plain := clearMatchesAll s g (findMatches g) in
  let filtered := clearMatches s g (findMatches g) in
  plain.2 = filtered.2 ∧ grid plain.1 = grid filtered.1 ∧
  score filtered.1 ≤ score plain.1 ∧
  (score plain.1 = score filtered.1 ↔ NoDup (findMatches g)).
Proof.
  intros Hwf. cbn zeta. unfold clearMatchesAll, clearMatches.
  cbn [fst snd grid score setGrid addScore].
  assert (Forall (λ p, ∃ r c, p = posAt r c ∧ r < GRID_ROWS ∧ c < GRID_COLS)
            (findMatches g)) as Hvalid.
  { apply Forall_forall. intros p Hp%findMatches_spec.
    destruct (matched_occupied g p Hp) as (r & c & ? & ? & ? & _). eauto. }
  destruct (uniqueClear_spec (findMatches g)) as [Hnd Hin].
  destruct (length_unique _ _ Hnd Hin) as [Hle Heq].
  rewrite clearCells_unique by done.
  split_and!; [done|done|lia|]. rewrite <-Heq. lia.
Qed.

End Board.

(** ** The example boards *)

Lemma wf_gridOf f : wf GRID_ROWS GRID_COLS (gridOf f).
Proof.
  unfold gridOf. split.
  - by rewrite length_fmap, length_seq.
  - apply Forall_fmap, Forall_forall. intros r _. unfold compose.
    by rewrite length_fmap, length_seq.
Qed.

Lemma canMove_iff_witness :
  wf GRID_ROWS GRID_COLS (createEmptyGrid GRID_ROWS GRID_COLS) ∧
  (canMove GRID_ROWS GRID_COLS (createEmptyGrid GRID_ROWS GRID_COLS)
     spawnedPill 1 0 = true ↔
   inBounds GRID_ROWS GRID_COLS (shift (pos1 spawnedPill) 1 0) ∧
   inBounds GRID_ROWS GRID_COLS (shift (pos2 spawnedPill) 1 0) ∧
   emptyAt (createEmptyGrid GRID_ROWS GRID_COLS) (shift (pos1 spawnedPill) 1 0) ∧
   emptyAt (createEmptyGrid GRID_ROWS GRID_COLS) (shift (pos2 spawnedPill) 1 0)).
Proof.
  split; [apply wf_createEmptyGrid|].
  apply (canMove_iff GRID_ROWS GRID_COLS). apply wf_createEmptyGrid.
Defined.

Lemma gravity_settled_witness :
  wf GRID_ROWS GRID_COLS settledGrid ∧
  (gravityPass GRID_ROWS GRID_COLS settledGrid).2 = false ∧
  18 + 1 < GRID_ROWS ∧ 7 < GRID_COLS ∧
  type (blockAt settledGrid 18 7) ≠ EMPTY ∧
  isVirus (blockAt settledGrid 18 7) = false ∧
  (gravityPass GRID_ROWS GRID_COLS settledGrid).1 = settledGrid ∧
  type (blockAt settledGrid (18 + 1) 7) ≠ EMPTY.
Proof.
  assert ((gravityPass GRID_ROWS GRID_COLS settledGrid).2 = false) as Hs
    by (vm_compute; reflexivity).
  assert (18 + 1 < GRID_ROWS) as Hr by (unfold GRID_ROWS; lia).
  assert (7 < GRID_COLS) as Hc by (unfold GRID_COLS; lia).
  assert (type (blockAt settledGrid 18 7) ≠ EMPTY) as Ho
    by (vm_compute; discriminate).
  assert (isVirus (blockAt settledGrid 18 7) = false) as Hv
    by (vm_compute; reflexivity).
  pose proof (gravity_settled GRID_ROWS GRID_COLS settledGrid 18 7
                (wf_gridOf _) Hs Hr Hc Ho Hv) as [Hfix Hbelow].
  split; [apply wf_gridOf|]. repeat (split; [assumption|]). exact Hbelow.
Defined.

Lemma gravity_keeps_viruses_witness :
  wf GRID_ROWS GRID_COLS floatingGrid ∧
  isVirus (virus RED) = true ∧ type (virus RED) ≠ EMPTY ∧
  (blockAt (gravityPasses GRID_ROWS GRID_COLS 10 floatingGrid) 10 4 = virus RED
   ↔ blockAt floatingGrid 10 4 = virus RED).
Proof.
  assert (type (virus RED) ≠ EMPTY) as Hb by (simpl; discriminate).
  split; [apply wf_gridOf|]. split; [reflexivity|]. split; [exact Hb|].
  apply (gravity_keeps_viruses GRID_ROWS GRID_COLS floatingGrid 10 10 4
           (virus RED) (wf_gridOf _) eq_refl Hb).
Defined.

Lemma findMatches_empty_iff_witness :
  wf GRID_ROWS GRID_COLS settledGrid ∧
  (findMatches GRID_ROWS GRID_COLS settledGrid = [] ↔
   ¬ hasRun GRID_ROWS GRID_COLS settledGrid).
Proof.
  split; [apply wf_gridOf|].
  apply (findMatches_empty_iff GRID_ROWS GRID_COLS settledGrid (wf_gridOf _)).
Defined.

Lemma cascade_terminates_witness :
  wf GRID_ROWS GRID_COLS settledGrid ∧
  grid (gameWith settledGrid) = settledGrid ∧
  cascadeFuel GRID_ROWS GRID_COLS ≤ cascadeFuel GRID_ROWS GRID_COLS ∧
  ∃ res,
    checkMatches GRID_ROWS GRID_COLS (cascadeFuel GRID_ROWS GRID_COLS) 0
      fallingGame (gameWith settledGrid) (constRng 0) settledGrid = Some res ∧
    steps res ≤ GRID_ROWS * GRID_COLS ∧
    score (gameWith settledGrid) ≤ score (game res) ∧
    (gameOver fallingGame = false →
     findMatches GRID_ROWS GRID_COLS (grid (game res)) = []).
Proof.
  split; [apply wf_gridOf|]. split; [reflexivity|]. split; [apply le_n|].
  apply (cascade_terminates GRID_ROWS GRID_COLS settledGrid
           fallingGame (gameWith settledGrid) (constRng 0)
           (cascadeFuel GRID_ROWS GRID_COLS) (wf_gridOf _) eq_refl (le_n _)).
Defined.

Lemma pillOk_fallingGame : pillOk GRID_ROWS GRID_COLS fallingGame.
Proof.
  intros pill [= <-]. split; [reflexivity|].
  unfold pillPlaced, inBounds, emptyAt. cbn.
  split_and!; try lia; eexists; (split; [vm_compute; reflexivity|reflexivity]).
Defined.

Lemma pillOk_stuckGame : pillOk GRID_ROWS GRID_COLS stuckGame.
Proof.
  intros pill [= <-]. split; [reflexivity|].
  unfold pillPlaced, inBounds, emptyAt. cbn.
  split_and!; try lia; eexists; (split; [vm_compute; reflexivity|reflexivity]).
Defined.

Lemma spawn_tests_grid_before_lock_witness :
  wf GRID_ROWS GRID_COLS (grid stuckGame) ∧ 0 < GRID_ROWS ∧ 4 < GRID_COLS ∧
  activePill stuckGame = Some spawnedPill ∧ gameOver stuckGame = false ∧
  pos1 spawnedPill = spawnPosition1 ∧ pos2 spawnedPill = spawnPosition2 ∧
  pillOk GRID_ROWS GRID_COLS stuckGame ∧
  color1 spawnedPill ≠ EMPTY ∧ color2 spawnedPill ≠ EMPTY ∧
  canMove GRID_ROWS GRID_COLS (grid stuckGame) spawnedPill 1 0 = false ∧
  findMatches GRID_ROWS GRID_COLS (lockPill (grid stuckGame) spawnedPill) = [] ∧
  ∃ res,
    tick GRID_ROWS GRID_COLS 1 stuckGame (constRng 0) = Some res ∧
    spawnBlocked (grid (game res)) = true ∧
    gameOver (game res) = false ∧
    ∃ p, activePill (game res) = Some p ∧
         pos1 p = spawnPosition1 ∧ pos2 p = spawnPosition2.
Proof.
  assert (0 < GRID_ROWS) as Hr by (unfold GRID_ROWS; lia).
  assert (4 < GRID_COLS) as Hc by (unfold GRID_COLS; lia).
  assert (color1 spawnedPill ≠ EMPTY) as H1 by (simpl; discriminate).
  assert (color2 spawnedPill ≠ EMPTY) as H2 by (simpl; discriminate).
  assert (canMove GRID_ROWS GRID_COLS (grid stuckGame) spawnedPill 1 0 = false)
    as Hmove by (vm_compute; reflexivity).
  assert (findMatches GRID_ROWS GRID_COLS
            (lockPill (grid stuckGame) spawnedPill) = [])
    as Hnone by (vm_compute; reflexivity).
  split; [apply wf_gridOf|]. do 2 (split; [assumption|]).
  do 4 (split; [reflexivity|]). split; [apply pillOk_stuckGame|].
  do 4 (split; [assumption|]).
  destruct (spawn_tests_grid_before_lock GRID_ROWS GRID_COLS stuckGame
              spawnedPill (constRng 0) 0 (wf_gridOf _) Hr Hc eq_refl eq_refl
              eq_refl eq_refl pillOk_stuckGame H1 H2 Hmove Hnone)
    as (res & Hres & _ & Hblocked & Hgo & Hpill & _).
  exists res. split; [exact Hres|]. split; [exact Hblocked|].
  split; [exact Hgo|exact Hpill].
Defined.

Lemma controls_keep_pill_witness :
  wf GRID_ROWS GRID_COLS (grid fallingGame) ∧
  pillOk GRID_ROWS GRID_COLS fallingGame ∧
  pillOk GRID_ROWS GRID_COLS (left GRID_ROWS GRID_COLS fallingGame) ∧
  pillOk GRID_ROWS GRID_COLS (right GRID_ROWS GRID_COLS fallingGame) ∧
  pillOk GRID_ROWS GRID_COLS (rotate GRID_ROWS GRID_COLS fallingGame) ∧
  pillOk GRID_ROWS GRID_COLS (gameStep GRID_ROWS GRID_COLS fallingGame).1.
Proof.
  split; [apply wf_gridOf|]. split; [apply pillOk_fallingGame|].
  apply (controls_keep_pill GRID_ROWS GRID_COLS fallingGame (wf_gridOf _)
           pillOk_fallingGame).
Defined.

Lemma rotate_twice_witness :
  wf GRID_ROWS GRID_COLS (grid fallingGame) ∧
  pillOk GRID_ROWS GRID_COLS fallingGame ∧
  activePill fallingGame = Some midPill ∧
  orientation midPill = horizontal ∧
  rotate GRID_ROWS GRID_COLS fallingGame ≠ fallingGame ∧
  rotate GRID_ROWS GRID_COLS (rotate GRID_ROWS GRID_COLS fallingGame) =
    fallingGame.
Proof.
  assert (rotate GRID_ROWS GRID_COLS fallingGame ≠ fallingGame) as Hrot.
  { intros H. apply (f_equal activePill) in H. vm_compute in H.
    discriminate. }
  split; [apply wf_gridOf|]. split; [apply pillOk_fallingGame|].
  split; [reflexivity|]. split; [reflexivity|]. split; [exact Hrot|].
  apply (rotate_twice GRID_ROWS GRID_COLS fallingGame midPill (wf_gridOf _)
           pillOk_fallingGame eq_refl eq_refl Hrot).
Defined.

Lemma spawnPill_free_witness :
  wf GRID_ROWS GRID_COLS (grid (gameWith settledGrid)) ∧
  0 < GRID_ROWS ∧ 4 < GRID_COLS ∧
  gameOver (gameWith settledGrid) = false ∧
  spawnBlocked (grid (gameWith settledGrid)) = false ∧
  ∃ c1 c2,
    c1 ∈ types ∧ c2 ∈ types ∧
    (spawnPill (gameWith settledGrid) (gameWith settledGrid) countingRng).1 =
      setActivePill
        (Some {| pos1 := spawnPosition1; pos2 := spawnPosition2;
                 color1 := c1; color2 := c2; orientation := horizontal |})
        (gameWith settledGrid).
Proof.
  assert (0 < GRID_ROWS) as Hr by (unfold GRID_ROWS; lia).
  assert (4 < GRID_COLS) as Hc by (unfold GRID_COLS; lia).
  assert (spawnBlocked (grid (gameWith settledGrid)) = false) as Hb
    by (vm_compute; reflexivity).
  split; [apply wf_gridOf|]. do 2 (split; [assumption|]).
  split; [reflexivity|]. split; [exact Hb|].
  destruct (spawnPill_free GRID_ROWS GRID_COLS (gameWith settledGrid)
              (gameWith settledGrid) countingRng (wf_gridOf _) Hr Hc eq_refl Hb)
    as (c1 & c2 & H1 & H2 & Hs & _).
  exists c1, c2. split; [exact H1|]. split; [exact H2|exact Hs].
Defined.

Lemma preview_spawnPill_free_witness :
  wf GRID_ROWS GRID_COLS (grid (gameWith settledGrid)) ∧
  0 < GRID_ROWS ∧ 4 < GRID_COLS ∧
  gameOver (gameWith settledGrid) = false ∧
  spawnBlocked (grid (gameWith settledGrid)) = false ∧
  nextPillColors (gameWith settledGrid) = Some (RED, BLUE) ∧
  activePill
    (Preview.spawnPill (gameWith settledGrid) (gameWith settledGrid)
       countingRng).1 = Some spawnedPill.
Proof.
  assert (0 < GRID_ROWS) as Hr by (unfold GRID_ROWS; lia).
  assert (4 < GRID_COLS) as Hc by (unfold GRID_COLS; lia).
  assert (spawnBlocked (grid (gameWith settledGrid)) = false) as Hb
    by (vm_compute; reflexivity).
  split; [apply wf_gridOf|]. do 2 (split; [assumption|]).
  split; [reflexivity|]. split; [exact Hb|]. split; [reflexivity|].
  apply (preview_spawnPill_free GRID_ROWS GRID_COLS (gameWith settledGrid)
           (gameWith settledGrid) countingRng RED BLUE (wf_gridOf _) Hr Hc
           eq_refl Hb eq_refl).
Defined.

Lemma lockPill_writes_witness :
  wf GRID_ROWS GRID_COLS settledGrid ∧
  pillShape midPill ∧ pillPlaced GRID_ROWS GRID_COLS settledGrid midPill ∧
  color1 midPill ≠ EMPTY ∧ color2 midPill ≠ EMPTY ∧
  occupied GRID_ROWS GRID_COLS (lockPill settledGrid midPill) =
    occupied GRID_ROWS GRID_COLS settledGrid + 2.
Proof.
  assert (color1 midPill ≠ EMPTY) as H1 by (simpl; discriminate).
  assert (color2 midPill ≠ EMPTY) as H2 by (simpl; discriminate).
  destruct (pillOk_fallingGame midPill eq_refl) as [Hshape Hplaced].
  split; [apply wf_gridOf|]. split; [exact Hshape|]. split; [exact Hplaced|].
  do 2 (split; [assumption|]).
  apply (lockPill_writes GRID_ROWS GRID_COLS settledGrid midPill
           (wf_gridOf _) Hshape Hplaced H1 H2).
Defined.

Lemma gameStep_tick_witness :
  wf GRID_ROWS GRID_COLS (grid fallingGame) ∧
  pillOk GRID_ROWS GRID_COLS fallingGame ∧
  activePill fallingGame = Some midPill ∧ gameOver fallingGame = false ∧
  color1 midPill ≠ EMPTY ∧ color2 midPill ≠ EMPTY ∧
  score (gameStep GRID_ROWS GRID_COLS fallingGame).1 = score fallingGame.
Proof.
  assert (color1 midPill ≠ EMPTY) as H1 by (simpl; discriminate).
  assert (color2 midPill ≠ EMPTY) as H2 by (simpl; discriminate).
  split; [apply wf_gridOf|]. split; [apply pillOk_fallingGame|].
  do 2 (split; [reflexivity|]). do 2 (split; [assumption|]).
  apply (gameStep_tick GRID_ROWS GRID_COLS fallingGame midPill (wf_gridOf _)
           pillOk_fallingGame eq_refl eq_refl H1 H2).
Defined.

Lemma startNewGame_fresh_witness :
  8 < GRID_ROWS ∧ 4 < GRID_COLS ∧
  ∃ s' rng2,
    startNewGame GRID_ROWS GRID_COLS 100 (gameAtLevel 1) countingRng =
      Some (s', rng2) ∧
    occupied GRID_ROWS GRID_COLS (grid s') = 1 * 4 + 4 ∧ score s' = 0.
Proof.
  assert (8 < GRID_ROWS) as Hr by (unfold GRID_ROWS; lia).
  assert (4 < GRID_COLS) as Hc by (unfold GRID_COLS; lia).
  do 2 (split; [assumption|]).
  destruct (startNewGame GRID_ROWS GRID_COLS 100 (gameAtLevel 1) countingRng)
    as [[s' rng2]|] eqn:E; [|vm_compute in E; discriminate].
  exists s', rng2. split; [reflexivity|].
  destruct (startNewGame_fresh GRID_ROWS GRID_COLS 100 (gameAtLevel 1) s'
              countingRng rng2 Hr Hc E) as (_ & Hocc & _ & _ & Hscore & _).
  split; [exact Hocc|exact Hscore].
Defined.

Lemma startNewGame_overfull_witness :
  8 < GRID_ROWS ∧ 0 < GRID_COLS ∧
  (GRID_ROWS - 8) * GRID_COLS < level (gameAtLevel 30) * 4 + 4 ∧
  startNewGame GRID_ROWS GRID_COLS 1000 (gameAtLevel 30) countingRng = None.
Proof.
  assert (8 < GRID_ROWS) as Hr by (unfold GRID_ROWS; lia).
  assert (0 < GRID_COLS) as Hc by (unfold GRID_COLS; lia).
  assert ((GRID_ROWS - 8) * GRID_COLS < level (gameAtLevel 30) * 4 + 4) as Hf
    by (unfold GRID_ROWS, GRID_COLS; simpl; lia).
  do 3 (split; [assumption|]).
  apply (startNewGame_overfull GRID_ROWS GRID_COLS 1000 (gameAtLevel 30)
           countingRng Hr Hc Hf).
Defined.

Lemma clearMatches_exact_witness :
  wf GRID_ROWS GRID_COLS settledGrid ∧ 19 < GRID_ROWS ∧ 0 < GRID_COLS ∧
  score (clearMatches (gameWith settledGrid) settledGrid
           (findMatches GRID_ROWS GRID_COLS settledGrid)).1 +
  100 * occupied GRID_ROWS GRID_COLS
          (clearMatches (gameWith settledGrid) settledGrid
             (findMatches GRID_ROWS GRID_COLS settledGrid)).2 =
  score (gameWith settledGrid) +
  100 * occupied GRID_ROWS GRID_COLS settledGrid.
Proof.
  assert (19 < GRID_ROWS) as Hr by (unfold GRID_ROWS; lia).
  assert (0 < GRID_COLS) as Hc by (unfold GRID_COLS; lia).
  split; [apply wf_gridOf|]. do 2 (split; [assumption|]).
  apply (clearMatches_exact GRID_ROWS GRID_COLS (gameWith settledGrid)
           settledGrid 19 0 (wf_gridOf _) Hr Hc).
Defined.

Lemma gravity_settles_witness :
  wf GRID_ROWS GRID_COLS floatingGrid ∧
  fallRoom GRID_ROWS GRID_COLS floatingGrid ≤
    fallRoom GRID_ROWS GRID_COLS floatingGrid ∧
  gravityPass GRID_ROWS GRID_COLS
    (gravityPasses GRID_ROWS GRID_COLS
       (fallRoom GRID_ROWS GRID_COLS floatingGrid) floatingGrid) =
  (gravityPasses GRID_ROWS GRID_COLS
     (fallRoom GRID_ROWS GRID_COLS floatingGrid) floatingGrid, false).
Proof.
  split; [apply wf_gridOf|]. split; [apply le_n|].
  apply (gravity_settles GRID_ROWS GRID_COLS floatingGrid
           (fallRoom GRID_ROWS GRID_COLS floatingGrid)
           (wf_gridOf _) (le_n _)).
Defined.

Lemma cascade_score_witness :
  wf GRID_ROWS GRID_COLS settledGrid ∧
  grid (gameWith settledGrid) = settledGrid ∧
  cascadeFuel GRID_ROWS GRID_COLS ≤ cascadeFuel GRID_ROWS GRID_COLS ∧
  ∃ res,
    checkMatches GRID_ROWS GRID_COLS (cascadeFuel GRID_ROWS GRID_COLS) 0
      fallingGame (gameWith settledGrid) (constRng 0) settledGrid = Some res ∧
    occupied GRID_ROWS GRID_COLS (grid (game res)) ≤
      occupied GRID_ROWS GRID_COLS settledGrid ∧
    score (game res) =
      score (gameWith settledGrid) +
      100 * (occupied GRID_ROWS GRID_COLS settledGrid -
             occupied GRID_ROWS GRID_COLS (grid (game res))).
Proof.
  split; [apply wf_gridOf|]. split; [reflexivity|]. split; [apply le_n|].
  apply (cascade_score GRID_ROWS GRID_COLS settledGrid
           fallingGame (gameWith settledGrid) (constRng 0)
           (cascadeFuel GRID_ROWS GRID_COLS) (wf_gridOf _) eq_refl (le_n _)).
Defined.

Lemma clearMatchesAll_overcounts_witness :
  wf GRID_ROWS GRID_COLS cornerGrid ∧
  score (clearMatchesAll (gameWith cornerGrid) cornerGrid
           (findMatches GRID_ROWS GRID_COLS cornerGrid)).1 = 600 ∧
  score (clearMatches (gameWith cornerGrid) cornerGrid
           (findMatches GRID_ROWS GRID_COLS cornerGrid)).1 = 500 ∧
  ¬ NoDup (findMatches GRID_ROWS GRID_COLS cornerGrid).
Proof.
  assert (score (clearMatchesAll (gameWith cornerGrid) cornerGrid
                   (findMatches GRID_ROWS GRID_COLS cornerGrid)).1 = 600)
    as Hplain by (vm_compute; reflexivity).
  assert (score (clearMatches (gameWith cornerGrid) cornerGrid
                   (findMatches GRID_ROWS GRID_COLS cornerGrid)).1 = 500)
    as Hfiltered by (vm_compute; reflexivity).
  split; [apply wf_gridOf|]. do 2 (split; [assumption|]).
  destruct (clearMatchesAll_overcounts GRID_ROWS GRID_COLS
              (gameWith cornerGrid) cornerGrid (wf_gridOf _))
    as (_ & _ & _ & Hiff).
  intros Hnd. apply Hiff in Hnd. rewrite Hplain, Hfiltered in Hnd.
  discriminate Hnd.
Defined.


End PillsFacts.

(** * Facts about the swap board *)

Module Match3Facts.
Import Match3.

(** ** Reading and writing cells *)

Lemma full_row (b : Board) r :
  full b → r < BOARD_SIZE →
  length (b !!! r) = BOARD_SIZE ∧ Forall (λ p, type p ∈ symbols) (b !!! r).
Proof.
  intros [Hl Hall] Hr. rewrite Forall_lookup in Hall. apply (Hall r).
  apply list_lookup_lookup_total_lt. lia.
Qed.

Lemma full_setPiece (b : Board) r c p :
  full b → type p ∈ symbols → full (setPiece b r c p).
Proof.
  intros Hfull Hp. pose proof Hfull as [Hl Hall]. unfold setPiece. split.
  - by rewrite length_insert.
  - destruct (decide (r < BOARD_SIZE)) as [Hr|Hr].
    + destruct (full_row b r Hfull Hr) as [Hlen Hrow].
      apply Forall_insert; [done|]. split; [by rewrite length_insert|].
      by apply Forall_insert.
    + rewrite list_insert_ge; [done|lia].
Qed.

Lemma pieceAt_setPiece_eq (b : Board) r c p :
  full b → r < BOARD_SIZE → c < BOARD_SIZE → pieceAt (setPiece b r c p) r c = p.
Proof.
  intros Hfull Hr Hc. unfold pieceAt, setPiece.
  rewrite list_lookup_total_insert_eq; [|destruct Hfull; lia].
  rewrite list_lookup_total_insert_eq; [done|].
  destruct (full_row b r Hfull Hr). lia.
Qed.

Lemma pieceAt_setPiece_ne (b : Board) r c p r' c' :
  (r', c') ≠ (r, c) → pieceAt (setPiece b r c p) r' c' = pieceAt b r' c'.
Proof.
  intros Hne. unfold pieceAt, setPiece.
  destruct (decide (r' = r)) as [->|Hr].
  - destruct (decide (r < length b)) as [Hlt|Hge].
    + rewrite list_lookup_total_insert_eq; [|done].
      rewrite list_lookup_total_insert_ne; [done|]. congruence.
    + rewrite list_insert_ge; [done|lia].
  - rewrite list_lookup_total_insert_ne; [done|]. congruence.
Qed.

Lemma full_pieceAt (b : Board) r c :
  full b → r < BOARD_SIZE → c < BOARD_SIZE → type (pieceAt b r c) ∈ symbols.
Proof.
  intros Hfull Hr Hc. destruct (full_row b r Hfull Hr) as [Hlen Hrow].
  rewrite Forall_lookup in Hrow. apply (Hrow c).
  apply list_lookup_lookup_total_lt. lia.
Qed.

(** ** Drawing pieces *)

Lemma getPiecesForLevel_sub level t :
  t ∈ getPiecesForLevel level → t ∈ symbols.
Proof.
  unfold getPiecesForLevel, symbols. intros Ht.
  apply elem_of_app. left. by eapply subseteq_take.
Qed.

Lemma getPiecesForLevel_length level : 0 < length (getPiecesForLevel level).
Proof.
  unfold getPiecesForLevel. rewrite length_take.
  unfold INITIAL_PIECE_COUNT, ALL_PIECES. simpl. lia.
Qed.

Lemma randomPiece_in pieces rng :
  0 < length pieces → type (randomPiece pieces rng).1 ∈ pieces.
Proof.
  intros Hlen. unfold randomPiece, randomIndex. simpl.
  apply list_elem_of_lookup_total_2. apply Nat.mod_upper_bound. lia.
Qed.

Lemma randomPiece_symbol level rng :
  type (randomPiece (getPiecesForLevel level) rng).1 ∈ symbols.
Proof.
  apply (getPiecesForLevel_sub level), randomPiece_in,
    getPiecesForLevel_length.
Qed.

Lemma createSpecialPiece_symbol d len rng :
  type (createSpecialPiece d len rng).1 ∈ symbols.
Proof.
  unfold createSpecialPiece. repeat case_bool_decide; simpl.
  - unfold symbols. apply elem_of_app. right. apply elem_of_cons. by left.
  - unfold symbols. apply elem_of_app. right.
    apply elem_of_cons. right. apply elem_of_cons. by left.
  - apply randomPiece_symbol.
Qed.

(** ** The board stays full *)

Lemma setOn_full b axis line k p :
  full b → type p ∈ symbols → full (setOn b axis line k p).
Proof. intros. by apply full_setPiece. Qed.

Lemma refill_full d axis line k (l : list nat) b rng :
  full b →
  full (foldl (λ '(b, rng) i,
                 let '(p, rng) := randomPiece (getPiecesForLevel d) rng in
                 (setOn b axis line (k + i) p, rng)) (b, rng) l).1.
Proof.
  revert b rng. induction l as [|i l IH]; intros b rng Hfull; [done|].
  cbn [foldl]. pose proof (randomPiece_symbol d rng) as Hp.
  destruct (randomPiece (getPiecesForLevel d) rng) as [p rng1].
  apply IH. by apply setOn_full.
Qed.

Lemma resolveRun_full d axis line k m st :
  full (newBoard st) → full (newBoard (resolveRun d axis line k m st)).
Proof.
  intros Hfull. unfold resolveRun.
  pose proof (createSpecialPiece_symbol d m (gen st)) as Hs.
  destruct (createSpecialPiece d m (gen st)) as [sp rng1].
  pose proof (refill_full d axis line k (seq 1 (m - 1))
                (setOn (newBoard st) axis line k sp) rng1
                (setOn_full _ _ _ _ _ Hfull Hs)) as Hr.
  destruct (foldl _ _ _) as [b2 rng2]. done.
Qed.

Lemma scanLine_full fuel d axis line k st :
  full (newBoard st) → full (newBoard (scanLine fuel d axis line k st)).
Proof.
  revert k st. induction fuel as [|fuel IH]; intros k st Hfull; [done|].
  cbn [scanLine]. case_bool_decide; [|done]. case_bool_decide; apply IH; [|done].
  by apply resolveRun_full.
Qed.

Lemma scanAxis_full d axis st :
  full (newBoard st) → full (newBoard (scanAxis d axis st)).
Proof.
  unfold scanAxis. generalize (seq 0 BOARD_SIZE). intros l. revert st.
  induction l as [|line l IH]; intros st Hfull; [done|].
  cbn [foldl]. apply IH. by apply scanLine_full.
Qed.

Lemma checkMatches_full s rng :
  full (board s) → full (board (checkMatches s rng).1.1).
Proof.
  intros Hfull. unfold checkMatches. cbn [fst board].
  destruct (matchFound _); [|done].
  by do 2 apply scanAxis_full.
Qed.

Lemma randomRow_full pieces rng :
  0 < length pieces →
  length (randomRow pieces rng).1 = BOARD_SIZE ∧
  Forall (λ p, type p ∈ pieces) (randomRow pieces rng).1.
Proof.
  intros Hlen. unfold randomRow.
  assert (∀ (l : list nat) r rng0,
    Forall (λ p, type p ∈ pieces) r →
    let res := foldl (λ '(r, rng) (_ : nat),
                 let '(p, rng) := randomPiece pieces rng in (r ++ [p], rng))
               (r, rng0) l in
    length res.1 = length r + length l ∧ Forall (λ p, type p ∈ pieces) res.1)
    as Hgen.
  { induction l as [|x l IH]; intros r rng0 Hr; cbn [foldl];
      [simpl; split; [lia|done]|].
    pose proof (randomPiece_in pieces rng0 Hlen) as Hp.
    destruct (randomPiece pieces rng0) as [p rng1]. simpl in Hp.
    destruct (IH (r ++ [p]) rng1) as [H1 H2].
    { apply Forall_app. split; [done|]. by apply Forall_singleton. }
    split; [|done]. rewrite H1, length_app. simpl. lia. }
  destruct (Hgen (seq 0 BOARD_SIZE) [] rng) as [H1 H2]; [constructor|].
  split; [|exact H2]. rewrite H1, length_seq. reflexivity.
Qed.

Lemma initializeBoard_full level s rng :
  full (board (initializeBoard level s rng).1).
Proof.
  unfold initializeBoard.
  assert (∀ (l : list nat) b rng0,
    Forall (λ r, length r = BOARD_SIZE ∧ Forall (λ p, type p ∈ symbols) r) b →
    let res := foldl (λ '(b, rng) (_ : nat),
                 let '(r, rng) := randomRow (getPiecesForLevel level) rng in
                 (b ++ [r], rng)) (b, rng0) l in
    length res.1 = length b + length l ∧
    Forall (λ r, length r = BOARD_SIZE ∧ Forall (λ p, type p ∈ symbols) r) res.1)
    as Hgen.
  { induction l as [|x l IH]; intros b rng0 Hb; cbn [foldl];
      [simpl; split; [lia|done]|].
    pose proof (randomRow_full (getPiecesForLevel level) rng0
                  (getPiecesForLevel_length level)) as [Hl Hr].
    destruct (randomRow (getPiecesForLevel level) rng0) as [r rng1].
    simpl in Hl, Hr.
    destruct (IH (b ++ [r]) rng1) as [H1 H2].
    { apply Forall_app. split; [done|]. apply Forall_singleton.
      split; [done|]. eapply Forall_impl; [exact Hr|].
      intros p. apply getPiecesForLevel_sub. }
    split; [|done]. rewrite H1, length_app. simpl. lia. }
  destruct (Hgen (seq 0 BOARD_SIZE) [] rng) as [H1 H2]; [constructor|].
  destruct (foldl _ _ _) as [b rng1]. cbn [fst board] in *.
  split; [|exact H2]. rewrite H1, length_seq. reflexivity.
Qed.

Lemma attemptSwap_full s pos1 pos2 :
  full (board s) →
  row pos1 < BOARD_SIZE → col pos1 < BOARD_SIZE →
  row pos2 < BOARD_SIZE → col pos2 < BOARD_SIZE →
  full (board (attemptSwap s pos1 pos2).1).
Proof.
  intros Hfull H1 H2 H3 H4. unfold attemptSwap.
  destruct (isAdjacent pos1 pos2); [|done]. simpl.
  apply full_setPiece; [apply full_setPiece|]; auto using full_pieceAt.
Qed.

(** C10. The swap board is full at all times.  From any state, the
    component's first one with its empty board included,
    [initializeBoard] creates a board of 8 by 8 cells that each hold a
    symbol; and a call of [checkMatches] or a swap of two cells of the
    board leaves a full board full, every cell of a resolved run being
    rewritten with a special or freshly drawn symbol. *)
Theorem board_always_full (s : Game) (level : nat) (rng : Rng)
    (pos1 pos2 : Position) :
  full (board (initializeBoard level s rng).1) ∧
  full (board (initializeBoard level initialGame rng).1) ∧
  (full (board s) → full (board (checkMatches s rng).1.1)) ∧
  (full (board s) →
   row pos1 < BOARD_SIZE → col pos1 < BOARD_SIZE →
   row pos2 < BOARD_SIZE → col pos2 < BOARD_SIZE →
   full (board (attemptSwap s pos1 pos2).1)).
Proof.
  split_and!.
  - apply initializeBoard_full.
  - apply initializeBoard_full.
  - apply checkMatches_full.
  - apply attemptSwap_full.
Qed.

(** ** Scanning a line *)

Lemma typeOn_setOn_eq b axis line k p :
  full b → line < BOARD_SIZE → k < BOARD_SIZE →
  pieceOn (setOn b axis line k p) axis line k = p.
Proof.
  intros Hfull Hl Hk. unfold pieceOn, setOn.
  destruct axis; simpl; by apply pieceAt_setPiece_eq.
Qed.

Lemma cellOf_inj axis l k l' k' :
  cellOf axis l k = cellOf axis l' k' → l = l' ∧ k = k'.
Proof. destruct axis; simpl; intros [= -> ->]; done. Qed.

Lemma pieceAt_setOn_ne b axis line k p r c :
  {| row := r; col := c |} ≠ cellOf axis line k →
  pieceAt (setOn b axis line k p) r c = pieceAt b r c.
Proof.
  intros Hne. unfold setOn. apply pieceAt_setPiece_ne.
  intros [= -> ->]. apply Hne. by destruct (cellOf axis line k).
Qed.

(** The loop that measures a run stops at the first cell that is off the
    board or shows another symbol. *)
Lemma extendRun_spec fuel b axis line k t : ∀ m,
  let m' := extendRun fuel b axis line k t m in
  m ≤ m' ∧
  (∀ i, m ≤ i < m' → k + i < BOARD_SIZE ∧ typeOn b axis line (k + i) = t) ∧
  (BOARD_SIZE ≤ k + m + fuel →
   k + m' < BOARD_SIZE → typeOn b axis line (k + m') ≠ t).
Proof.
  induction fuel as [|fuel IH]; intros m; cbn [extendRun].
  - split_and!; [lia|lia|]. intros ? ?. lia.
  - destruct (bool_decide (k + m < BOARD_SIZE)) eqn:Hin; cbn [andb].
    + apply bool_decide_eq_true in Hin.
      destruct (bool_decide_reflect
                  (type (pieceOn b axis line (k + m)) = t)) as [Heq|Hne].
      * destruct (IH (S m)) as (Hle & Hrun & Hstop). split_and!.
        -- lia.
        -- intros i Hi. destruct (decide (i = m)) as [->|]; [done|].
           apply Hrun. lia.
        -- intros Hf. apply Hstop. lia.
      * split_and!; [lia|lia|]. intros _ _. exact Hne.
    + apply bool_decide_eq_false in Hin. split_and!; [lia|lia|]. intros; lia.
Qed.

Lemma tripleAt_spec b axis line k :
  tripleAt b axis line k = true ↔
  typeOn b axis line (k + 1) = typeOn b axis line k ∧
  typeOn b axis line (k + 2) = typeOn b axis line k.
Proof. unfold tripleAt. by rewrite andb_true_iff, !bool_decide_eq_true. Qed.

(** A run of three or more from [k] is a triple at [k]. *)
Lemma extendRun_triple b axis line k :
  3 ≤ extendRun BOARD_SIZE b axis line k (typeOn b axis line k) 1 →
  tripleAt b axis line k = true.
Proof.
  intros H3.
  destruct (extendRun_spec BOARD_SIZE b axis line k (typeOn b axis line k) 1)
    as (_ & Hrun & _).
  apply tripleAt_spec. split; apply Hrun; lia.
Qed.

(** The measure of a maximal run is its length. *)
Lemma extendRun_run b axis line c len :
  1 ≤ len → c + len ≤ BOARD_SIZE →
  (∀ i, i < len → typeOn b axis line (c + i) = typeOn b axis line c) →
  (c + len < BOARD_SIZE →
   typeOn b axis line (c + len) ≠ typeOn b axis line c) →
  extendRun BOARD_SIZE b axis line c (typeOn b axis line c) 1 = len.
Proof.
  intros H1 Hin Hrun Hmax.
  destruct (extendRun_spec BOARD_SIZE b axis line c (typeOn b axis line c) 1)
    as (Hle & Hsame & Hstop).
  cbn zeta in *.
  set (m := extendRun _ _ _ _ _ _ _) in *.
  destruct (decide (m < len)) as [Hlt|Hge].
  { exfalso. apply Hstop; [unfold BOARD_SIZE; lia|lia|]. apply Hrun. lia. }
  destruct (decide (len < m)) as [Hgt|]; [|lia].
  exfalso. destruct (Hsame len ltac:(lia)) as [Hb Heq].
  by apply Hmax.
Qed.

(** A line without triples from [k] on is left as it is. *)
Lemma scanLine_quiet fuel d axis line : ∀ k st,
  (∀ k', k ≤ k' → k' < BOARD_SIZE - 2 →
         tripleAt (newBoard st) axis line k' = false) →
  scanLine fuel d axis line k st = st.
Proof.
  induction fuel as [|fuel IH]; intros k st Hq; [done|].
  cbn [scanLine]. case_bool_decide as Hk; [|done].
  case_bool_decide as H3.
  - apply extendRun_triple in H3. rewrite Hq in H3; [done|lia|done].
  - apply IH. intros k' Hle Hlt. apply Hq; [lia|done].
Qed.

(** The two loops never run out of fuel: once the fuel covers the cells
    left on the line, more fuel changes nothing. *)
Lemma extendRun_fuel b axis line k t : ∀ fuel fuel' m,
  BOARD_SIZE ≤ k + m + fuel → BOARD_SIZE ≤ k + m + fuel' →
  extendRun fuel b axis line k t m = extendRun fuel' b axis line k t m.
Proof.
  induction fuel as [|fuel IH]; intros fuel' m H1 H2.
  - destruct fuel' as [|fuel']; [done|]. cbn [extendRun].
    rewrite bool_decide_eq_false_2 by lia. done.
  - destruct fuel' as [|fuel']; cbn [extendRun].
    + rewrite bool_decide_eq_false_2 by lia. done.
    + destruct (_ && _); [|done]. apply IH; lia.
Qed.

Lemma scanLine_fuel d axis line : ∀ fuel fuel' k st,
  BOARD_SIZE - 2 ≤ k + fuel → BOARD_SIZE - 2 ≤ k + fuel' →
  scanLine fuel d axis line k st = scanLine fuel' d axis line k st.
Proof.
  induction fuel as [|fuel IH]; intros fuel' k st H1 H2.
  - destruct fuel' as [|fuel']; [done|]. cbn [scanLine].
    rewrite bool_decide_eq_false_2 by lia. done.
  - destruct fuel' as [|fuel']; cbn [scanLine].
    + rewrite bool_decide_eq_false_2 by lia. done.
    + case_bool_decide; [|done]. case_bool_decide; apply IH; lia.
Qed.

(** ** Resolving a run *)

Lemma refill_frame d axis line k (l : list nat) r c : ∀ b rng,
  (∀ i, i ∈ l → {| row := r; col := c |} ≠ cellOf axis line (k + i)) →
  pieceAt (foldl (λ '(b, rng) i,
                    let '(p, rng) := randomPiece (getPiecesForLevel d) rng in
                    (setOn b axis line (k + i) p, rng)) (b, rng) l).1 r c
  = pieceAt b r c.
Proof.
  induction l as [|i l IH]; intros b rng Hne; [done|].
  cbn [foldl]. destruct (randomPiece (getPiecesForLevel d) rng) as [p rng1].
  rewrite IH.
  - apply pieceAt_setOn_ne, Hne. by left.
  - intros j Hj. apply Hne. by right.
Qed.

(** What resolving a run of [m] cells from [k] changes: the score grows
    by [m * 20], a match is recorded, the first cell receives what
    [createSpecialPiece] returns and no cell outside the run changes. *)
Lemma resolveRun_spec d axis line k m st :
  let st' := resolveRun d axis line k m st in
  points st' = points st + m * 20 ∧
  matchFound st' = true ∧
  (full (newBoard st) → line < BOARD_SIZE → k < BOARD_SIZE →
   pieceOn (newBoard st') axis line k = (createSpecialPiece d m (gen st)).1) ∧
  (1 ≤ m → ∀ r c,
     (∀ i, i < m → {| row := r; col := c |} ≠ cellOf axis line (k + i)) →
     pieceAt (newBoard st') r c = pieceAt (newBoard st) r c).
Proof.
  unfold resolveRun.
  destruct (createSpecialPiece d m (gen st)) as [sp rng1].
  pose proof (refill_frame d axis line k (seq 1 (m - 1))) as Hframe.
  specialize (λ r c, Hframe r c (setOn (newBoard st) axis line k sp) rng1).
  destruct (foldl _ _ _) as [b2 rng2]. cbn [fst snd] in *.
  cbn [points matchFound newBoard]. split_and!; [done|done| |].
  - intros Hfull Hl Hk. unfold pieceOn at 1. rewrite Hframe.
    + by apply typeOn_setOn_eq.
    + intros i Hi%elem_of_seq Heq.
      destruct (cellOf axis line k) as [r0 c0] eqn:E. simpl in Heq.
      rewrite <-E in Heq. apply cellOf_inj in Heq. lia.
  - intros Hm r c Hout. rewrite Hframe.
    + apply pieceAt_setOn_ne. specialize (Hout 0).
      rewrite Nat.add_0_r in Hout. apply Hout. lia.
    + intros i Hi%elem_of_seq. apply Hout. lia.
Qed.

(** ** A line holding the only run *)

Lemma forallb_seq (P : nat → bool) n :
  forallb P (seq 0 n) = true ↔ ∀ i, i < n → P i = true.
Proof.
  rewrite forallb_forall. split.
  - intros H i Hi. apply H, in_seq. lia.
  - intros H i Hi%in_seq. apply H. lia.
Qed.

Lemma quiet_spec b axis :
  quiet b axis = true ↔
  ∀ l k, l < BOARD_SIZE → k < BOARD_SIZE - 2 → tripleAt b axis l k = false.
Proof.
  unfold quiet, lines, starts. rewrite forallb_seq. split.
  - intros H l k Hl Hk. specialize (H l Hl). rewrite forallb_seq in H.
    by apply negb_true_iff, H.
  - intros H l Hl. apply forallb_seq. intros k Hk.
    by apply negb_true_iff, H.
Qed.

Lemma soleRun_spec b axis line c len :
  soleRun b axis line c len = true →
  3 ≤ len ∧ c + len ≤ BOARD_SIZE ∧ line < BOARD_SIZE ∧
  (∀ i, i < len → typeOn b axis line (c + i) = typeOn b axis line c) ∧
  (∀ l k, l < BOARD_SIZE → k < BOARD_SIZE - 2 → tripleAt b axis l k = true →
          l = line ∧ c ≤ k ∧ k + 2 < c + len).
Proof.
  unfold soleRun, lines, starts.
  rewrite !andb_true_iff, !bool_decide_eq_true, !forallb_seq.
  intros [[[[H3 Hin] Hl] Hrun] Honly]. split_and!; [done|done|done| |].
  - intros i Hi. specialize (Hrun i Hi). by apply bool_decide_eq_true in Hrun.
  - intros l k Hlt Hk Ht. specialize (Honly l Hlt).
    rewrite forallb_seq in Honly. specialize (Honly k Hk).
    rewrite Ht in Honly. cbn [negb orb] in Honly.
    rewrite !andb_true_iff, !bool_decide_eq_true in Honly. tauto.
Qed.

Lemma tripleAt_ext b b' axis l k :
  (∀ j, k ≤ j ≤ k + 2 → pieceOn b' axis l j = pieceOn b axis l j) →
  tripleAt b' axis l k = tripleAt b axis l k.
Proof.
  intros H. unfold tripleAt, typeOn. by rewrite !H by lia.
Qed.

Lemma pieceOn_resolveRun_other d axis line c len st l j :
  1 ≤ len → l ≠ line ∨ j < c ∨ c + len ≤ j →
  pieceOn (newBoard (resolveRun d axis line c len st)) axis l j =
  pieceOn (newBoard st) axis l j.
Proof.
  intros Hlen Hout.
  destruct (resolveRun_spec d axis line c len st) as (_ & _ & _ & Hframe).
  unfold pieceOn. apply Hframe; [done|]. intros i Hi Heq.
  destruct (cellOf axis l j) as [r0 c0] eqn:E. simpl in Heq.
  rewrite <-E in Heq. apply cellOf_inj in Heq. lia.
Qed.

(** Scanning the line of the only run resolves that run and nothing
    else. *)
Lemma scanLine_run d axis line c len st fuel : ∀ k,
  soleRun (newBoard st) axis line c len = true →
  k ≤ c → c - k < fuel →
  scanLine fuel d axis line k st = resolveRun d axis line c len st.
Proof.
  intros k Hsole. revert k.
  pose proof (soleRun_spec _ _ _ _ _ Hsole) as (H3 & Hin & Hl & Hrun & Honly).
  induction fuel as [|fuel IH]; intros k Hk Hfuel; [lia|].
  cbn [scanLine]. rewrite bool_decide_eq_true_2 by (unfold BOARD_SIZE in *; lia).
  destruct (decide (k = c)) as [->|Hne].
  - fold (typeOn (newBoard st) axis line c).
    rewrite (extendRun_run _ _ _ c len); [|lia|done|done|].
    + rewrite bool_decide_eq_true_2 by done.
      apply scanLine_quiet. intros k' Hle Hlt.
      rewrite (tripleAt_ext (newBoard st)).
      * destruct (tripleAt (newBoard st) axis line k') eqn:Ht; [|done].
        apply Honly in Ht; [lia|done|done].
      * intros j Hj. apply pieceOn_resolveRun_other; [lia|]. right. right. lia.
    + intros Hlt Heq.
      assert (tripleAt (newBoard st) axis line (c + len - 2) = true) as Ht.
      { apply tripleAt_spec.
        replace (c + len - 2 + 1) with (c + (len - 1)) by lia.
        replace (c + len - 2 + 2) with (c + len) by lia.
        replace (c + len - 2) with (c + (len - 2)) by lia.
        rewrite !Hrun by lia. done. }
      apply Honly in Ht; [lia|done|unfold BOARD_SIZE in *; lia].
  - rewrite bool_decide_eq_false_2.
    + apply IH; lia.
    + intros Hm. apply extendRun_triple in Hm.
      apply Honly in Hm; [lia|done|unfold BOARD_SIZE in *; lia].
Qed.

Lemma scanLines_quiet d axis (ls : list nat) st :
  (∀ l k, l ∈ ls → k < BOARD_SIZE - 2 →
          tripleAt (newBoard st) axis l k = false) →
  foldl (λ st line, scanLine BOARD_SIZE d axis line 0 st) st ls = st.
Proof.
  induction ls as [|l ls IH]; intros Hq; [done|].
  cbn [foldl]. rewrite scanLine_quiet.
  - apply IH. intros l' k Hl' Hk. apply Hq; [by right|done].
  - intros k _ Hk. apply Hq; [by left|done].
Qed.

Lemma scanAxis_quiet d axis st :
  quiet (newBoard st) axis = true → scanAxis d axis st = st.
Proof.
  intros Hq. unfold scanAxis. apply scanLines_quiet.
  intros l k Hl%elem_of_seq Hk. rewrite quiet_spec in Hq. apply Hq; [lia|done].
Qed.

(** Scanning the axis of the only run resolves that run and nothing
    else. *)
Lemma scanAxis_run d axis line c len st :
  soleRun (newBoard st) axis line c len = true →
  scanAxis d axis st = resolveRun d axis line c len st.
Proof.
  intros Hsole.
  pose proof (soleRun_spec _ _ _ _ _ Hsole) as (H3 & Hin & Hl & Hrun & Honly).
  unfold scanAxis.
  assert (∀ n, line < n →
            seq 0 n = seq 0 line ++ line :: seq (S line) (n - S line)) as Hs.
  { intros n Hn. replace n with (line + S (n - S line)) at 1 by lia.
    by rewrite seq_app. }
  rewrite (Hs BOARD_SIZE Hl), foldl_app. cbn [foldl].
  assert (foldl (λ st line, scanLine BOARD_SIZE d axis line 0 st) st
            (seq 0 line) = st) as ->.
  { apply scanLines_quiet. intros l k Hl'%elem_of_seq Hk.
    destruct (tripleAt (newBoard st) axis l k) eqn:Ht; [|done].
    apply Honly in Ht; [lia|lia|done]. }
  rewrite (scanLine_run d axis line c len);
    [|done|lia|unfold BOARD_SIZE in *; lia].
  apply scanLines_quiet. intros l k Hl'%elem_of_seq Hk.
  rewrite (tripleAt_ext (newBoard st)).
  - destruct (tripleAt (newBoard st) axis l k) eqn:Ht; [|done].
    apply Honly in Ht; [lia|lia|done].
  - intros j _. apply pieceOn_resolveRun_other; [lia|]. left. lia.
Qed.

(** ** A call on a board with one isolated run *)

(** Columns stay without triples whatever the run's cells receive. *)
Lemma refillSafe_quiet b b1 line c len c' k :
  (∀ r c0, r ≠ line ∨ c0 < c ∨ c + len ≤ c0 →
           pieceAt b1 r c0 = pieceAt b r c0) →
  refillSafe b line c len c' k = true →
  tripleAt b1 Cols c' k = false.
Proof.
  intros Hframe Hsafe. unfold refillSafe in Hsafe.
  assert (∀ j, j ≠ line ∨ c' < c ∨ c + len ≤ c' →
               typeOn b1 Cols c' j = typeOn b Cols c' j) as Hty.
  { intros j Hj. unfold typeOn, pieceOn. simpl. by rewrite Hframe. }
  destruct (tripleAt b1 Cols c' k) eqn:Ht; [|done]. exfalso.
  apply tripleAt_spec in Ht as [T1 T2].
  destruct (bool_decide (c ≤ c' < c + len) && bool_decide (k ≤ line ≤ k + 2))
    eqn:Hmeet.
  - apply andb_true_iff in Hmeet as [Hc Hr].
    apply bool_decide_eq_true in Hc, Hr.
    case_bool_decide as Hk0.
    + apply negb_true_iff, bool_decide_eq_false in Hsafe. apply Hsafe.
      rewrite <-!Hty by lia. congruence.
    + case_bool_decide as Hk1;
        apply negb_true_iff, bool_decide_eq_false in Hsafe; apply Hsafe;
        rewrite <-!Hty by lia; congruence.
  - apply negb_true_iff in Hsafe.
    assert (tripleAt b Cols c' k = true); [|congruence].
    apply andb_false_iff in Hmeet.
    assert (c' < c ∨ c + len ≤ c' ∨ line < k ∨ k + 2 < line) as Hout.
    { destruct Hmeet as [H|H]; apply bool_decide_eq_false in H; lia. }
    apply tripleAt_spec. rewrite <-!Hty by lia. done.
Qed.

(** What a call does to a board with one isolated run: it resolves that
    run and nothing else. *)
Lemma swap_isolated_run_resolved s rng axis line c len :
  full (board s) →
  isolatedRun (board s) axis line c len = true →
  let st := resolveRun (difficulty s) axis line c len
              {| newBoard := board s; points := 0; matchFound := false;
                 matchLength := 0; exploded := explosions s; gen := rng |} in
  checkMatches s rng =
    ({| board := newBoard st; score := score s + len * 20;
        difficulty := difficulty s; explosions := exploded st |},
     true, gen st).
Proof.
  intros Hfull Hiso. unfold isolatedRun in Hiso.
  apply andb_true_iff in Hiso as [Hsole Hcross].
  pose proof (soleRun_spec _ _ _ _ _ Hsole) as (H3 & Hin & Hl & Hrun & Honly).
  set (st0 := {| newBoard := board s; points := 0; matchFound := false;
                 matchLength := 0; exploded := explosions s; gen := rng |}).
  cbn zeta.
  destruct (resolveRun_spec (difficulty s) axis line c len st0)
    as (Hpts & Hfound & _ & Hframe).
  cbn zeta in *.
  assert (scanAxis (difficulty s) Cols (scanAxis (difficulty s) Rows st0) =
          resolveRun (difficulty s) axis line c len st0) as Hscan.
  { destruct axis.
    - rewrite (scanAxis_run _ Rows line c len st0) by done.
      apply scanAxis_quiet, quiet_spec. intros c' k Hc' Hk.
      unfold lines, starts in Hcross. rewrite forallb_seq in Hcross.
      specialize (Hcross c' Hc'). rewrite forallb_seq in Hcross.
      apply (refillSafe_quiet (board s) _ line c len); [|by apply Hcross].
      intros r c0 Hout. apply Hframe; [lia|].
      intros i Hi. simpl. intros [= -> ->]. lia.
    - rewrite (scanAxis_quiet _ Rows st0) by done.
      by apply scanAxis_run. }
  unfold checkMatches. fold st0. rewrite Hscan, Hfound, Hpts. simpl.
  done.
Qed.


(** ** The example boards *)


Lemma full_boardOf f :
  (∀ r c, type (f r c) ∈ symbols) → full (boardOf f).
Proof.
  intros Hf. unfold boardOf. split.
  - by rewrite length_fmap, length_seq.
  - apply Forall_fmap, Forall_forall. intros r _. unfold compose. split.
    + by rewrite length_fmap, length_seq.
    + apply Forall_fmap, Forall_forall. intros c _. apply Hf.
Qed.

Lemma dog_symbol : "🐶" ∈ symbols.
Proof. apply elem_of_cons. by left. Qed.

Lemma full_boardWithRun r0 len : full (boardWithRun r0 len).
Proof.
  apply full_boardOf. intros r c.
  destruct (bool_decide (r = r0) && bool_decide (c < len)).
  - apply dog_symbol.
  - unfold patternPiece, piece. cbn [type].
    apply (getPiecesForLevel_sub 1), list_elem_of_lookup_total_2.
    change (length (getPiecesForLevel 1)) with 5.
    apply Nat.mod_upper_bound. done.
Qed.

Lemma rainbow_not_a_piece : RAINBOW ∉ ALL_PIECES.
Proof.
  unfold ALL_PIECES. rewrite !not_elem_of_cons. split_and!; try done.
  apply not_elem_of_nil.
Qed.

(** C1, on the code. Whatever is drawn, resolving the run of five at row
    2, columns 0 to 4, leaves the bomb, not the rainbow, on (2, 0): the
    test for four or more comes first, so [createSpecialPiece] never
    yields the rainbow. *)
Theorem run_of_five_leaves_bomb (rng : Rng) (sc : nat) (ex : list Position) :
  pieceAt (board (checkMatches (gameOn runOfFive sc ex) rng).1.1) 2 0 =
    {| type := BOMB; isSpecial := Some true |} ∧
  ∀ d len rng', type (createSpecialPiece d len rng').1 ≠ RAINBOW.
Proof.
  split.
  - rewrite (swap_isolated_run_resolved _ rng Rows 2 0 5);
      [|apply full_boardWithRun|vm_compute; reflexivity].
    cbn [fst board].
    destruct (resolveRun_spec (difficulty (gameOn runOfFive sc ex)) Rows 2 0 5
                {| newBoard := board (gameOn runOfFive sc ex); points := 0;
                   matchFound := false; matchLength := 0;
                   exploded := explosions (gameOn runOfFive sc ex);
                   gen := rng |}) as (_ & _ & Hhead & _).
    cbn zeta in Hhead. unfold pieceOn in Hhead. cbn [cellOf row col] in Hhead.
    rewrite Hhead; [done|apply full_boardWithRun|unfold BOARD_SIZE; lia..].
  - intros d len rng'. unfold createSpecialPiece.
    case_bool_decide as H4; [done|].
    case_bool_decide as H5; [lia|].
    intros Heq. apply rainbow_not_a_piece. rewrite <-Heq.
    eapply subseteq_take.
    apply (randomPiece_in (getPiecesForLevel d) rng'),
      getPiecesForLevel_length.
Qed.

(** C2, as stated, fails on the swap board: with a generator that keeps
    drawing the first symbol, the run of three of [runOfThree] is refilled
    with itself and every call of [checkMatches] finds it again; one call
    more than the board has cells has not reached a call without a
    match, and no number of calls does. *)
Lemma swap_cascade_never_settles :
  cascade (BOARD_SIZE * BOARD_SIZE + 1) (gameOn runOfThree 0 []) (constRng 0)
    = None ∧
  ∀ fuel, cascade fuel (gameOn runOfThree 0 []) (constRng 0) = None.
Proof.
  assert (∀ sc ex, checkMatches (gameOn runOfThree sc ex) (constRng 0) =
            (gameOn runOfThree (sc + 60) (exploded
               (resolveRun 1 Rows 0 0 3
                  {| newBoard := runOfThree; points := 0; matchFound := false;
                     matchLength := 0; exploded := ex; gen := constRng 0 |})),
             true, constRng 0)) as Hpass
    by (intros sc ex; vm_compute; reflexivity).
  assert (∀ fuel sc ex,
            cascade fuel (gameOn runOfThree sc ex) (constRng 0) = None) as Hall.
  { induction fuel as [|fuel IH]; intros sc ex; [done|].
    cbn [cascade]. rewrite Hpass. apply IH. }
  split; [|intros fuel]; apply Hall.
Qed.

Lemma board_always_full_witness :
  ¬ full (board initialGame) ∧
  full (board (initializeBoard 1 initialGame (constRng 0)).1) ∧
  full (board (gameOn runOfFive 0 [])) ∧
  full (board (checkMatches (gameOn runOfFive 0 []) (constRng 0)).1.1) ∧
  full (board (attemptSwap (gameOn runOfFive 0 [])
                 {| row := 2; col := 0 |} {| row := 2; col := 1 |}).1).
Proof.
  assert (2 < BOARD_SIZE) as H2 by (unfold BOARD_SIZE; lia).
  assert (1 < BOARD_SIZE) as H1 by (unfold BOARD_SIZE; lia).
  assert (0 < BOARD_SIZE) as H0 by (unfold BOARD_SIZE; lia).
  destruct (board_always_full (gameOn runOfFive 0 []) 1 (constRng 0)
              {| row := 2; col := 0 |} {| row := 2; col := 1 |})
    as (_ & Hinit & Hcheck & Hswap).
  split; [intros [Hlen _]; discriminate Hlen|].
  split; [exact Hinit|]. split; [apply full_boardWithRun|].
  split; [exact (Hcheck (full_boardWithRun 2 5))|].
  exact (Hswap (full_boardWithRun 2 5) H2 H0 H2 H1).
Defined.

(** ** Swaps, presses and swipes *)

Lemma board_ext (b b' : Board) :
  full b → full b' →
  (∀ r c, r < BOARD_SIZE → c < BOARD_SIZE → pieceAt b r c = pieceAt b' r c) →
  b = b'.
Proof.
  intros [Hl Hr] [Hl' Hr'] Hcells.
  apply (list_eq_same_length _ _ BOARD_SIZE); [done|done|].
  intros i x y Hi Hx Hy.
  pose proof (Forall_lookup_1 _ _ _ _ Hr Hx) as [Hlx _].
  pose proof (Forall_lookup_1 _ _ _ _ Hr' Hy) as [Hly _].
  apply (list_eq_same_length _ _ BOARD_SIZE); [done|done|].
  intros j p q Hj Hp Hq.
  specialize (Hcells i j Hi Hj). unfold pieceAt in Hcells.
  rewrite (list_lookup_total_correct _ _ _ Hx) in Hcells.
  rewrite (list_lookup_total_correct _ _ _ Hy) in Hcells.
  rewrite (list_lookup_total_correct _ _ _ Hp) in Hcells.
  by rewrite (list_lookup_total_correct _ _ _ Hq) in Hcells.
Qed.

Lemma isAdjacent_apart pos1 pos2 :
  isAdjacent pos1 pos2 = true → (row pos1, col pos1) ≠ (row pos2, col pos2).
Proof.
  unfold isAdjacent. intros H [= Hr Hc].
  rewrite Hr, Hc, !Nat.sub_diag in H. by cbn in H.
Qed.

Lemma attemptSwap_cells s pos1 pos2 :
  full (board s) →
  row pos1 < BOARD_SIZE → col pos1 < BOARD_SIZE →
  row pos2 < BOARD_SIZE → col pos2 < BOARD_SIZE →
  isAdjacent pos1 pos2 = true →
  let b' := board (attemptSwap s pos1 pos2).1 in
  pieceAt b' (row pos1) (col pos1) = pieceAt (board s) (row pos2) (col pos2) ∧
  pieceAt b' (row pos2) (col pos2) = pieceAt (board s) (row pos1) (col pos1) ∧
  ∀ r c, (r, c) ≠ (row pos1, col pos1) → (r, c) ≠ (row pos2, col pos2) →
         pieceAt b' r c = pieceAt (board s) r c.
Proof.
  intros Hfull H1 H2 H3 H4 Hadj. pose proof (isAdjacent_apart _ _ Hadj) as Hne.
  unfold attemptSwap. rewrite Hadj. cbn [fst board].
  split_and!.
  - rewrite pieceAt_setPiece_ne by done. by apply pieceAt_setPiece_eq.
  - apply pieceAt_setPiece_eq; [|done|done].
    apply full_setPiece; [done|]. by apply full_pieceAt.
  - intros r c N1 N2. by rewrite !pieceAt_setPiece_ne.
Qed.

Lemma attemptSwap_frame s pos1 pos2 :
  let res := attemptSwap s pos1 pos2 in
  res.2 = isAdjacent pos1 pos2 ∧ score res.1 = score s ∧
  difficulty res.1 = difficulty s ∧ explosions res.1 = explosions s ∧
  (isAdjacent pos1 pos2 = false → res.1 = s).
Proof. cbn zeta. unfold attemptSwap. by destruct (isAdjacent pos1 pos2). Qed.

Lemma game_ext (s s' : Game) :
  board s = board s' → score s = score s' → difficulty s = difficulty s' →
  explosions s = explosions s' → s = s'.
Proof. destruct s, s'. cbn. by intros -> -> -> ->. Qed.

Lemma attemptSwap_undo s pos1 pos2 :
  full (board s) →
  row pos1 < BOARD_SIZE → col pos1 < BOARD_SIZE →
  row pos2 < BOARD_SIZE → col pos2 < BOARD_SIZE →
  (attemptSwap (attemptSwap s pos1 pos2).1 pos1 pos2).1 = s.
Proof.
  intros Hfull H1 H2 H3 H4.
  destruct (isAdjacent pos1 pos2) eqn:Hadj; cycle 1.
  { destruct (attemptSwap_frame s pos1 pos2) as (_ & _ & _ & _ & Hid).
    by rewrite !(Hid Hadj). }
  pose proof (attemptSwap_full s pos1 pos2 Hfull H1 H2 H3 H4) as Hfull1.
  pose proof (attemptSwap_cells s pos1 pos2 Hfull H1 H2 H3 H4 Hadj)
    as (A1 & A2 & A3).
  pose proof (attemptSwap_frame s pos1 pos2) as (_ & S1 & D1 & E1 & _).
  set (s1 := (attemptSwap s pos1 pos2).1) in *.
  pose proof (attemptSwap_full s1 pos1 pos2 Hfull1 H1 H2 H3 H4) as Hfull2.
  pose proof (attemptSwap_cells s1 pos1 pos2 Hfull1 H1 H2 H3 H4 Hadj)
    as (B1 & B2 & B3).
  pose proof (attemptSwap_frame s1 pos1 pos2) as (_ & S2 & D2 & E2 & _).
  cbn zeta in *.
  apply game_ext; [|congruence..].
  apply board_ext; [done|done|]. intros r c _ _.
  destruct (decide ((r, c) = (row pos1, col pos1))) as [[= -> ->]|N1];
    [congruence|].
  destruct (decide ((r, c) = (row pos2, col pos2))) as [[= -> ->]|N2];
    [congruence|].
  rewrite B3, A3 by done. done.
Qed.

(** X12. [attemptSwap] on two cells of a full board: it reports whether the
    cells are adjacent; adjacent cells exchange their pieces and every
    other cell, the score and the level stay; cells that are not
    adjacent leave the state untouched. *)
Theorem attemptSwap_exchanges (s : Game) (pos1 pos2 : Position) :
  full (board s) →
  row pos1 < BOARD_SIZE → col pos1 < BOARD_SIZE →
  row pos2 < BOARD_SIZE → col pos2 < BOARD_SIZE →
  let res := attemptSwap s pos1 pos2 in
  res.2 = isAdjacent pos1 pos2 ∧
  score res.1 = score s ∧ difficulty res.1 = difficulty s ∧
  (isAdjacent pos1 pos2 = false → res.1 = s) ∧
  (isAdjacent pos1 pos2 = true →
   pieceAt (board res.1) (row pos1) (col pos1) =
     pieceAt (board s) (row pos2) (col pos2) ∧
   pieceAt (board res.1) (row pos2) (col pos2) =
     pieceAt (board s) (row pos1) (col pos1) ∧
   ∀ r c, (r, c) ≠ (row pos1, col pos1) → (r, c) ≠ (row pos2, col pos2) →
          pieceAt (board res.1) r c = pieceAt (board s) r c).
Proof.
  intros Hfull H1 H2 H3 H4. cbn zeta.
  destruct (attemptSwap_frame s pos1 pos2) as (R & S1 & D1 & _ & Hid).
  split_and!; [done..|]. intros Hadj. by apply attemptSwap_cells.
Qed.

(** X13. Swapping the same two cells of a full board twice gives back the
    state the first swap started from. *)
Theorem attemptSwap_twice (s : Game) (pos1 pos2 : Position) :
  full (board s) →
  row pos1 < BOARD_SIZE → col pos1 < BOARD_SIZE →
  row pos2 < BOARD_SIZE → col pos2 < BOARD_SIZE →
  (attemptSwap (attemptSwap s pos1 pos2).1 pos1 pos2).1 = s.
Proof. apply attemptSwap_undo. Qed.

Lemma swipeTarget_spec r c d t :
  r < BOARD_SIZE → c < BOARD_SIZE → swipeTarget r c d = Some t →
  row t < BOARD_SIZE ∧ col t < BOARD_SIZE ∧
  isAdjacent {| row := r; col := c |} t = true.
Proof.
  intros Hr Hc. unfold swipeTarget.
  destruct (bool_decide_reflect (0 ≤ Z.of_nat r +
    match d with UP => -1 | DOWN => 1 | _ => 0 end)%Z) as [A|]; [|done].
  destruct (bool_decide_reflect (Z.of_nat r +
    match d with UP => -1 | DOWN => 1 | _ => 0 end < Z.of_nat BOARD_SIZE)%Z)
    as [B|]; [|done].
  destruct (bool_decide_reflect (0 ≤ Z.of_nat c +
    match d with LEFT => -1 | RIGHT => 1 | _ => 0 end)%Z) as [C|]; [|done].
  destruct (bool_decide_reflect (Z.of_nat c +
    match d with LEFT => -1 | RIGHT => 1 | _ => 0 end < Z.of_nat BOARD_SIZE)%Z)
    as [D|]; [|done].
  cbn [andb]. intros [= <-]. cbn [row col]. unfold isAdjacent. cbn [row col].
  split_and!; [lia|lia|].
  destruct d.
  - apply orb_true_iff. right. rewrite andb_true_iff, !bool_decide_eq_true. lia.
  - apply orb_true_iff. right. rewrite andb_true_iff, !bool_decide_eq_true. lia.
  - apply orb_true_iff. left. rewrite andb_true_iff, !bool_decide_eq_true. lia.
  - apply orb_true_iff. left. rewrite andb_true_iff, !bool_decide_eq_true. lia.
Qed.

(** X14. A swipe on a cell of a full board: when the neighbour in the
    direction of the swipe lies on the board the two cells exchange
    their pieces, otherwise nothing changes; the board stays full, and
    the same swipe on the same cell undoes it. *)
Theorem handleSwipe_neighbour (s : Game) (r c : nat) (d : Direction) :
  full (board s) → r < BOARD_SIZE → c < BOARD_SIZE →
  let s' := handleSwipe s r c d in
  full (board s') ∧
  handleSwipe s' r c d = s ∧
  match swipeTarget r c d with
  | None => s' = s
  | Some t =>
      isAdjacent {| row := r; col := c |} t = true ∧
      pieceAt (board s') r c = pieceAt (board s) (row t) (col t) ∧
      pieceAt (board s') (row t) (col t) = pieceAt (board s) r c
  end.
Proof.
  intros Hfull Hr Hc. cbn zeta. unfold handleSwipe.
  destruct (swipeTarget r c d) as [t|] eqn:Ht; [|done].
  destruct (swipeTarget_spec r c d t Hr Hc Ht) as (Tr & Tc & Hadj).
  split_and!.
  - by apply attemptSwap_full.
  - by apply attemptSwap_undo.
  - done.
  - by apply (attemptSwap_cells s {| row := r; col := c |} t).
  - by apply (attemptSwap_cells s {| row := r; col := c |} t).
Qed.

(** X15. A press changes the board only by a swap: then a piece was selected,
    the pressed cell is adjacent to it and the selection is dropped.
    Pressing the selected piece again drops the selection and changes
    nothing; the score never changes. *)
Theorem handlePiecePress_swaps (s : Game) (sel : option Position) (r c : nat) :
  let res := handlePiecePress s sel r c in
  score res.1 = score s ∧
  (res.1 ≠ s →
   ∃ p, sel = Some p ∧ isAdjacent p {| row := r; col := c |} = true ∧
        res.1 = (attemptSwap s p {| row := r; col := c |}).1 ∧
        res.2 = None) ∧
  (sel = None → res = (s, Some {| row := r; col := c |})) ∧
  (sel = Some {| row := r; col := c |} → res = (s, None)).
Proof.
  cbn zeta. unfold handlePiecePress. destruct sel as [p|]; cycle 1.
  { split_and!; done. }
  destruct (attemptSwap_frame s p {| row := r; col := c |})
    as (R & S1 & _ & _ & Hid).
  destruct (attemptSwap s p {| row := r; col := c |}) as [s1 swapped] eqn:E.
  cbn [fst snd] in *. subst swapped.
  destruct (isAdjacent p {| row := r; col := c |}) eqn:Hadj.
  - cbn [fst snd]. split_and!; [done| |done|].
    + intros _. exists p. by rewrite E.
    + intros [= ->]. unfold isAdjacent in Hadj. cbn [row col] in Hadj.
      rewrite !Nat.sub_diag in Hadj. by cbn in Hadj.
  - rewrite (Hid eq_refl).
    destruct (bool_decide_reflect (row p ≠ r ∨ col p ≠ c)) as [Hd|Hd];
      cbn [fst snd]; (split_and!; [done|done|done|]).
    + intros [= ->]. cbn in Hd. by destruct Hd.
    + done.
Qed.

(** ** A call that finds nothing *)

Lemma tripleAt_extendRun b axis line k :
  k + 2 < BOARD_SIZE → tripleAt b axis line k = true →
  3 ≤ extendRun BOARD_SIZE b axis line k (typeOn b axis line k) 1.
Proof.
  intros Hk [H1 H2]%tripleAt_spec.
  destruct (extendRun_spec BOARD_SIZE b axis line k (typeOn b axis line k) 1)
    as (Hle & _ & Hstop).
  cbn zeta in *.
  set (m := extendRun BOARD_SIZE b axis line k (typeOn b axis line k) 1) in *.
  destruct (decide (3 ≤ m)) as [|Hlt]; [done|]. exfalso.
  assert (m = 1 ∨ m = 2) as [Hm|Hm] by lia;
    (apply Hstop; [lia|lia|]); rewrite Hm; done.
Qed.

Lemma scanLine_found fuel d axis line : ∀ k st,
  matchFound st = true → matchFound (scanLine fuel d axis line k st) = true.
Proof.
  induction fuel as [|fuel IH]; intros k st Hst; [done|].
  cbn [scanLine]. destruct (bool_decide (k < BOARD_SIZE - 2)); [|done].
  destruct (bool_decide (3 ≤ _)); [|by apply IH].
  apply IH. apply resolveRun_spec.
Qed.

Lemma scanLines_found d axis (ls : list nat) : ∀ st,
  matchFound st = true →
  matchFound (foldl (λ st line, scanLine BOARD_SIZE d axis line 0 st) st ls)
    = true.
Proof.
  induction ls as [|l ls IH]; intros st Hst; [done|].
  cbn [foldl]. by apply IH, scanLine_found.
Qed.

Lemma scanAxis_found d axis st :
  matchFound st = true → matchFound (scanAxis d axis st) = true.
Proof. apply scanLines_found. Qed.

Lemma scanLine_finds d axis line k' fuel : ∀ k st,
  k ≤ k' → k' < BOARD_SIZE - 2 → k' - k < fuel →
  tripleAt (newBoard st) axis line k' = true →
  matchFound (scanLine fuel d axis line k st) = true.
Proof.
  induction fuel as [|fuel IH]; intros k st Hk Hk' Hfuel Ht; [lia|].
  cbn [scanLine]. rewrite bool_decide_eq_true_2 by lia.
  fold (typeOn (newBoard st) axis line k).
  destruct (bool_decide_reflect
    (3 ≤ extendRun BOARD_SIZE (newBoard st) axis line k
           (typeOn (newBoard st) axis line k) 1)) as [Hrun|Hno].
  - apply scanLine_found, resolveRun_spec.
  - assert (k ≠ k') as Hne.
    { intros ->. apply Hno, tripleAt_extendRun; [|done].
      unfold BOARD_SIZE in *. lia. }
    apply IH; [lia|done|lia|done].
Qed.

Lemma forallb_seq_false (P : nat → bool) n :
  forallb P (seq 0 n) = false → ∃ i, i < n ∧ P i = false.
Proof.
  induction n as [|n IH]; [done|].
  rewrite seq_S, forallb_app. cbn [forallb plus]. rewrite andb_true_r.
  intros [H|H]%andb_false_iff.
  - destruct (IH H) as (i & Hi & HP). exists i. split; [lia|done].
  - exists n. split; [lia|done].
Qed.

Lemma scanLines_finds d axis (ls : list nat) : ∀ st l k,
  l ∈ ls → k < BOARD_SIZE - 2 →
  tripleAt (newBoard st) axis l k = true →
  matchFound (foldl (λ st line, scanLine BOARD_SIZE d axis line 0 st) st ls)
    = true.
Proof.
  induction ls as [|l0 ls IH]; intros st l k Hl Hk Ht;
    [by apply elem_of_nil in Hl|].
  cbn [foldl].
  destruct (forallb (λ k, negb (tripleAt (newBoard st) axis l0 k)) starts)
    eqn:Hq.
  - rewrite scanLine_quiet.
    + apply elem_of_cons in Hl as [->|Hl]; [|by eapply IH].
      unfold starts in Hq. rewrite forallb_seq in Hq.
      specialize (Hq k Hk). by rewrite Ht in Hq.
    + intros k' _ Hk'. unfold starts in Hq. rewrite forallb_seq in Hq.
      by apply negb_true_iff, Hq.
  - apply forallb_seq_false in Hq as (k0 & Hk0 & Ht0).
    apply negb_false_iff in Ht0.
    apply scanLines_found.
    apply (scanLine_finds d axis l0 k0); [lia|done| |done].
    unfold BOARD_SIZE in *. lia.
Qed.

Lemma scanAxis_finds d axis st :
  quiet (newBoard st) axis = false → matchFound (scanAxis d axis st) = true.
Proof.
  unfold quiet, lines. intros (l & Hl & Hq)%forallb_seq_false.
  apply forallb_seq_false in Hq as (k & Hk & Ht).
  apply negb_false_iff in Ht.
  apply (scanLines_finds d axis _ st l k); [|done|done].
  apply elem_of_seq. lia.
Qed.

(** X16. A call of [checkMatches] schedules no further call exactly when no
    row and no column of the board shows one symbol on three
    consecutive cells; such a call leaves board, score and explosions as
    they are and draws nothing. *)
Theorem checkMatches_settled_iff (s : Game) (rng : Rng) :
  ((checkMatches s rng).1.2 = false ↔
   quiet (board s) Rows = true ∧ quiet (board s) Cols = true) ∧
  ((checkMatches s rng).1.2 = false → checkMatches s rng = (s, false, rng)).
Proof.
  assert (quiet (board s) Rows = true → quiet (board s) Cols = true →
          checkMatches s rng = (s, false, rng)) as Hquiet.
  { intros Hr Hc. unfold checkMatches.
    rewrite (scanAxis_quiet _ Rows) by done.
    rewrite (scanAxis_quiet _ Cols) by done.
    cbn. f_equal. f_equal. destruct s. cbn. f_equal. lia. }
  assert ((checkMatches s rng).1.2 = false →
          quiet (board s) Rows = true ∧ quiet (board s) Cols = true) as Hfound.
  { unfold checkMatches. cbn [fst snd]. intros Hno.
    destruct (quiet (board s) Rows) eqn:Hr.
    - split; [done|]. rewrite (scanAxis_quiet _ Rows) in Hno by done.
      destruct (quiet (board s) Cols) eqn:Hc; [done|].
      rewrite scanAxis_finds in Hno; done.
    - rewrite (scanAxis_found _ Cols) in Hno; [done|].
      by apply scanAxis_finds. }
  split; [split|].
  - done.
  - intros [Hr Hc]. by rewrite Hquiet.
  - intros Hno. destruct (Hfound Hno). by apply Hquiet.
Qed.

(** ** A fresh board *)

Lemma bomb_not_a_piece : BOMB ∉ ALL_PIECES.
Proof.
  unfold ALL_PIECES. rewrite !not_elem_of_cons. split_and!; try done.
  apply not_elem_of_nil.
Qed.

Lemma randomRow_all (P : GamePiece → Prop) pieces rng :
  (∀ rng0, P (randomPiece pieces rng0).1) →
  length (randomRow pieces rng).1 = BOARD_SIZE ∧
  Forall P (randomRow pieces rng).1.
Proof.
  intros HP. unfold randomRow.
  assert (∀ (l : list nat) r rng0,
    Forall P r →
    let res := foldl (λ '(r, rng) (_ : nat),
                 let '(p, rng) := randomPiece pieces rng in (r ++ [p], rng))
               (r, rng0) l in
    length res.1 = length r + length l ∧ Forall P res.1)
    as Hgen.
  { induction l as [|x l IH]; intros r rng0 Hr; cbn [foldl];
      [cbn; split; [lia|done]|].
    pose proof (HP rng0) as Hp.
    destruct (randomPiece pieces rng0) as [p rng1]. cbn [fst] in Hp.
    destruct (IH (r ++ [p]) rng1) as [H1 H2].
    { apply Forall_app. split; [done|]. by apply Forall_singleton. }
    split; [|done]. rewrite H1, length_app. cbn. lia. }
  destruct (Hgen (seq 0 BOARD_SIZE) [] rng) as [H1 H2]; [constructor|].
  split; [|exact H2]. rewrite H1, length_seq. reflexivity.
Qed.

Lemma initializeBoard_all (P : GamePiece → Prop) level s rng :
  (∀ rng0, P (randomPiece (getPiecesForLevel level) rng0).1) →
  length (board (initializeBoard level s rng).1) = BOARD_SIZE ∧
  Forall (λ r, length r = BOARD_SIZE ∧ Forall P r)
         (board (initializeBoard level s rng).1).
Proof.
  intros HP. unfold initializeBoard.
  assert (∀ (l : list nat) b rng0,
    Forall (λ r, length r = BOARD_SIZE ∧ Forall P r) b →
    let res := foldl (λ '(b, rng) (_ : nat),
                 let '(r, rng) := randomRow (getPiecesForLevel level) rng in
                 (b ++ [r], rng)) (b, rng0) l in
    length res.1 = length b + length l ∧
    Forall (λ r, length r = BOARD_SIZE ∧ Forall P r) res.1)
    as Hgen.
  { induction l as [|x l IH]; intros b rng0 Hb; cbn [foldl];
      [cbn; split; [lia|done]|].
    pose proof (randomRow_all P (getPiecesForLevel level) rng0 HP) as [Hl Hr].
    destruct (randomRow (getPiecesForLevel level) rng0) as [r rng1].
    cbn [fst] in Hl, Hr.
    destruct (IH (b ++ [r]) rng1) as [H1 H2].
    { apply Forall_app. split; [done|]. by apply Forall_singleton. }
    split; [|done]. rewrite H1, length_app. cbn. lia. }
  destruct (Hgen (seq 0 BOARD_SIZE) [] rng) as [H1 H2]; [constructor|].
  destruct (foldl _ _ _) as [b rng1]. cbn [fst board] in *.
  split; [|exact H2]. rewrite H1, length_seq. reflexivity.
Qed.

(** X17. [initializeBoard] draws every cell of the 8 by 8 board from the
    level's palette and marks none as special: a fresh board holds no
    bomb and no rainbow.  The level becomes the difficulty, and only a
    board of level 1 resets the score. *)
Theorem initializeBoard_palette (level : nat) (s : Game) (rng : Rng)
    (r c : nat) :
  r < BOARD_SIZE → c < BOARD_SIZE →
  let s' := (initializeBoard level s rng).1 in
  type (pieceAt (board s') r c) ∈ getPiecesForLevel level ∧
  isSpecial (pieceAt (board s') r c) = None ∧
  type (pieceAt (board s') r c) ≠ BOMB ∧
  type (pieceAt (board s') r c) ≠ RAINBOW ∧
  difficulty s' = level ∧
  score s' = (if bool_decide (level = 1) then 0 else score s).
Proof.
  intros Hr Hc. cbn zeta.
  destruct (initializeBoard_all
    (λ p, type p ∈ getPiecesForLevel level ∧ isSpecial p = None) level s rng)
    as [Hlen Hall].
  { intros rng0. split; [|done].
    apply randomPiece_in, getPiecesForLevel_length. }
  set (s' := (initializeBoard level s rng).1) in *.
  assert (type (pieceAt (board s') r c) ∈ getPiecesForLevel level ∧
          isSpecial (pieceAt (board s') r c) = None) as [Hin Hsp].
  { unfold pieceAt.
    destruct (lookup_lt_is_Some_2 (board s') r) as [row Hrow]; [lia|].
    rewrite (list_lookup_total_correct _ _ _ Hrow).
    destruct (Forall_lookup_1 _ _ _ _ Hall Hrow) as [Hl Hcells].
    destruct (lookup_lt_is_Some_2 row c) as [p Hp]; [lia|].
    rewrite (list_lookup_total_correct _ _ _ Hp).
    by apply (Forall_lookup_1 _ _ _ _ Hcells Hp). }
  assert (∀ t, t ∈ getPiecesForLevel level → t ∈ ALL_PIECES) as Hsub.
  { intros t. unfold getPiecesForLevel. apply subseteq_take. }
  split_and!; [done|done| | | |].
  - intros Heq. rewrite Heq in Hin. apply Hsub in Hin.
    by apply bomb_not_a_piece in Hin.
  - intros Heq. rewrite Heq in Hin. apply Hsub in Hin.
    by apply rainbow_not_a_piece in Hin.
  - unfold s', initializeBoard. by destruct (foldl _ _ _).
  - unfold s', initializeBoard. by destruct (foldl _ _ _).
Qed.

(** X18. The palette of a level: four symbols more than the level, at most
    all ten, without repetition; each level's palette opens the next
    one's, and from level 6 on it is the whole list. *)
Theorem getPiecesForLevel_grows (level : nat) :
  length (getPiecesForLevel level) = (4 + level) `min` 10 ∧
  NoDup (getPiecesForLevel level) ∧
  getPiecesForLevel level `prefix_of` getPiecesForLevel (S level) ∧
  (6 ≤ level → getPiecesForLevel level = ALL_PIECES).
Proof.
  unfold getPiecesForLevel, INITIAL_PIECE_COUNT.
  assert (length ALL_PIECES = 10) as Hlen by reflexivity.
  rewrite Hlen. split_and!.
  - rewrite length_take, Hlen. lia.
  - eapply sublist_NoDup; [|apply sublist_take].
    apply (bool_decide_unpack _). by vm_compute.
  - set (n := (5 + level - 1) `min` 10). set (m := (5 + S level - 1) `min` 10).
    assert (n ≤ m) as Hnm by (unfold n, m; lia).
    replace (take n ALL_PIECES) with (take n (take m ALL_PIECES)).
    + apply prefix_take.
    + rewrite take_take. f_equal. lia.
  - intros Hl. replace ((5 + level - 1) `min` 10) with 10 by lia.
    reflexivity.
Qed.

(** ** The facts on the example boards *)

Lemma attemptSwap_exchanges_witness :
  full (board (gameOn runOfFive 0 [])) ∧
  row {| row := 2; col := 4 |} < BOARD_SIZE ∧
  col {| row := 2; col := 4 |} < BOARD_SIZE ∧
  row {| row := 2; col := 5 |} < BOARD_SIZE ∧
  col {| row := 2; col := 5 |} < BOARD_SIZE ∧
  (attemptSwap (gameOn runOfFive 0 [])
     {| row := 2; col := 4 |} {| row := 2; col := 5 |}).2 =
  isAdjacent {| row := 2; col := 4 |} {| row := 2; col := 5 |}.
Proof.
  assert (2 < BOARD_SIZE) as H2 by (unfold BOARD_SIZE; lia).
  assert (4 < BOARD_SIZE) as H4 by (unfold BOARD_SIZE; lia).
  assert (5 < BOARD_SIZE) as H5 by (unfold BOARD_SIZE; lia).
  split; [apply full_boardWithRun|]. do 4 (split; [assumption|]).
  apply (attemptSwap_exchanges (gameOn runOfFive 0 [])
           {| row := 2; col := 4 |} {| row := 2; col := 5 |}
           (full_boardWithRun 2 5) H2 H4 H2 H5).
Defined.

Lemma attemptSwap_twice_witness :
  full (board (gameOn runOfFive 0 [])) ∧
  row {| row := 2; col := 4 |} < BOARD_SIZE ∧
  col {| row := 2; col := 4 |} < BOARD_SIZE ∧
  row {| row := 3; col := 4 |} < BOARD_SIZE ∧
  col {| row := 3; col := 4 |} < BOARD_SIZE ∧
  (attemptSwap
     (attemptSwap (gameOn runOfFive 0 [])
        {| row := 2; col := 4 |} {| row := 3; col := 4 |}).1
     {| row := 2; col := 4 |} {| row := 3; col := 4 |}).1 =
  gameOn runOfFive 0 [].
Proof.
  assert (2 < BOARD_SIZE) as H2 by (unfold BOARD_SIZE; lia).
  assert (3 < BOARD_SIZE) as H3 by (unfold BOARD_SIZE; lia).
  assert (4 < BOARD_SIZE) as H4 by (unfold BOARD_SIZE; lia).
  split; [apply full_boardWithRun|]. do 4 (split; [assumption|]).
  apply (attemptSwap_twice (gameOn runOfFive 0 [])
           {| row := 2; col := 4 |} {| row := 3; col := 4 |}
           (full_boardWithRun 2 5) H2 H4 H3 H4).
Defined.

Lemma handleSwipe_neighbour_witness :
  full (board (gameOn runOfFive 0 [])) ∧ 2 < BOARD_SIZE ∧ 4 < BOARD_SIZE ∧
  handleSwipe (handleSwipe (gameOn runOfFive 0 []) 2 4 RIGHT) 2 4 RIGHT =
  gameOn runOfFive 0 [].
Proof.
  assert (2 < BOARD_SIZE) as H2 by (unfold BOARD_SIZE; lia).
  assert (4 < BOARD_SIZE) as H4 by (unfold BOARD_SIZE; lia).
  split; [apply full_boardWithRun|]. do 2 (split; [assumption|]).
  apply (handleSwipe_neighbour (gameOn runOfFive 0 []) 2 4 RIGHT
           (full_boardWithRun 2 5) H2 H4).
Defined.

Lemma initializeBoard_palette_witness :
  3 < BOARD_SIZE ∧ 5 < BOARD_SIZE ∧
  type (pieceAt (board (initializeBoard 2 (gameOn runOfFive 40 [])
                          (constRng 7)).1) 3 5) ∈ getPiecesForLevel 2.
Proof.
  assert (3 < BOARD_SIZE) as H3 by (unfold BOARD_SIZE; lia).
  assert (5 < BOARD_SIZE) as H5 by (unfold BOARD_SIZE; lia).
  do 2 (split; [assumption|]).
  apply (initializeBoard_palette 2 (gameOn runOfFive 40 []) (constRng 7) 3 5
           H3 H5).
Defined.

End Match3Facts.

(** * Scoring a run *)

Module ScoreFacts.



End ScoreFacts.

(** * Facts about the leaderboard store *)

Module LeaderboardFacts.
Import Leaderboard.

Open Scope Z_scope.

Lemma placeByScore_perm e l : placeByScore e l ≡ₚ e :: l.
Proof.
  induction l as [|y l IH]; [done|]. cbn [placeByScore].
  destruct (bool_decide _); [done|]. rewrite IH. apply Permutation_swap.
Qed.

Lemma sortByScore_perm l : sortByScore l ≡ₚ l.
Proof.
  induction l as [|e l IH]; [done|]. cbn [sortByScore foldr].
  fold (sortByScore l). by rewrite placeByScore_perm, IH.
Qed.

Lemma placeByScore_sorted e l :
  StronglySorted falling l → StronglySorted falling (placeByScore e l).
Proof.
  induction 1 as [|y l Hl IH Hy]; cbn [placeByScore].
  { repeat constructor. }
  destruct (bool_decide_reflect (score y ≤ score e)) as [Hle|Hgt].
  - constructor; [by constructor|]. constructor; [done|].
    eapply Forall_impl; [exact Hy|]. unfold falling. intros z. lia.
  - constructor; [done|]. rewrite placeByScore_perm.
    constructor; [unfold falling; lia|done].
Qed.

Lemma sortByScore_sorted l : StronglySorted falling (sortByScore l).
Proof.
  induction l as [|e l IH]; [constructor|].
  by apply placeByScore_sorted.
Qed.

Lemma sorted_take (l : list LeaderboardEntry) n :
  StronglySorted falling l → StronglySorted falling (take n l).
Proof.
  intros Hs. revert n. induction Hs as [|a l Hl IH Ha]; intros n.
  { rewrite take_nil. constructor. }
  destruct n as [|n]; [constructor|]. cbn. constructor; [apply IH|].
  rewrite Forall_forall in *. intros x Hx. apply Ha.
  by eapply subseteq_take.
Qed.

Lemma sorted_take_drop (l : list LeaderboardEntry) n x y :
  StronglySorted falling l → x ∈ take n l → y ∈ drop n l → falling x y.
Proof.
  intros Hs. revert n. induction Hs as [|a l Hl IH Ha]; intros n Hx Hy.
  { rewrite take_nil in Hx. by apply elem_of_nil in Hx. }
  destruct n as [|n]; [by apply elem_of_nil in Hx|].
  cbn in Hx, Hy. apply elem_of_cons in Hx as [->|Hx]; [|by eapply IH].
  rewrite Forall_forall in Ha. apply Ha. by eapply subseteq_drop.
Qed.

(** X23. [saveScore] keeps the ten best: the stored list has one entry more
    than before, up to ten, in falling order of score; every entry is
    the new one or was stored; and an entry that is left out scores no
    more than any entry kept. *)
Theorem saveScore_top (now : Z) (iso name : string) (sc : Z)
    (stored : list LeaderboardEntry) :
  let new := {| id := now; name := name; score := sc; date := iso |} in
  let board := saveScore now iso name sc stored in
  length board = (10 `min` S (length stored))%nat ∧
  StronglySorted falling board ∧
  (∀ e, e ∈ board → e ∈ stored ∨ e = new) ∧
  (∀ e kept, (e ∈ stored ∨ e = new) → e ∉ board → kept ∈ board →
             score e ≤ score kept).
Proof.
  cbn zeta. unfold saveScore.
  set (new := {| id := now; name := name; score := sc; date := iso |}).
  set (l := sortByScore (stored ++ [new])).
  assert (l ≡ₚ stored ++ [new]) as Hperm by apply sortByScore_perm.
  assert (∀ e, e ∈ l ↔ e ∈ stored ∨ e = new) as Hmem.
  { intros e. rewrite Hperm, elem_of_app, list_elem_of_singleton. done. }
  pose proof (sortByScore_sorted (stored ++ [new])) as Hsorted. fold l in Hsorted.
  split_and!.
  - rewrite length_take, Hperm, length_app.
    change (length [new]) with 1%nat. lia.
  - by apply sorted_take.
  - intros e He. apply Hmem. by eapply subseteq_take.
  - intros e kept He Hout Hkept.
    apply Hmem in He. rewrite <-(take_drop 10 l) in He.
    apply elem_of_app in He as [He|He]; [done|].
    by apply (sorted_take_drop l 10 kept e).
Qed.

Lemma placeByScore_head e l :
  Forall (falling e) l → placeByScore e l = e :: l.
Proof.
  destruct l as [|y l]; [done|]. intros [Hy _]%Forall_cons.
  cbn [placeByScore]. by rewrite bool_decide_eq_true_2.
Qed.

Lemma atLeast_le sc l : (atLeast sc l ≤ length l)%nat.
Proof. apply length_filter. Qed.

Lemma atLeast_none sc (l : list LeaderboardEntry) :
  (∀ e, e ∈ l → score e < sc) → atLeast sc l = 0%nat.
Proof.
  unfold atLeast. induction l as [|a l IH]; intros Hlow; [done|].
  rewrite filter_cons_False.
  - apply IH. intros e He. apply Hlow. by right.
  - specialize (Hlow a ltac:(by left)). lia.
Qed.

(** The new entry on a board in falling order: it goes behind the
    entries that score at least as much. *)
Lemma placed_behind x (l : list LeaderboardEntry) :
  StronglySorted falling l →
  foldr placeByScore [x] l =
    take (atLeast (score x) l) l ++ x :: drop (atLeast (score x) l) l.
Proof.
  induction 1 as [|a l Hl IH Ha]; [done|].
  cbn [foldr]. rewrite IH.
  destruct (decide (score x ≤ score a)) as [Hle|Hgt].
  - assert (atLeast (score x) (a :: l) = S (atLeast (score x) l)) as ->.
    { unfold atLeast. by rewrite filter_cons_True. }
    cbn [take drop app]. apply placeByScore_head.
    apply Forall_app. split.
    + rewrite Forall_forall in *. intros e He. apply Ha.
      by eapply subseteq_take.
    + constructor; [done|]. rewrite Forall_forall in *. intros e He.
      apply Ha. by eapply subseteq_drop.
  - assert (atLeast (score x) l = 0%nat) as Hk.
    { apply atLeast_none. intros e He. rewrite Forall_forall in Ha.
      specialize (Ha e He). unfold falling in Ha. lia. }
    assert (atLeast (score x) (a :: l) = 0%nat) as ->.
    { unfold atLeast in *. by rewrite filter_cons_False. }
    rewrite Hk, !take_0, !drop_0. cbn [app placeByScore].
    rewrite bool_decide_eq_false_2 by done.
    by rewrite placeByScore_head.
Qed.

(** X24. On a stored board in falling order the new entry takes the rank
    behind every stored entry that scores at least as much (a tie goes
    to the older entry): with fewer than ten such entries it is on the
    board at that rank, with ten the board stays as it is. *)
Theorem saveScore_rank (now : Z) (iso name : string) (sc : Z)
    (stored : list LeaderboardEntry) :
  StronglySorted falling stored →
  let new := {| id := now; name := name; score := sc; date := iso |} in
  let k := atLeast sc stored in
  saveScore now iso name sc stored =
    take 10 (take k stored ++ new :: drop k stored) ∧
  ((k < 10)%nat → saveScore now iso name sc stored !! k = Some new) ∧
  ((10 ≤ k)%nat → saveScore now iso name sc stored = take 10 stored).
Proof.
  intros Hs. cbn zeta.
  set (new := {| id := now; name := name; score := sc; date := iso |}).
  set (k := atLeast sc stored).
  pose proof (atLeast_le sc stored) as Hk. fold k in Hk.
  assert (saveScore now iso name sc stored =
          take 10 (take k stored ++ new :: drop k stored)) as ->.
  { unfold saveScore, sortByScore. fold new. rewrite foldr_app.
    cbn [foldr placeByScore]. by rewrite (placed_behind new stored Hs). }
  assert (length (take k stored) = k) as Hlen.
  { rewrite length_take. lia. }
  split_and!; [done| |].
  - intros Hlt. rewrite lookup_take_lt by done.
    rewrite lookup_app_r by lia. by rewrite Hlen, Nat.sub_diag.
  - intros Hge. rewrite take_app_le by lia.
    rewrite take_take. f_equal. lia.
Qed.

Lemma twoScores_sorted : StronglySorted falling twoScores.
Proof.
  unfold twoScores. repeat constructor. unfold falling. cbn. lia.
Defined.

Lemma saveScore_rank_witness :
  StronglySorted falling twoScores ∧
  saveScore 7 "2024-02-02T00:00:00.000Z" "eva" 200 twoScores !! 1%nat =
    Some {| id := 7; name := "eva"; score := 200;
            date := "2024-02-02T00:00:00.000Z" |}.
Proof.
  split; [apply twoScores_sorted|].
  destruct (saveScore_rank 7 "2024-02-02T00:00:00.000Z" "eva" 200 twoScores
              twoScores_sorted) as (_ & Hrank & _).
  apply Hrank. vm_compute. lia.
Defined.

Close Scope Z_scope.

End LeaderboardFacts.

(** * Facts about the pair-matching board *)

Module MahjongFacts.
Import Mahjong.

Open Scope Z_scope.

Lemma find_is_Some {A} (P : A → bool) (l : list A) :
  is_Some (find P l) ↔ ∃ t, t ∈ l ∧ P t = true.
Proof.
  induction l as [|a l IH]; simpl.
  - split; [by intros [? ?]|]. by intros (t & ?%elem_of_nil & _).
  - destruct (P a) eqn:Ha.
    + split; [|by eauto]. intros _. exists a. split; [by left|done].
    + rewrite IH. split.
      * intros (t & Ht & HP). exists t. split; [by right|done].
      * intros (t & [->|Ht]%elem_of_cons & HP); [congruence|eauto].
Qed.

Lemma covers_spec tiles tile :
  is_Some (find (covers tile) tiles) ↔ coveredByNextLayer tiles tile.
Proof.
  rewrite find_is_Some. unfold coveredByNextLayer, covers.
  split; intros (t & Ht & H); exists t; (split; [done|]).
  - rewrite !andb_true_iff, !bool_decide_eq_true in H. tauto.
  - rewrite !andb_true_iff, !bool_decide_eq_true. tauto.
Qed.

Lemma isLeftNeighbor_spec tiles tile :
  is_Some (find (isLeftNeighbor tile) tiles) ↔ blockedOn tiles tile (-1).
Proof.
  rewrite find_is_Some. unfold blockedOn, isLeftNeighbor.
  split; intros (t & Ht & H); exists t; (split; [done|]).
  - rewrite !andb_true_iff, !bool_decide_eq_true in H.
    destruct H as [[[[[? ?] ?] ?] ?] ?]. split_and!; try done; lia.
  - rewrite !andb_true_iff, !bool_decide_eq_true.
    destruct H as (? & ? & ? & ? & ?). split_and!; try done; lia.
Qed.

Lemma isRightNeighbor_spec tiles tile :
  is_Some (find (isRightNeighbor tile) tiles) ↔ blockedOn tiles tile 1.
Proof.
  rewrite find_is_Some. unfold blockedOn, isRightNeighbor.
  split; intros (t & Ht & H); exists t; (split; [done|]).
  - rewrite !andb_true_iff, !bool_decide_eq_true in H.
    destruct H as [[[[[? ?] ?] ?] ?] ?]. split_and!; try done; lia.
  - rewrite !andb_true_iff, !bool_decide_eq_true.
    destruct H as (? & ? & ? & ? & ?). split_and!; try done; lia.
Qed.

(** The rule as the code has it, on any list of tiles.  A tile is free
    exactly when no visible tile of the layer directly above overlaps
    its footprint and, on its left or on its right, no other visible
    tile of its layer and row band lies less than a tile width plus five
    away. *)
Lemma isTileFree_iff (tiles : list Tile) (tile : Tile) :
  isTileFree tiles tile = true ↔
  ¬ coveredByNextLayer tiles tile ∧
  (¬ blockedOn tiles tile (-1) ∨ ¬ blockedOn tiles tile 1).
Proof.
  unfold isTileFree.
  rewrite <-covers_spec, <-isLeftNeighbor_spec, <-isRightNeighbor_spec.
  case_bool_decide as Hcov.
  - split; [done|]. intros [H _]. done.
  - rewrite orb_true_iff, !negb_true_iff, !bool_decide_eq_false. tauto.
Qed.

(** ** Presses *)

Lemma dimmed_refl t : dimmed t t.
Proof. by unfold dimmed. Qed.

Lemma dimmed_hide t : dimmed t (hide t).
Proof. unfold dimmed, hide. cbn. split_and!; done. Qed.

Lemma handleTilePress_tiles s tile :
  tiles (handleTilePress s tile) = tiles s ∨
  ∃ st, st ∈ tiles s ∧ Some (id st) = selectedTileId s ∧
        selectedTileId s ≠ Some (id tile) ∧
        isTileFree (tiles s) tile = true ∧ type st = type tile ∧
        handleTilePress s tile =
          {| tiles :=
               (λ t, if bool_decide (id t = id tile) ||
                        bool_decide (Some (id t) = selectedTileId s)
                     then hide t else t) <$> tiles s;
             selectedTileId := None;
             score := (score s + 100)%nat |}.
Proof.
  unfold handleTilePress.
  destruct (isTileFree (tiles s) tile) eqn:Hfree; cbn [negb]; [|by left].
  destruct (bool_decide_reflect (selectedTileId s = Some (id tile)));
    [by left|].
  destruct (noSelection (selectedTileId s)); [by left|].
  destruct (find _ (tiles s)) as [st|] eqn:Hfind; [|by left].
  destruct (bool_decide_reflect (type st = type tile)); [|by left].
  right. exists st.
  assert (∃ t, t ∈ tiles s ∧
               bool_decide (Some (id t) = selectedTileId s) = true)
    as (t & Ht & HP).
  { apply find_is_Some. by rewrite Hfind. }
  apply find_some in Hfind as [Hin Hsel].
  apply bool_decide_eq_true in Hsel.
  split_and!; try done. by apply list_elem_of_In.
Qed.

Lemma handleTilePress_dimmed s tile :
  Forall2 dimmed (tiles s) (tiles (handleTilePress s tile)).
Proof.
  destruct (handleTilePress_tiles s tile) as [->|(st & _ & _ & _ & _ & _ & ->)].
  - apply Forall_Forall2_diag, Forall_forall. intros t _. apply dimmed_refl.
  - cbn [tiles]. apply Forall2_fmap_r, Forall_Forall2_diag, Forall_forall.
    intros t _. unfold compose.
    destruct (orb _ _); [apply dimmed_hide|apply dimmed_refl].
Qed.

(** X19. A press keeps every tile in its place in the list, with its id, its
    type and its position, and never puts a hidden tile back on show;
    the score stays or grows by 100. *)
Theorem handleTilePress_frame (s : Game) (tile : Tile) :
  length (tiles (handleTilePress s tile)) = length (tiles s) ∧
  (∀ i t, tiles s !! i = Some t →
     ∃ t', tiles (handleTilePress s tile) !! i = Some t' ∧
           id t' = id t ∧ type t' = type t ∧
           x t' = x t ∧ y t' = y t ∧ z t' = z t ∧
           (isVisible t' = true → isVisible t = true)) ∧
  (score (handleTilePress s tile) = score s ∨
   score (handleTilePress s tile) = (score s + 100)%nat).
Proof.
  pose proof (handleTilePress_dimmed s tile) as Hdim. split_and!.
  - symmetry. by eapply Forall2_length.
  - intros i t Ht.
    destruct (Forall2_lookup_l _ _ _ _ _ Hdim Ht) as (t' & Ht' & Hd).
    exists t'. split; [done|]. exact Hd.
  - unfold handleTilePress.
    repeat (first [destruct (negb _)|destruct (bool_decide _)
                  |destruct (noSelection _)|destruct (find _ _)];
            cbn; try by left).
    all: by right.
Qed.

(** X20. A tile that is free stays free whatever is pressed: presses only
    take tiles off show, which uncovers and unblocks. *)
Theorem free_stays_free (s : Game) (pressed tile : Tile) :
  isTileFree (tiles s) tile = true →
  isTileFree (tiles (handleTilePress s pressed)) tile = true.
Proof.
  pose proof (handleTilePress_dimmed s pressed) as Hdim.
  assert (∀ t', t' ∈ tiles (handleTilePress s pressed) →
                ∃ t, t ∈ tiles s ∧ dimmed t t') as Horigin.
  { intros t' (i & Hi)%list_elem_of_lookup.
    destruct (Forall2_lookup_r _ _ _ _ _ Hdim Hi) as (t & Ht & Hd).
    exists t. split; [|done]. by eapply list_elem_of_lookup_2. }
  rewrite !isTileFree_iff. intros [Hcov Hside]. split.
  - intros (t' & Ht' & Hv & Hgeo). apply Hcov.
    destruct (Horigin t' Ht') as (t & Ht & _ & _ & Hx & Hy & Hz & Hvis).
    exists t. rewrite <-Hx, <-Hy, <-Hz. split_and!; auto; apply Hgeo.
  - destruct Hside as [Hl|Hr]; [left|right];
      intros (t' & Ht' & Hid' & Hv & Hgeo);
      destruct (Horigin t' Ht') as (t & Ht & Hid & _ & Hx & Hy & Hz & Hvis).
    + apply Hl. exists t. rewrite <-Hid, <-Hx, <-Hy, <-Hz.
      split_and!; auto; apply Hgeo.
    + apply Hr. exists t. rewrite <-Hid, <-Hx, <-Hy, <-Hz.
      split_and!; auto; apply Hgeo.
Qed.

(** ** Pairs leave together *)

Lemma ids_unique (l : list Tile) t1 t2 :
  NoDup (id <$> l) → t1 ∈ l → t2 ∈ l → id t1 = id t2 → t1 = t2.
Proof.
  intros Hnd (i1 & H1)%list_elem_of_lookup (i2 & H2)%list_elem_of_lookup Hid.
  assert (i1 = i2) as ->; [|congruence].
  apply (NoDup_lookup _ _ _ (id t1) Hnd).
  - by rewrite list_lookup_fmap, H1.
  - by rewrite list_lookup_fmap, H2, Hid.
Qed.

Lemma visibleCount_same (f : Tile → Tile) (l : list Tile) :
  (∀ t, t ∈ l → isVisible (f t) = isVisible t) →
  visibleCount (f <$> l) = visibleCount l.
Proof.
  induction l as [|t l IH]; intros Hf; [done|].
  cbn. rewrite Hf by (by left).
  fold (visibleCount (f <$> l)). fold (visibleCount l).
  rewrite IH; [done|]. intros t' Ht'. apply Hf. by right.
Qed.

Lemma visibleCount_hide (l : list Tile) (i : string) t0 :
  NoDup (id <$> l) → t0 ∈ l → id t0 = i → isVisible t0 = true →
  (visibleCount ((λ t, if bool_decide (id t = i) then hide t else t) <$> l)
   + 1 = visibleCount l)%nat.
Proof.
  induction l as [|t l IH]; intros Hnd Hin Hid Hvis;
    [by apply elem_of_nil in Hin|].
  rewrite fmap_cons in Hnd. apply NoDup_cons in Hnd as [Hfresh Hnd].
  cbn. fold (visibleCount l).
  fold (visibleCount
          ((λ t, if bool_decide (id t = i) then hide t else t) <$> l)).
  apply elem_of_cons in Hin as [->|Hin].
  - rewrite bool_decide_eq_true_2 by done. cbn. rewrite Hvis.
    rewrite visibleCount_same; [lia|].
    intros t' Ht'. rewrite bool_decide_eq_false_2; [done|].
    intros Heq. apply Hfresh. rewrite Hid, <-Heq.
    by apply list_elem_of_fmap_2.
  - rewrite bool_decide_eq_false_2.
    + specialize (IH Hnd Hin Hid Hvis). lia.
    + intros Heq. apply Hfresh. rewrite Heq, <-Hid.
      by apply list_elem_of_fmap_2.
Qed.

Lemma visibleCount_hide_pair (l : list Tile) (a b : string) ta tb :
  NoDup (id <$> l) → a ≠ b →
  ta ∈ l → id ta = a → isVisible ta = true →
  tb ∈ l → id tb = b → isVisible tb = true →
  let g := λ t, if bool_decide (id t = a) || bool_decide (Some (id t) = Some b)
                then hide t else t in
  id <$> (g <$> l) = id <$> l ∧
  (visibleCount (g <$> l) + 2 = visibleCount l)%nat.
Proof.
  intros Hnd Hab Ha Hida Hva Hb Hidb Hvb. cbn zeta.
  set (fa := λ t, if bool_decide (id t = a) then hide t else t).
  set (fb := λ t, if bool_decide (id t = b) then hide t else t).
  assert (∀ t, id (fb t) = id t) as Hfb.
  { intros t. unfold fb. by destruct (bool_decide _). }
  assert ((λ t, if bool_decide (id t = a) || bool_decide (Some (id t) = Some b)
                then hide t else t) <$> l = fa <$> (fb <$> l)) as ->.
  { rewrite <-list_fmap_compose. apply list_fmap_ext. intros _ t _.
    unfold compose, fa. rewrite Hfb. unfold fb.
    destruct (bool_decide_reflect (id t = a)),
             (bool_decide_reflect (id t = b)),
             (bool_decide_reflect (Some (id t) = Some b));
      cbn; try done; congruence. }
  assert (id <$> (fb <$> l) = id <$> l) as Hids.
  { rewrite <-list_fmap_compose. apply list_fmap_ext. intros _ t _. apply Hfb. }
  split.
  - etrans; [|exact Hids]. rewrite <-list_fmap_compose.
    apply list_fmap_ext. intros _ t _. unfold compose, fa.
    by destruct (bool_decide _).
  - pose proof (visibleCount_hide l b tb Hnd Hb Hidb Hvb) as H1.
    fold fb in H1.
    pose proof (visibleCount_hide (fb <$> l) a ta) as H2. fold fa in H2.
    rewrite Hids in H2. specialize (H2 Hnd).
    assert (ta ∈ fb <$> l) as Hta.
    { apply list_elem_of_fmap. exists ta. split; [|done].
      unfold fb. rewrite bool_decide_eq_false_2; [done|congruence]. }
    specialize (H2 Hta Hida Hva). lia.
Qed.

Lemma handleTilePress_conserves (s : Game) (tile : Tile) :
  consistent s → tile ∈ tiles s → isVisible tile = true →
  consistent (handleTilePress s tile) ∧
  (score (handleTilePress s tile) +
   50 * visibleCount (tiles (handleTilePress s tile)) =
   score s + 50 * visibleCount (tiles s))%nat.
Proof.
  intros [Hnd Hsel] Hin Hvis.
  assert (consistent (setSelectedTileId None s)) as Hnone.
  { split; [done|]. by intros i. }
  assert (consistent (setSelectedTileId (Some (id tile)) s)) as Hsome.
  { split; [done|]. intros i [= <-]. by exists tile. }
  unfold handleTilePress.
  destruct (negb _); [by split|].
  destruct (bool_decide_reflect (selectedTileId s = Some (id tile)))
    as [|Hother]; [by split|].
  destruct (noSelection _); [by split|].
  destruct (find _ _) as [st|] eqn:Hfind; [|by split].
  destruct (bool_decide_reflect (type st = type tile)); [|by split].
  apply find_some in Hfind as [Hst Hid]. apply list_elem_of_In in Hst.
  apply bool_decide_eq_true in Hid.
  destruct (selectedTileId s) as [i|] eqn:Hi; [|done].
  injection Hid as Hid.
  destruct (Hsel i eq_refl) as (t & Ht & Hidt & Hvt).
  assert (t = st) as -> by (apply (ids_unique (tiles s)); congruence).
  destruct (visibleCount_hide_pair (tiles s) (id tile) i tile st)
    as [Hids Hcount]; try done.
  { intros Heq. apply Hother. by rewrite Heq. }
  cbn zeta in Hids, Hcount. cbn [tiles score selectedTileId].
  split.
  - split; [cbn [tiles]; by rewrite Hids|]. by intros j.
  - lia.
Qed.

(** X21. A press on a tile on show of a game whose ids tell the tiles apart
    and whose selection, if any, is on show: the ids and the selection
    stay so, and the score plus 50 for each tile on show is what it was,
    so tiles leave two at a time for 100 points. *)
Theorem handleTilePress_pairs (s : Game) (tile : Tile) :
  consistent s → tile ∈ tiles s → isVisible tile = true →
  consistent (handleTilePress s tile) ∧
  (score (handleTilePress s tile) +
   50 * visibleCount (tiles (handleTilePress s tile)) =
   score s + 50 * visibleCount (tiles s))%nat.
Proof. apply handleTilePress_conserves. Qed.

Lemma cleared_count (s : Game) :
  cleared s = true ↔ visibleCount (tiles s) = 0%nat.
Proof.
  unfold cleared. induction (tiles s) as [|t l IH]; [done|].
  cbn. fold (visibleCount l). rewrite andb_true_iff, IH.
  destruct (isVisible t); cbn; split; try lia; intros []; done.
Qed.

Lemma consistent_startNewGame types : consistent (startNewGame types).
Proof.
  split; [|by intros i].
  apply (bool_decide_unpack _). by vm_compute.
Qed.

Lemma visibleCount_startNewGame types :
  visibleCount (tiles (startNewGame types)) = 32%nat.
Proof. reflexivity. Qed.

Lemma played_invariant types s :
  played types s →
  consistent s ∧ (score s + 50 * visibleCount (tiles s) = 1600)%nat.
Proof.
  induction 1 as [|s tile _ [IHc IHs] Hin Hvis].
  - split; [apply consistent_startNewGame|].
    by rewrite visibleCount_startNewGame.
  - destruct (handleTilePress_conserves s tile IHc Hin Hvis) as [Hc Hs].
    split; [done|lia].
Qed.

(** X22. Throughout a game, from the new game on and whatever tiles are
    pressed, the score is 100 for each pair of the 32 tiles that has
    left the board, and the board is cleared exactly when the score
    is 1600. *)
Theorem played_score (availableTypes : list string) (s : Game) :
  played availableTypes s →
  consistent s ∧
  (score s + 50 * visibleCount (tiles s) = 1600)%nat ∧
  (cleared s = true ↔ score s = 1600%nat).
Proof.
  intros Hplayed.
  destruct (played_invariant availableTypes s Hplayed) as [Hc Hs].
  split_and!; [done|done|]. rewrite cleared_count. lia.
Qed.

(** ** The rule of the specification on the boards of a game *)

Lemma dimmed_trans t1 t2 t3 : dimmed t1 t2 → dimmed t2 t3 → dimmed t1 t3.
Proof.
  unfold dimmed. intros (? & ? & ? & ? & ? & ?) (? & ? & ? & ? & ? & ?).
  split_and!; try congruence. auto.
Qed.

Lemma played_dimmed types s :
  played types s → Forall2 dimmed (tiles (startNewGame types)) (tiles s).
Proof.
  induction 1 as [|s tile _ IH _ _].
  - apply Forall_Forall2_diag, Forall_forall. intros t _. apply dimmed_refl.
  - pose proof (handleTilePress_dimmed s tile) as Hstep.
    revert IH Hstep. generalize (tiles (handleTilePress s tile)).
    generalize (tiles s). generalize (tiles (startNewGame types)).
    intros l1 l2 l3 H12. revert l3.
    induction H12 as [|t1 t2 l1 l2 Ht _ IH]; intros l3 H23.
    + by inversion H23.
    + inversion H23 as [|? t3 ? l3' Ht' H23']; subst.
      constructor; [by eapply dimmed_trans|by apply IH].
Qed.

(** The layout has two layers, and its tiles stand at four abscissas, a
    tile width plus two apart. *)
Lemma layout_coords types :
  Forall (λ t, (z t = 0 ∨ z t = 1) ∧
               (x t = 50 ∨ x t = 92 ∨ x t = 134 ∨ x t = 176))
         (tiles (startNewGame types)).
Proof.
  assert (Forall (λ p : Z * Z, (p.2 = 0 ∨ p.2 = 1) ∧
                    (p.1 = 50 ∨ p.1 = 92 ∨ p.1 = 134 ∨ p.1 = 176))
            ((λ t, (x t, z t)) <$> tiles (startNewGame types))) as H.
  { apply (bool_decide_unpack _). by vm_compute. }
  by apply Forall_fmap in H.
Qed.

Lemma played_coords types s t :
  played types s → t ∈ tiles s →
  (z t = 0 ∨ z t = 1) ∧ (x t = 50 ∨ x t = 92 ∨ x t = 134 ∨ x t = 176).
Proof.
  intros Hp (i & Hi)%list_elem_of_lookup.
  destruct (Forall2_lookup_r _ _ _ _ _ (played_dimmed _ _ Hp) Hi)
    as (t0 & Ht0 & _ & _ & Hx & _ & Hz & _).
  pose proof (Forall_lookup_1 _ _ _ _ (layout_coords types) Ht0) as Hc.
  cbv beta in Hc. by rewrite Hx, Hz.
Qed.

(** C9. On every board of a game, from the new game on and whatever
    tiles are pressed, a tile of the board is free exactly when it is
    selectable as the specification words it: no other visible tile of a
    higher layer overlaps its footprint, and on its left or on its right
    no visible tile of its layer and row band is adjacent within one
    tile width. *)
Theorem isTileFree_as_specified (availableTypes : list string) (s : Game)
    (tile : Tile) :
  played availableTypes s → tile ∈ tiles s →
  isTileFree (tiles s) tile = true ↔ selectableAsSpecified (tiles s) tile.
Proof.
  intros Hp Htile.
  destruct (played_invariant availableTypes s Hp) as [[Hnd _] _].
  destruct (played_coords _ _ _ Hp Htile) as [Hz Hx].
  assert (coveredByNextLayer (tiles s) tile ↔ coveredFromAbove (tiles s) tile)
    as Hcov.
  { split.
    - intros (t & Ht & Hv & Hzt & Hgeo). exists t.
      split_and!; [done| |done|lia|apply Hgeo..].
      intros Hid. assert (t = tile) as -> by by apply (ids_unique (tiles s)).
      lia.
    - intros (t & Ht & _ & Hv & Hzt & Hgeo). exists t.
      destruct (played_coords _ _ _ Hp Ht) as [Hz' _].
      split_and!; [done|done|lia|apply Hgeo..]. }
  assert (∀ side, side = -1 ∨ side = 1 →
            blockedOn (tiles s) tile side ↔
            adjacentWithinWidth (tiles s) tile side) as Hside.
  { intros side Hs.
    split; intros (t & Ht & Hid & Hv & Hzt & Hy & Hoff); exists t;
      destruct (played_coords _ _ _ Hp Ht) as [_ Hx'];
      (split_and!; [done|done|done|done|done|..]);
      unfold TILE_WIDTH in *; lia. }
  rewrite isTileFree_iff. unfold selectableAsSpecified.
  rewrite Hcov, (Hside (-1)), (Hside 1) by auto. done.
Qed.

Lemma cornerTile_dealt : cornerTile ∈ tiles (startNewGame oneTypeDeal).
Proof. vm_compute. constructor. Defined.

Lemma handleTilePress_pairs_witness :
  consistent (startNewGame oneTypeDeal) ∧
  cornerTile ∈ tiles (startNewGame oneTypeDeal) ∧
  isVisible cornerTile = true ∧
  (score (handleTilePress (startNewGame oneTypeDeal) cornerTile) +
   50 * visibleCount
          (tiles (handleTilePress (startNewGame oneTypeDeal) cornerTile)) =
   score (startNewGame oneTypeDeal) +
   50 * visibleCount (tiles (startNewGame oneTypeDeal)))%nat.
Proof.
  split; [apply consistent_startNewGame|]. split; [apply cornerTile_dealt|].
  split; [reflexivity|].
  apply (handleTilePress_pairs (startNewGame oneTypeDeal) cornerTile
           (consistent_startNewGame _) cornerTile_dealt eq_refl).
Defined.

Lemma played_score_witness :
  played oneTypeDeal (handleTilePress (startNewGame oneTypeDeal) cornerTile) ∧
  (score (handleTilePress (startNewGame oneTypeDeal) cornerTile) +
   50 * visibleCount
          (tiles (handleTilePress (startNewGame oneTypeDeal) cornerTile)) =
   1600)%nat.
Proof.
  assert (played oneTypeDeal
            (handleTilePress (startNewGame oneTypeDeal) cornerTile)) as Hp.
  { apply played_press; [apply played_new|apply cornerTile_dealt|reflexivity]. }
  split; [exact Hp|]. apply (played_score oneTypeDeal _ Hp).
Defined.

Lemma isTileFree_as_specified_witness :
  played oneTypeDeal (handleTilePress (startNewGame oneTypeDeal) cornerTile) ∧
  cornerTile ∈ tiles (handleTilePress (startNewGame oneTypeDeal) cornerTile) ∧
  (isTileFree
     (tiles (handleTilePress (startNewGame oneTypeDeal) cornerTile))
     cornerTile = true ↔
   selectableAsSpecified
     (tiles (handleTilePress (startNewGame oneTypeDeal) cornerTile))
     cornerTile).
Proof.
  assert (played oneTypeDeal
            (handleTilePress (startNewGame oneTypeDeal) cornerTile)) as Hp.
  { apply played_press; [apply played_new|apply cornerTile_dealt|reflexivity]. }
  assert (cornerTile ∈
            tiles (handleTilePress (startNewGame oneTypeDeal) cornerTile))
    as Hin by (vm_compute; constructor).
  split; [exact Hp|]. split; [exact Hin|].
  apply (isTileFree_as_specified oneTypeDeal _ cornerTile Hp Hin).
Defined.

Lemma free_stays_free_witness :
  isTileFree (tiles (startNewGame oneTypeDeal)) cornerTile = true ∧
  isTileFree
    (tiles (handleTilePress (startNewGame oneTypeDeal) cornerTile))
    cornerTile = true.
Proof.
  assert (isTileFree (tiles (startNewGame oneTypeDeal)) cornerTile = true)
    as Hfree by (vm_compute; reflexivity).
  split; [exact Hfree|].
  apply (free_stays_free (startNewGame oneTypeDeal) cornerTile cornerTile
           Hfree).
Defined.

Close Scope Z_scope.

End MahjongFacts.
